(** * 2D black-hole light-ray simulation: embedding of [BlackHole.cpp]

    The program is written once over an interface of [float] operations
    ([FloatOps]) and read in two arithmetics:

    - [binary32]: IEEE 754 single precision, round to nearest even, every
      operation rounded on its own (the [float] of the source, compiled
      without fused multiply-add and without extended precision), built on
      the executable [SpecFloat] of the Standard Library;
    - [R]: exact real arithmetic, without rounding, overflow or NaN. It is
      an idealisation of the program and is stated only next to the
      binary32 reading of the same fact, never in its place.

    What is claimed of [float] is proved in binary32. For that the value of
    a binary32 float as a real number ([B2R]) and the error of each rounded
    operation are derived from [SpecFloat], and the bounds are stated back
    on floats, with the comparisons of the program.

    Rendering ([draw], [render], [drawGrid], the SFML shapes, the font and
    the info text) has no part in the state of the simulation; it is
    embedded as the list of calls the window receives, in the order made,
    with the events and the main loop [run]. *)

From Stdlib Require Import ZArith List Bool Lia.
From Stdlib Require Import Floats.SpecFloat.
From Stdlib Require Import Reals Lra.
From Stdlib Require String Ascii DecimalString.
Import ListNotations.

(** ** The arithmetic of [float] *)

Class FloatOps (F : Type) : Type := {
  fadd : F -> F -> F;
  fsub : F -> F -> F;
  fmul : F -> F -> F;
  fdiv : F -> F -> F;
  fsqrt : F -> F;
  fabs : F -> F;
  (** [fltb a b] is the C++ comparison [a < b]; [a > b] is [fltb b a]. *)
  fltb : F -> F -> bool;
  (** conversion of an [int] to [float] *)
  of_int : Z -> F
}.

(** A decimal literal [n/d] of the source ([0.01f] is [flit 1 100]): both
    integers are exact and the quotient is rounded once, which is the
    literal's value. *)
Definition flit {F} `{FloatOps F} (n d : Z) : F := fdiv (of_int n) (of_int d).

(** *** IEEE 754 binary32 *)

Module B32.
Definition prec : Z := 24.
Definition emax : Z := 128.

Definition t : Type := spec_float.

Definition add : t -> t -> t := SFadd prec emax.
Definition sub : t -> t -> t := SFsub prec emax.
Definition mul : t -> t -> t := SFmul prec emax.
Definition div : t -> t -> t := SFdiv prec emax.
Definition sqrt : t -> t := SFsqrt prec emax.
Definition abs : t -> t := SFabs.
Definition ltb : t -> t -> bool := SFltb.
Definition leb : t -> t -> bool := SFleb.
Definition of_Z (z : Z) : t := binary_normalize prec emax z 0 false.

(** Neither NaN nor an infinity. *)
Definition is_finite (x : t) : bool :=
  match x with
  | S754_zero _ | S754_finite _ _ _ => true
  | S754_infinity _ | S754_nan => false
  end.

Definition is_nan (x : t) : bool :=
  match x with S754_nan => true | _ => false end.

Definition is_zero (x : t) : bool :=
  match x with S754_zero _ => true | _ => false end.

(** The sign bit is clear, or the value is NaN: what a square, a square
    root and an absolute value produce. *)
Definition nonneg (x : t) : bool :=
  match x with
  | S754_zero s | S754_infinity s | S754_finite s _ _ => negb s
  | S754_nan => true
  end.
End B32.

#[export] Instance binary32_ops : FloatOps B32.t := {
  fadd := B32.add;
  fsub := B32.sub;
  fmul := B32.mul;
  fdiv := B32.div;
  fsqrt := B32.sqrt;
  fabs := B32.abs;
  fltb := B32.ltb;
  of_int := B32.of_Z
}.

(** *** Exact real arithmetic

    The operations of [R]: an idealised reading of the program, in which no
    operation rounds, overflows or yields NaN. *)

Definition Rltb (a b : R) : bool := if Rlt_dec a b then true else false.

#[export] Instance real_ops : FloatOps R := {
  fadd := Rplus;
  fsub := Rminus;
  fmul := Rmult;
  fdiv := Rdiv;
  fsqrt := sqrt;
  fabs := Rabs;
  fltb := Rltb;
  of_int := IZR
}.

(** ** Constants and [int] arithmetic *)

Definition WINDOW_WIDTH : Z := 1200.
Definition WINDOW_HEIGHT : Z := 800.

(** [int] is 32 bits wide. Overflow of [rayCount++] is undefined in C++; the
    model takes the two's complement result, and the theorems that depend on
    the counter say in which range they hold. *)
Definition INT_MAX : Z := 2147483647.
Definition int_wrap (z : Z) : Z := (z + 2147483648) mod 4294967296 - 2147483648.

(** ** [sf::Color]: red, green, blue, alpha, with SFML's predefined colours *)

Record Color : Type := mkColor { cr : Z; cg : Z; cb : Z; ca : Z }.

Module sfColor.
Definition Red : Color := mkColor 255 0 0 255.
Definition Green : Color := mkColor 0 255 0 255.
Definition Blue : Color := mkColor 0 0 255 255.
Definition Yellow : Color := mkColor 255 255 0 255.
Definition Magenta : Color := mkColor 255 0 255 255.
Definition Cyan : Color := mkColor 0 255 255 255.
Definition White : Color := mkColor 255 255 255 255.
End sfColor.

Section Program.
Context {F : Type} `{FloatOps F}.

(** ** [struct Vector2f] *)

Record Vector2f : Type := mkVector2f { vx : F; vy : F }.

Definition vadd (a b : Vector2f) : Vector2f :=
  mkVector2f (fadd (vx a) (vx b)) (fadd (vy a) (vy b)).

Definition vsub (a b : Vector2f) : Vector2f :=
  mkVector2f (fsub (vx a) (vx b)) (fsub (vy a) (vy b)).

Definition vscale (a : Vector2f) (scalar : F) : Vector2f :=
  mkVector2f (fmul (vx a) scalar) (fmul (vy a) scalar).

Definition magnitude (a : Vector2f) : F :=
  fsqrt (fadd (fmul (vx a) (vx a)) (fmul (vy a) (vy a))).

Definition normalized (a : Vector2f) : Vector2f :=
  let mag := magnitude a in
  if fltb (of_int 0) mag then mkVector2f (fdiv (vx a) mag) (fdiv (vy a) mag)
  else mkVector2f (of_int 0) (of_int 0).

(** ** [class BlackHole] (the two shapes are rendering only) *)

Record BlackHole : Type := mkBlackHole {
  position : Vector2f;
  mass : F;
  schwarzschildRadius : F
}.

Definition BlackHole_new (pos : Vector2f) (m : F) : BlackHole :=
  mkBlackHole pos m (fmul m (flit 1 100)).

Definition getPosition (b : BlackHole) : Vector2f := position b.
Definition getMass (b : BlackHole) : F := mass b.
Definition getSchwarzschildRadius (b : BlackHole) : F := schwarzschildRadius b.

(** ** [class LightRay] *)

Record LightRay : Type := mkLightRay {
  path : list Vector2f;
  currentPosition : Vector2f;
  currentVelocity : Vector2f;
  color : Color;
  impactParameter : F;
  absorbed : bool
}.

Definition LightRay_new (startPos initialVel : Vector2f) (c : Color) : LightRay :=
  mkLightRay [startPos] startPos initialVel c
    (fabs (fsub (vy startPos) (fdiv (of_int WINDOW_HEIGHT) (of_int 2))))
    false.

(** The quantities [update] computes on the way, named as in the source. *)

Definition toBlackHole (bh : BlackHole) (r : LightRay) : Vector2f :=
  vsub (getPosition bh) (currentPosition r).

Definition distance (bh : BlackHole) (r : LightRay) : F :=
  magnitude (toBlackHole bh r).

Definition gravitationalConstant (bh : BlackHole) : F :=
  fmul (getMass bh) (of_int 10000).

(** The divisor of the first division, [distance * distance]. *)
Definition gravityDenominator (bh : BlackHole) (r : LightRay) : F :=
  fmul (distance bh r) (distance bh r).

(** The divisor of the second division, [distance * impactParameter + 1.0f]. *)
Definition deflectionDenominator (bh : BlackHole) (r : LightRay) : F :=
  fadd (fmul (distance bh r) (impactParameter r)) (of_int 1).

Definition deflectionFactor (bh : BlackHole) (r : LightRay) : F :=
  fadd (of_int 1)
       (fdiv (fmul (gravitationalConstant bh) (flit 1 1000))
             (deflectionDenominator bh r)).

(** [acceleration] after the relativistic correction has been applied. *)
Definition acceleration (bh : BlackHole) (r : LightRay) : Vector2f :=
  vscale
    (vscale (normalized (toBlackHole bh r))
            (fdiv (gravitationalConstant bh) (gravityDenominator bh r)))
    (deflectionFactor bh r).

(** [currentVelocity + acceleration * deltaTime], before it is normalized. *)
Definition integratedVelocity (bh : BlackHole) (deltaTime : F) (r : LightRay)
  : Vector2f :=
  vadd (currentVelocity r) (vscale (acceleration bh r) deltaTime).

Definition lightSpeed : F := of_int 200.

(** [path.back()], read only when the path is not empty. *)
Definition back (p : list Vector2f) : Vector2f :=
  last p (mkVector2f (of_int 0) (of_int 0)).

Definition push_back (p : list Vector2f) (v : Vector2f) : list Vector2f :=
  p ++ [v].

Definition LightRay_update (bh : BlackHole) (deltaTime : F) (r : LightRay)
  : LightRay :=
  if absorbed r then r
  else if fltb (distance bh r) (getSchwarzschildRadius bh) then
    mkLightRay (path r) (currentPosition r) (currentVelocity r) (color r)
      (impactParameter r) true
  else
    let velocity := vscale (normalized (integratedVelocity bh deltaTime r)) lightSpeed in
    let pos := vadd (currentPosition r) (vscale velocity deltaTime) in
    let path' :=
      if (length (path r) =? 0)%nat
         || fltb (of_int 2) (magnitude (vsub pos (back (path r))))
      then push_back (path r) pos
      else path r in
    mkLightRay path' pos velocity (color r) (impactParameter r) false.

Definition isOffScreen (r : LightRay) : bool :=
  (fltb (of_int (WINDOW_WIDTH + 100)) (vx (currentPosition r))
   || fltb (vx (currentPosition r)) (of_int (-100))
   || fltb (of_int (WINDOW_HEIGHT + 100)) (vy (currentPosition r))
   || fltb (vy (currentPosition r)) (of_int (-100)))
  && negb (absorbed r).

Definition isAbsorbed (r : LightRay) : bool := absorbed r.

(** ** [class BlackHoleSimulation] *)

Record Simulation : Type := mkSimulation {
  windowOpen : bool;
  blackHole : BlackHole;
  lightRays : list LightRay;
  raySpawnTimer : F;
  rayCount : Z
}.

Definition Simulation_new : Simulation :=
  mkSimulation true
    (BlackHole_new
       (mkVector2f (of_int (Z.quot WINDOW_WIDTH 2)) (of_int (Z.quot WINDOW_HEIGHT 2)))
       (of_int 50))
    [] (of_int 0) 0.

Definition colors : list Color :=
  [sfColor.Red; sfColor.Green; sfColor.Blue; sfColor.Yellow;
   sfColor.Magenta; sfColor.Cyan; sfColor.White].

(** The height and the colour [spawnLightRay] derives from the counter;
    [%] on [int] truncates towards zero. *)
Definition spawnHeight (count : Z) : F := of_int (50 + Z.rem count 15 * 50).

Definition spawnColor (count : Z) : Color :=
  nth (Z.to_nat (Z.rem count 7)) colors sfColor.Red.

Definition spawnedRay (count : Z) : LightRay :=
  LightRay_new (mkVector2f (of_int (-50)) (spawnHeight count))
               (mkVector2f (of_int 200) (of_int 0))
               (spawnColor count).

Definition spawnLightRay (s : Simulation) : Simulation :=
  mkSimulation (windowOpen s) (blackHole s)
    (lightRays s ++ [spawnedRay (rayCount s)])
    (raySpawnTimer s)
    (int_wrap (rayCount s + 1)).

(** The first statement block of [update]: the timer and the spawn. *)
Definition spawnStep (deltaTime : F) (s : Simulation) : Simulation :=
  let timer := fadd (raySpawnTimer s) deltaTime in
  let s1 := mkSimulation (windowOpen s) (blackHole s) (lightRays s) timer (rayCount s) in
  if fltb (flit 3 10) timer then
    let s2 := spawnLightRay s1 in
    mkSimulation (windowOpen s2) (blackHole s2) (lightRays s2) (of_int 0) (rayCount s2)
  else s1.

(** [erase(remove_if(.., isOffScreen), ..)]: the rays that stay, in order. *)
Definition removeOffScreen (l : list LightRay) : list LightRay :=
  filter (fun r => negb (isOffScreen r)) l.

(** [update], with the clock's [deltaTime] as its input. *)
Definition update (deltaTime : F) (s : Simulation) : Simulation :=
  let s1 := spawnStep deltaTime s in
  mkSimulation (windowOpen s1) (blackHole s1)
    (removeOffScreen (map (LightRay_update (blackHole s1) deltaTime) (lightRays s1)))
    (raySpawnTimer s1) (rayCount s1).

Inductive Key : Type := KeyEscape | KeyR | KeyOther.
Inductive Event : Type := Closed | KeyPressed (k : Key) | OtherEvent.

(** The body of the [pollEvent] loop of [handleEvents], for one event. *)
Definition handleEvent (s : Simulation) (e : Event) : Simulation :=
  match e with
  | Closed =>
      mkSimulation false (blackHole s) (lightRays s) (raySpawnTimer s) (rayCount s)
  | KeyPressed KeyEscape =>
      mkSimulation false (blackHole s) (lightRays s) (raySpawnTimer s) (rayCount s)
  | KeyPressed KeyR =>
      mkSimulation (windowOpen s) (blackHole s) [] (raySpawnTimer s) 0
  | _ => s
  end.

Definition handleEvents (events : list Event) (s : Simulation) : Simulation :=
  fold_left handleEvent events s.

(** The R key: what the spec calls [reset]. *)
Definition reset (s : Simulation) : Simulation := handleEvent s (KeyPressed KeyR).

(** [n] calls of a state transformer in a row. *)
Fixpoint repeat_call {A : Type} (f : A -> A) (n : nat) (a : A) : A :=
  match n with
  | O => a
  | S k => repeat_call f k (f a)
  end.

End Program.

Arguments Vector2f F : clear implicits.
Arguments BlackHole F : clear implicits.
Arguments LightRay F : clear implicits.
Arguments Simulation F : clear implicits.

(** A run of [update] calls on one ray, each with its own gravity source and
    [deltaTime]. *)
Definition update_all {F} `{FloatOps F} (calls : list (BlackHole F * F))
  (r : LightRay F) : LightRay F :=
  fold_left (fun ray call => LightRay_update (fst call) (snd call) ray) calls r.

(** The ray with [absorbed] set and nothing else touched. *)
Definition mark_absorbed {F} (r : LightRay F) : LightRay F :=
  mkLightRay (path r) (currentPosition r) (currentVelocity r) (color r)
    (impactParameter r) true.

(** [captured bh r]: the test [distance < blackHole.getSchwarzschildRadius()]. *)
Definition captured {F} `{FloatOps F} (bh : BlackHole F) (r : LightRay F) : bool :=
  fltb (distance bh r) (getSchwarzschildRadius bh).

(** The window with its margin of 100 on all sides, a closed rectangle, in
    binary32. *)
Definition inside_frame (p : Vector2f B32.t) : bool :=
  B32.leb (of_int (-100)) (vx p) && B32.leb (vx p) (of_int 1300)
  && B32.leb (of_int (-100)) (vy p) && B32.leb (vy p) (of_int 900).

(** Two path points that the path-recording test of [update] keeps apart:
    [(b - a).magnitude() > 2.0f]. *)
Definition apart {F} `{FloatOps F} (a b : Vector2f F) : bool :=
  fltb (of_int 2) (magnitude (vsub b a)).

(** Every two consecutive points of a path are [apart]. *)
Fixpoint spaced {F} `{FloatOps F} (p : list (Vector2f F)) : bool :=
  match p with
  | a :: (b :: _) as rest => apart a b && spaced rest
  | _ => true
  end.

(** [along_then f P Q n a]: [P] holds of [a] and of the [n - 1] states that
    follow it under [f], and [Q] of the state after [n] steps; one pass over
    the run. *)
Fixpoint along_then {A : Type} (f : A -> A) (P Q : A -> bool) (n : nat) (a : A)
  : bool :=
  match n with
  | O => Q a
  | S k => P a && along_then f P Q k (f a)
  end.

Definition along {A : Type} (f : A -> A) (P : A -> bool) (n : nat) (a : A) : bool :=
  along_then f P (fun _ => true) n a.

(** The ray with another colour. *)
Definition recolor {F} (c : Color) (r : LightRay F) : LightRay F :=
  mkLightRay (path r) (currentPosition r) (currentVelocity r) c
    (impactParameter r) (absorbed r).

(** ** The direct-infall run, in binary32

    The gravity source of the simulation, the ray the simulation spawns at
    the source's height, and frames of 1/60 s. *)
Module Infall.
Definition hole : BlackHole B32.t :=
  BlackHole_new (mkVector2f (of_int 600) (of_int 400)) (of_int 50).

Definition ray0 : LightRay B32.t :=
  LightRay_new (mkVector2f (of_int (-50)) (of_int 400))
               (mkVector2f (of_int 200) (of_int 0)) sfColor.Red.

Definition deltaTime : B32.t := flit 1 60.

Definition step : LightRay B32.t -> LightRay B32.t :=
  LightRay_update hole deltaTime.

Definition flight (n : nat) : LightRay B32.t := repeat_call step n ray0.

(** The ray is in flight before and after the next step, and the step
    brings it strictly closer to the source. *)
Definition approaching (r : LightRay B32.t) : bool :=
  negb (absorbed r) && negb (absorbed (step r))
  && fltb (distance hole (step r)) (distance hole r).

Definition finite_vector (v : Vector2f B32.t) : bool :=
  B32.is_finite (vx v) && B32.is_finite (vy v).

(** Both divisors of [update] are finite and not zero, and the acceleration
    is finite. *)
Definition divisions_sound (r : LightRay B32.t) : bool :=
  B32.is_finite (gravityDenominator hole r)
  && negb (B32.is_zero (gravityDenominator hole r))
  && B32.is_finite (deflectionDenominator hole r)
  && negb (B32.is_zero (deflectionDenominator hole r))
  && finite_vector (acceleration hole r).

(** The frames the ray flies before the capture test fires. *)
Definition frames : nat := 196.
End Infall.

(** ** The nominal run, in binary32

    Every ray the simulation spawns, under the simulation's gravity source
    and frames of 1/60 s, for the 450 frames after which it is absorbed or
    off screen. *)
Module Nominal.
Definition run (count : Z) (k : nat) : LightRay B32.t :=
  repeat_call Infall.step k (spawnedRay count).

(** 2^-15, two units in the last place of 200. *)
Definition tolerance : B32.t := S754_finite false 8388608 (-38).

(** [| |currentVelocity| - 200 |] *)
Definition speed_error (r : LightRay B32.t) : B32.t :=
  fabs (fsub (magnitude (currentVelocity r)) lightSpeed).

(** The speed is 200 within [tolerance], and while the ray is in flight the
    divisions of its next [update] are sound. *)
Definition healthy (r : LightRay B32.t) : bool :=
  B32.leb (speed_error r) tolerance
  && (absorbed r || Infall.divisions_sound r).

(** The ray is frozen, or [update] of the simulation removes it. *)
Definition gone (r : LightRay B32.t) : bool := absorbed r || isOffScreen r.

Definition frames : nat := 450.

(** The spawn counters with distinct start heights. *)
Definition rows : list Z := [0; 1; 2; 3; 4; 5; 6; 7; 8; 9; 10; 11; 12; 13; 14]%Z.

(** What the run has come to after its last frame. *)
Definition settled (r : LightRay B32.t) : bool := healthy r && gone r.

(** The check of one run: [healthy] at each frame, [settled] at the end. *)
Definition checked (frames : nat) (count : Z) : bool :=
  along_then Infall.step healthy settled frames (spawnedRay count).
End Nominal.

(** ** Concrete runs used as counterexamples and witnesses *)

(** A ray constructed to the right of the simulation's gravity source, at
    its height, flying away from it at the speed of light; a frame of
    13394982 * 2^-26 s (about 0.1996 s). *)
Module Stall.
Definition ray : LightRay B32.t :=
  LightRay_new (mkVector2f (of_int 1100) (of_int 400))
               (mkVector2f (of_int 200) (of_int 0)) sfColor.Red.

Definition deltaTime : B32.t := S754_finite false 13394982 (-26).
End Stall.

(** A gravity source that is not at the height of the window's centre. *)
Module Offset.
Definition hole : BlackHole B32.t :=
  BlackHole_new (mkVector2f (of_int 600) (of_int 300)) (of_int 50).
End Offset.

(** The rays of a fresh simulation after sixteen spawns and nothing else. *)
Definition sixteenSpawns {F} `{FloatOps F} : list (LightRay F) :=
  lightRays (repeat_call spawnLightRay 16 Simulation_new).

(** ** The rest of the program: drawing, events and the main loop *)

(** *** More of [float] and of SFML *)

(** [fleb a b] is the C++ comparison [a <= b]; [a >= b] is [fleb b a]. With
    NaN it is not the negation of [fltb b a], so it is an operation of its
    own. *)
Class FloatLe (F : Type) : Type := { fleb : F -> F -> bool }.

#[export] Instance binary32_le : FloatLe B32.t := { fleb := B32.leb }.

(** [sf::Color::Black] and [sf::Color::Transparent]. *)
Definition sfColor_Black : Color := mkColor 0 0 0 255.
Definition sfColor_Transparent : Color := mkColor 0 0 0 0.

(** The fixed pieces of the info text. *)
Module InfoText.
Import String.
Local Open Scope string_scope.
Definition newline : string := String (Ascii.ascii_of_nat 10) EmptyString.
Definition light_rays : string := "Light Rays: ".
Definition total_spawned : string := newline ++ "Total Spawned: ".
Definition press_esc : string := newline ++ "Press ESC to exit".
Definition press_r : string := newline ++ "Press R to reset".
End InfoText.

Section Drawing.
Context {F : Type} `{FloatOps F} `{FloatLe F}.

(** [sf::CircleShape], with the attributes the program sets; the others
    keep the values of SFML's default constructor. *)
Record CircleShape : Type := mkCircleShape {
  radius : F;
  fillColor : Color;
  outlineColor : Color;
  outlineThickness : F;
  origin : Vector2f F;
  shapePosition : Vector2f F
}.

(** [sf::CircleShape shape(r)]: white, no outline, origin and position at
    (0, 0). *)
Definition CircleShape_new (r : F) : CircleShape :=
  mkCircleShape r sfColor.White sfColor.White (of_int 0)
    (mkVector2f (of_int 0) (of_int 0)) (mkVector2f (of_int 0) (of_int 0)).

(** What [window.draw], [window.clear] and [window.display] receive, in the
    order of the calls. A [Line] is the two-vertex [sf::Lines] array, both
    vertices of one colour. *)
Inductive DrawCmd : Type :=
| Clear (c : Color)
| Line (a b : Vector2f F) (c : Color)
| Circle (s : CircleShape)
| Text (s : String.string)
| Display.

(** *** [BlackHole]: the two shapes the constructor builds, and [draw] *)

Definition BlackHole_shape (b : BlackHole F) : CircleShape :=
  let r := schwarzschildRadius b in
  mkCircleShape r sfColor_Black sfColor.White (of_int 0)
    (mkVector2f r r)
    (mkVector2f (vx (position b)) (vy (position b))).

Definition BlackHole_eventHorizon (b : BlackHole F) : CircleShape :=
  let r := fmul (schwarzschildRadius b) (flit 3 2) in
  mkCircleShape r sfColor_Transparent (mkColor 100 100 100 100) (of_int 2)
    (mkVector2f r r)
    (mkVector2f (vx (position b)) (vy (position b))).

Definition BlackHole_draw (b : BlackHole F) : list DrawCmd :=
  [Circle (BlackHole_eventHorizon b); Circle (BlackHole_shape b)].

(** *** [LightRay::draw] *)

(** The photon marker: [sf::CircleShape photon(3)] in the ray's colour,
    centred on the current position. *)
Definition photon (r : LightRay F) : CircleShape :=
  mkCircleShape (of_int 3) (color r) sfColor.White (of_int 0)
    (mkVector2f (of_int 3) (of_int 3))
    (mkVector2f (vx (currentPosition r)) (vy (currentPosition r))).

(** [path[i]]; the loop of [draw] reads inside the path only. *)
Definition path_at (r : LightRay F) (i : nat) : Vector2f F :=
  nth i (path r) (mkVector2f (of_int 0) (of_int 0)).

(** The test that guards the marker. *)
Definition marker_shown (r : LightRay F) : bool :=
  negb (absorbed r)
  && fleb (of_int 0) (vx (currentPosition r))
  && fleb (vx (currentPosition r)) (of_int WINDOW_WIDTH).

Definition LightRay_draw (r : LightRay F) : list DrawCmd :=
  if (length (path r) <? 2)%nat then []
  else
    map (fun i => Line (path_at r (i - 1)) (path_at r i) (color r))
        (seq 1 (length (path r) - 1))
    ++ (if marker_shown r then [Circle (photon r)] else []).

(** *** [drawGrid] *)

(** [for (int x = start; x < bound; x += step) body(x)], at most [fuel]
    rounds. *)
Fixpoint for_up {A : Type} (fuel : nat) (x bound step : Z) (body : Z -> A)
  : list A :=
  match fuel with
  | O => []
  | S fuel' =>
      if (x <? bound)%Z then body x :: for_up fuel' (x + step) bound step body
      else []
  end.

(** The rounds such a loop makes when [step] is positive. *)
Definition rounds (x bound step : Z) : nat :=
  Z.to_nat ((bound - x + step - 1) / step).

Definition gridColor : Color := mkColor 30 30 30 255.

Definition grid_vertical (x : Z) : DrawCmd :=
  Line (mkVector2f (of_int x) (of_int 0))
       (mkVector2f (of_int x) (of_int WINDOW_HEIGHT)) gridColor.

Definition grid_horizontal (y : Z) : DrawCmd :=
  Line (mkVector2f (of_int 0) (of_int y))
       (mkVector2f (of_int WINDOW_WIDTH) (of_int y)) gridColor.

Definition drawGrid : list DrawCmd :=
  for_up (rounds 0 WINDOW_WIDTH 50) 0 WINDOW_WIDTH 50 grid_vertical
  ++ for_up (rounds 0 WINDOW_HEIGHT 50) 0 WINDOW_HEIGHT 50 grid_horizontal.

(** *** The window: the simulation with its font and info text *)

Record Window : Type := mkWindow {
  sim : Simulation F;
  (** [font.loadFromFile] succeeded: [font.getInfo().family != ""] *)
  fontLoaded : bool;
  (** the string of [infoText] *)
  infoString : String.string
}.

(** [std::to_string] of an [int] or a [size_t]. *)
Definition to_string (z : Z) : String.string :=
  DecimalString.NilZero.string_of_int (Z.to_int z).

(** The text [update] writes. *)
Definition infoOf (s : Simulation F) : String.string :=
  String.append
    (String.append
       (String.append
          (String.append
             (String.append InfoText.light_rays
                (to_string (Z.of_nat (length (lightRays s)))))
             InfoText.total_spawned)
          (to_string (rayCount s)))
       InfoText.press_esc)
    InfoText.press_r.

Definition Window_new (font : bool) : Window :=
  mkWindow Simulation_new font String.EmptyString.

Definition Window_handleEvents (events : list Event) (w : Window) : Window :=
  mkWindow (handleEvents events (sim w)) (fontLoaded w) (infoString w).

Definition Window_update (deltaTime : F) (w : Window) : Window :=
  let s := update deltaTime (sim w) in
  mkWindow s (fontLoaded w)
    (if fontLoaded w then infoOf s else infoString w).

Definition render (w : Window) : list DrawCmd :=
  [Clear sfColor_Black]
  ++ drawGrid
  ++ BlackHole_draw (blackHole (sim w))
  ++ flat_map LightRay_draw (lightRays (sim w))
  ++ (if fontLoaded w then [Text (infoString w)] else [])
  ++ [Display].

(** One round of the loop of [run], with the events [pollEvent] hands out
    and the time the clock gives: the state after it and what it drew. *)
Definition frame (input : list Event * F) (w : Window) : Window * list DrawCmd :=
  let w1 := Window_handleEvents (fst input) w in
  let w2 := Window_update (snd input) w1 in
  (w2, render w2).

(** [run], over the inputs of its first rounds: it stops when the window is
    closed, or when the inputs given are used up. The frames are returned
    in the order drawn. *)
Fixpoint run (inputs : list (list Event * F)) (w : Window)
  : Window * list (list DrawCmd) :=
  match inputs with
  | [] => (w, [])
  | input :: rest =>
      if windowOpen (sim w) then
        let '(w', drawn) := frame input w in
        let '(w'', frames) := run rest w' in
        (w'', drawn :: frames)
      else (w, [])
  end.

End Drawing.

Arguments CircleShape F : clear implicits.
Arguments DrawCmd F : clear implicits.
Arguments Window F : clear implicits.

(** ** Predicates the further properties are stated with *)

(** The recorded path ends at the current position, or within the spacing
    that [update] records. *)
Definition path_follows {F} `{FloatOps F} (r : LightRay F) : Prop :=
  back (path r) = currentPosition r
  \/ apart (back (path r)) (currentPosition r) = false.

(** An absorbed ray lies inside the Schwarzschild radius. *)
Definition swallowed {F} `{FloatOps F} (bh : BlackHole F) (r : LightRay F) : Prop :=
  absorbed r = true -> captured bh r = true.

(** An event that closes the window. *)
Definition closes (e : Event) : bool :=
  match e with
  | Closed | KeyPressed KeyEscape => true
  | _ => false
  end.

(** The R key. *)
Definition resets (e : Event) : bool :=
  match e with
  | KeyPressed KeyR => true
  | _ => false
  end.

(** [r] is a ray the simulation spawned, with a counter below the present
    one, updated against the simulation's gravity source only. *)
Definition descends {F} `{FloatOps F} (s : Simulation F) (r : LightRay F) : Prop :=
  exists (count : Z) (calls : list (BlackHole F * F)),
    (0 <= count < rayCount s)%Z
    /\ Forall (fun call => fst call = blackHole s) calls
    /\ r = update_all calls (spawnedRay count).

(** What holds of the simulation between two rounds of [run], [n] rounds
    after its construction. *)
Record sound {F} `{FloatOps F} (n : Z) (s : Simulation F) : Prop := mkSound {
  sound_hole : blackHole s = blackHole Simulation_new;
  sound_count : (0 <= rayCount s <= n)%Z;
  sound_size : (Z.of_nat (length (lightRays s)) <= rayCount s)%Z;
  sound_screen : Forall (fun r => isOffScreen r = false) (lightRays s);
  sound_descent : Forall (descends s) (lightRays s)
}.

(** An input of [run] with an event that closes the window. *)
Definition closing {F} (input : list Event * F) : bool := existsb closes (fst input).

(** The lines that join the consecutive points of a path. *)
Fixpoint segments {F} (c : Color) (p : list (Vector2f F)) : list (DrawCmd F) :=
  match p with
  | a :: (b :: _) as rest => Line a b c :: segments c rest
  | _ => []
  end.

(** A line of colour [c] between two points that are [apart]. *)
Definition long_line {F} `{FloatOps F} (c : Color) (cmd : DrawCmd F) : Prop :=
  match cmd with
  | Line a b c' => apart a b = true /\ c' = c
  | _ => False
  end.

(** The first [n] multiples of 50. *)
Definition fifties (n : nat) : list Z := map (fun k => (50 * Z.of_nat k)%Z) (seq 0 n).

(** The test of [update] that lets a ray be spawned. *)
Definition spawns {F} `{FloatOps F} (deltaTime : F) (s : Simulation F) : bool :=
  fltb (flit 3 10) (fadd (raySpawnTimer s) deltaTime).

(** The timer lies between 0 and [0.3f]; NaN does not. *)
Definition timer_sound (t : B32.t) : bool :=
  B32.leb (B32.of_Z 0) t && B32.leb t (flit 3 10).

(** The sign bit is set, or the value is a zero or NaN. *)
Definition nonpos (x : B32.t) : bool :=
  match x with
  | S754_zero _ | S754_nan => true
  | S754_infinity s | S754_finite s _ _ => s
  end.

(** ** Binary32 floats as real numbers, ranges and concrete runs *)

(** 2 to the power [e], a real. *)
Definition bpow (e : Z) : R := powerRZ 2 e.

(** The real number a float stands for; infinities and NaN stand for
    nothing and are given 0. *)
Definition B2R (x : B32.t) : R :=
  match x with
  | S754_finite s m e => ((if s then -1 else 1) * IZR (Zpos m) * bpow e)%R
  | _ => 0%R
  end.

(** [x] is one of the values of binary32: finite floats have a mantissa of
    at most 24 bits at the exponent that fits it. *)
Definition proper (x : B32.t) : bool := valid_binary B32.prec B32.emax x.

(** The exponent of the unit in the last place of a number of magnitude
    exponent [t] in binary32. *)
Definition fexp32 (t : Z) : Z := fexp B32.prec B32.emax t.

(** [r] is what rounding makes of the real number [z]: a value of
    binary32, not NaN; if finite, within [2^-23 * |z| + 2^-149] of [z]; if
    infinite, [z] is at least [2^127] in size. *)
Definition rounds_to (r : B32.t) (z : R) : Prop :=
  proper r = true
  /\ B32.is_nan r = false
  /\ (B32.is_finite r = true ->
      (Rabs (B2R r - z) <= bpow (-23) * Rabs z + bpow (-149))%R)
  /\ (B32.is_finite r = false -> (bpow 127 <= Rabs z)%R).

(** The sign bit as a factor, -1 or 1. *)
Definition sgn (s : bool) : R := if s then (-1)%R else 1%R.

(** Both coordinates are values of binary32. *)
Definition proper_vector (v : Vector2f B32.t) : bool :=
  proper (vx v) && proper (vy v).

Definition finite_vector (v : Vector2f B32.t) : bool :=
  B32.is_finite (vx v) && B32.is_finite (vy v).

(** The length of the vector of real numbers that [v] stands for. *)
Definition norm (v : Vector2f B32.t) : R :=
  sqrt (B2R (vx v) * B2R (vx v) + B2R (vy v) * B2R (vy v)).

(** [2^-60] and [2^60] in binary32. *)
Definition range_low : B32.t := S754_finite false 8388608 (-83).
Definition range_high : B32.t := S754_finite false 8388608 37.

(** The float lies between [2^-60] and [2^60]: its square neither
    underflows nor overflows. *)
Definition in_range (x : B32.t) : bool :=
  B32.leb range_low x && B32.leb x range_high.

(** The floats of a gravity source and of a ray are binary32 values: every
    mantissa has the width its exponent asks for. Every [float] of the
    C++ program is one; [spec_float] has other inhabitants. *)
Definition proper_hole (bh : BlackHole B32.t) : bool :=
  proper_vector (position bh) && proper (mass bh) && proper (schwarzschildRadius bh).

Definition proper_ray (r : LightRay B32.t) : bool :=
  proper_vector (currentPosition r) && proper_vector (currentVelocity r)
  && proper (impactParameter r).

(** 2^-11, the bound proved on the speed error of every [update]. *)
Definition speed_tolerance : B32.t := S754_finite false 8388608 (-34).

(** 2^-16, 2^16 and 2^40 in binary32. *)
Definition mass_low : B32.t := S754_finite false 8388608 (-39).
Definition mass_high : B32.t := S754_finite false 8388608 (-7).
Definition far : B32.t := S754_finite false 8388608 17.

(** A mass between 2^-16 and 2^16. *)
Definition moderate_mass (m : B32.t) : bool :=
  B32.leb mass_low m && B32.leb m mass_high.

(** A length between 0 and 2^40. *)
Definition within_reach (x : B32.t) : bool :=
  B32.leb (of_int 0) x && B32.leb x far.

(** Both divisors of [update] are finite and above zero, and the
    acceleration is finite. *)
Definition divisions_safe (bh : BlackHole B32.t) (r : LightRay B32.t) : bool :=
  B32.is_finite (gravityDenominator bh r)
  && B32.ltb (of_int 0) (gravityDenominator bh r)
  && B32.is_finite (deflectionDenominator bh r)
  && B32.ltb (of_int 0) (deflectionDenominator bh r)
  && finite_vector (acceleration bh r).

(** A binary32 value that is finite, with its size bounded by [K]. *)
Definition bounded_by (x : B32.t) (K : R) : Prop :=
  proper x = true /\ B32.is_finite x = true /\ (Rabs (B2R x) <= K)%R.

(** 2^-18, the bound proved on the length error of [normalized()]. *)
Definition unit_tolerance : B32.t := S754_finite false 8388608 (-41).

(** [x < 0] and [x > 0] in binary32. *)
Definition below_zero (x : B32.t) : bool := B32.ltb x (B32.of_Z 0).
Definition above_zero (x : B32.t) : bool := B32.ltb (B32.of_Z 0) x.

(** A ray constructed at the height of the simulation's gravity source and
    2^65 to the left of the window. *)
Module Remote.
Definition ray : LightRay B32.t :=
  LightRay_new (mkVector2f (S754_finite true 8388608 42) (of_int 400))
               (mkVector2f (of_int 200) (of_int 0)) sfColor.Red.
End Remote.

(** A gravity source of mass 0 at the simulation's place, and a ray
    constructed at that place. *)
Module Massless.
Definition hole : BlackHole B32.t :=
  BlackHole_new (mkVector2f (of_int 600) (of_int 400)) (of_int 0).

Definition ray : LightRay B32.t :=
  LightRay_new (mkVector2f (of_int 600) (of_int 400))
               (mkVector2f (of_int 200) (of_int 0)) sfColor.Red.
End Massless.

(** A ray constructed with the velocity (1.5 * 2^-75, 1.5 * 2^-75), and a
    frame of 2^66 s. *)
Module Extreme.
Definition slow : LightRay B32.t :=
  LightRay_new (mkVector2f (of_int (-50)) (of_int 400))
    (mkVector2f (S754_finite false 12582912 (-98)) (S754_finite false 12582912 (-98)))
    sfColor.Red.

Definition deltaTime : B32.t := S754_finite false 8388608 43.
End Extreme.

(** Two rounds of [run] without events: a clock reading of 1 s, on which
    the first ray is spawned, and one of 1/60 s. *)
Module FirstSpawn.
Definition inputs : list (list Event * B32.t) :=
  [([], of_int 1); ([], Infall.deltaTime)].
End FirstSpawn.

(** ** Lemmas that hold in every arithmetic *)

Section Generic.
Context {F : Type} `{FloatOps F}.

Implicit Types (bh : BlackHole F) (r : LightRay F) (dt : F) (s : Simulation F).

Lemma update_absorbed bh dt r :
  absorbed r = true -> LightRay_update bh dt r = r.
Proof. intros Ha. unfold LightRay_update. now rewrite Ha. Qed.

Lemma update_captured bh dt r :
  absorbed r = false -> captured bh r = true ->
  LightRay_update bh dt r = mark_absorbed r.
Proof.
  intros Ha Hc. unfold LightRay_update, captured in *. now rewrite Ha, Hc.
Qed.

Lemma update_free bh dt r :
  absorbed r = false -> captured bh r = false ->
  absorbed (LightRay_update bh dt r) = false
  /\ currentVelocity (LightRay_update bh dt r)
     = vscale (normalized (integratedVelocity bh dt r)) lightSpeed
  /\ currentPosition (LightRay_update bh dt r)
     = vadd (currentPosition r)
            (vscale (currentVelocity (LightRay_update bh dt r)) dt).
Proof.
  intros Ha Hc. unfold LightRay_update, captured in *. rewrite Ha, Hc.
  cbn. auto.
Qed.

Lemma update_all_absorbed calls : forall r,
  absorbed r = true -> update_all calls r = r.
Proof.
  induction calls as [|[bh dt] calls IH]; intros r Ha; cbn; [reflexivity|].
  rewrite update_absorbed by assumption. now apply IH.
Qed.

Lemma repeat_call_absorbed bh dt n : forall r,
  absorbed r = true -> repeat_call (LightRay_update bh dt) n r = r.
Proof.
  induction n as [|n IH]; intros r Ha; cbn; [reflexivity|].
  rewrite update_absorbed by assumption. now apply IH.
Qed.

Lemma repeat_call_add {A} (f : A -> A) n m a :
  repeat_call f (n + m) a = repeat_call f m (repeat_call f n a).
Proof. revert a. induction n as [|n IH]; intros a; cbn; auto. Qed.

Lemma repeat_call_S {A} (f : A -> A) n a :
  repeat_call f (S n) a = f (repeat_call f n a).
Proof.
  replace (S n) with (n + 1)%nat by lia. now rewrite repeat_call_add.
Qed.

Lemma along_then_spec {A} (f : A -> A) (P Q : A -> bool) n : forall a,
  along_then f P Q n a = true ->
  (forall k, (k < n)%nat -> P (repeat_call f k a) = true)
  /\ Q (repeat_call f n a) = true.
Proof.
  induction n as [|n IH]; intros a Hall; cbn in Hall.
  - split; [intros k Hk; lia|exact Hall].
  - apply andb_true_iff in Hall as [Ha Hrest].
    destruct (IH (f a) Hrest) as [Hbefore Hend]. split; [|exact Hend].
    intros [|k] Hk; [exact Ha|]. cbn. apply Hbefore. lia.
Qed.

Lemma along_spec {A} (f : A -> A) (P : A -> bool) n a :
  along f P n a = true ->
  forall k, (k < n)%nat -> P (repeat_call f k a) = true.
Proof. intros Hall. now apply (along_then_spec f P (fun _ => true) n a). Qed.

(** *** The colour plays no part in [update] *)

Lemma update_recolor bh dt c r :
  LightRay_update bh dt (recolor c r) = recolor c (LightRay_update bh dt r).
Proof.
  unfold LightRay_update.
  change (absorbed (recolor c r)) with (absorbed r).
  change (distance bh (recolor c r)) with (distance bh r).
  destruct (absorbed r); [reflexivity|].
  destruct (fltb (distance bh r) (getSchwarzschildRadius bh)); reflexivity.
Qed.

Lemma repeat_update_recolor bh dt c n : forall r,
  repeat_call (LightRay_update bh dt) n (recolor c r)
  = recolor c (repeat_call (LightRay_update bh dt) n r).
Proof.
  induction n as [|n IH]; intros r; cbn; [reflexivity|].
  now rewrite update_recolor, IH.
Qed.

Lemma spawnedRay_recolor (count : Z) :
  spawnedRay count = recolor (spawnColor count) (spawnedRay (Z.rem count 15)).
Proof.
  unfold spawnedRay, LightRay_new, recolor, spawnHeight. cbn.
  now rewrite Z.rem_rem by lia.
Qed.

(** *** The impact parameter is fixed at construction *)

Lemma update_impactParameter bh dt r :
  impactParameter (LightRay_update bh dt r) = impactParameter r.
Proof.
  unfold LightRay_update.
  destruct (absorbed r); [reflexivity|].
  now destruct (fltb (distance bh r) (getSchwarzschildRadius bh)).
Qed.

Lemma update_all_impactParameter calls : forall r,
  impactParameter (update_all calls r) = impactParameter r.
Proof.
  induction calls as [|[bh dt] calls IH]; intros r; cbn; [reflexivity|].
  fold (update_all calls (LightRay_update bh dt r)).
  now rewrite IH, update_impactParameter.
Qed.

(** *** The recorded path *)

Lemma spaced_push p : forall q,
  spaced p = true -> (p = [] \/ apart (back p) q = true) ->
  spaced (push_back p q) = true.
Proof.
  unfold push_back, back.
  induction p as [|a [|b p] IH]; intros q Hs Hq; cbn in *.
  - reflexivity.
  - destruct Hq as [Hq|Hq]; [discriminate|]. now rewrite Hq.
  - apply andb_true_iff in Hs as [Hab Hs]. rewrite Hab. cbn.
    apply IH; [exact Hs|]. right.
    destruct Hq as [Hq|Hq]; [discriminate|exact Hq].
Qed.

(** One [update] leaves the path alone or appends the new position. *)
Lemma update_path bh dt r :
  path (LightRay_update bh dt r) = path r
  \/ path (LightRay_update bh dt r)
     = path r ++ [currentPosition (LightRay_update bh dt r)].
Proof.
  unfold LightRay_update.
  destruct (absorbed r); [now left|].
  destruct (fltb (distance bh r) (getSchwarzschildRadius bh)); [now left|].
  cbn.
  destruct ((length (path r) =? 0)%nat || _); [right|left]; reflexivity.
Qed.

Lemma update_spaced bh dt r :
  spaced (path r) = true -> spaced (path (LightRay_update bh dt r)) = true.
Proof.
  intros Hs. unfold LightRay_update.
  destruct (absorbed r); [exact Hs|].
  destruct (fltb (distance bh r) (getSchwarzschildRadius bh)); [exact Hs|].
  cbn.
  destruct (length (path r) =? 0)%nat eqn:Hlen; cbn.
  - apply spaced_push; [exact Hs|]. left.
    apply Nat.eqb_eq in Hlen. now destruct (path r).
  - match goal with |- context [if ?b then _ else _] => destruct b eqn:Hfar end.
    + apply spaced_push; [exact Hs|]. right. exact Hfar.
    + exact Hs.
Qed.

Lemma update_all_path calls : forall r,
  exists added, path (update_all calls r) = path r ++ added.
Proof.
  induction calls as [|[bh dt] calls IH]; intros r; cbn.
  - exists []. now rewrite app_nil_r.
  - destruct (IH (LightRay_update bh dt r)) as [added Hadd].
    fold (update_all calls (LightRay_update bh dt r)). rewrite Hadd.
    destruct (update_path bh dt r) as [-> | ->].
    + now exists added.
    + rewrite <- app_assoc. eexists. reflexivity.
Qed.

Lemma update_all_spaced calls : forall r,
  spaced (path r) = true -> spaced (path (update_all calls r)) = true.
Proof.
  induction calls as [|[bh dt] calls IH]; intros r Hs; cbn; [exact Hs|].
  apply IH. now apply update_spaced.
Qed.

(** [spaced], read by index. *)
Lemma spaced_nth p : forall i a b,
  spaced p = true ->
  nth_error p i = Some a -> nth_error p (S i) = Some b ->
  apart a b = true.
Proof.
  induction p as [|x [|y p] IH]; intros i a b Hs Ha Hb.
  - destruct i; discriminate.
  - destruct i; cbn in Hb; [discriminate|destruct i; discriminate].
  - cbn [spaced] in Hs. apply andb_true_iff in Hs as [Hxy Hs].
    destruct i as [|i].
    + cbn in Ha, Hb. now inversion Ha; inversion Hb; subst.
    + apply (IH i); assumption.
Qed.

(** *** Off-screen test and removal *)

Lemma isOffScreen_absorbed r : absorbed r = true -> isOffScreen r = false.
Proof. intros Ha. unfold isOffScreen. rewrite Ha. apply andb_false_r. Qed.

Lemma removeOffScreen_keeps_absorbed (l : list (LightRay F)) r :
  In r l -> absorbed r = true -> In r (removeOffScreen l).
Proof.
  intros Hin Ha. unfold removeOffScreen. apply filter_In. split; [exact Hin|].
  now rewrite isOffScreen_absorbed.
Qed.

Lemma spawnStep_keeps_rays dt s r :
  In r (lightRays s) -> In r (lightRays (spawnStep dt s)).
Proof.
  intros Hin. unfold spawnStep.
  destruct (fltb _ _); cbn; [apply in_or_app; now left|exact Hin].
Qed.

Lemma update_keeps_absorbed dt s r :
  In r (lightRays s) -> absorbed r = true -> In r (lightRays (update dt s)).
Proof.
  intros Hin Ha. unfold update. cbn [lightRays].
  apply removeOffScreen_keeps_absorbed; [|exact Ha].
  apply in_map_iff. exists r. split.
  - now apply update_absorbed.
  - now apply spawnStep_keeps_rays.
Qed.

(** *** The spawn counter *)

Lemma int_wrap_small z :
  (-2147483648 <= z <= INT_MAX)%Z -> int_wrap z = z.
Proof.
  unfold int_wrap, INT_MAX. intros Hz.
  rewrite Z.mod_small by lia. lia.
Qed.

End Generic.

Local Open Scope Z_scope.

(** ** Rounding in [SpecFloat]: when a rounded result cannot be zero *)

Section Rounding.
Variables prec emax : Z.
Hypothesis prec_pos : 0 < prec.

Lemma digits2_pos_size p : digits2_pos p = Pos.size p.
Proof. induction p; cbn; congruence. Qed.

Lemma digits2_pos_log2 p : Zpos (digits2_pos p) = Z.succ (Z.log2 (Zpos p)).
Proof.
  rewrite digits2_pos_size. destruct p; cbn; lia.
Qed.

Lemma shr_1_m mrs : 0 <= shr_m mrs -> shr_m (shr_1 mrs) = shr_m mrs / 2.
Proof.
  destruct mrs as [m r s]. cbn. intros Hm. rewrite <- Z.div2_div.
  destruct m as [|[p|p|]|p]; cbn; try reflexivity; lia.
Qed.

Lemma pow2_xI p : 2 ^ Zpos p~1 = 2 * 2 ^ Zpos p * 2 ^ Zpos p.
Proof.
  replace (Zpos p~1) with (1 + Zpos p + Zpos p) by lia.
  now rewrite !Z.pow_add_r by lia.
Qed.

Lemma pow2_xO p : 2 ^ Zpos p~0 = 2 ^ Zpos p * 2 ^ Zpos p.
Proof.
  replace (Zpos p~0) with (Zpos p + Zpos p) by lia.
  now rewrite Z.pow_add_r by lia.
Qed.

Lemma iter_shr_1_m p : forall mrs,
  0 <= shr_m mrs ->
  shr_m (SpecFloat.iter_pos shr_1 p mrs) = shr_m mrs / 2 ^ Zpos p.
Proof.
  assert (Hpow : forall q, 0 < 2 ^ Zpos q) by (intros q; apply Z.pow_pos_nonneg; lia).
  induction p as [p IH|p IH|]; intros mrs Hm; cbn [SpecFloat.iter_pos];
    try pose proof (Hpow p).
  - assert (H1 : 0 <= shr_m (shr_1 mrs)).
    { rewrite shr_1_m by assumption. apply Z.div_pos; lia. }
    assert (H2 : 0 <= shr_m (SpecFloat.iter_pos shr_1 p (shr_1 mrs))).
    { rewrite IH by assumption. apply Z.div_pos; lia. }
    rewrite IH, IH, shr_1_m by assumption.
    rewrite (Z.div_div (shr_m mrs) 2 (2 ^ Zpos p)) by lia.
    rewrite Z.div_div by lia. now rewrite pow2_xI.
  - assert (H2 : 0 <= shr_m (SpecFloat.iter_pos shr_1 p mrs)).
    { rewrite IH by assumption. apply Z.div_pos; lia. }
    rewrite IH, IH by assumption.
    rewrite Z.div_div by lia. now rewrite pow2_xO.
  - now rewrite shr_1_m.
Qed.

(** A right shift that leaves at least one digit leaves a positive mantissa;
    the exponent is the format's, or the one given. *)
Lemma shr_fexp_pos (m : positive) e l :
  emin prec emax < Zpos (digits2_pos m) + e ->
  1 <= shr_m (fst (shr_fexp prec emax (Zpos m) e l))
  /\ (emin prec emax <= snd (shr_fexp prec emax (Zpos m) e l)
      \/ (snd (shr_fexp prec emax (Zpos m) e l) = e
          /\ shr_m (fst (shr_fexp prec emax (Zpos m) e l)) = Zpos m)).
Proof.
  intros Hd. unfold shr_fexp, shr. cbn [Zdigits2].
  set (d := Zpos (digits2_pos m) + e) in *.
  assert (Hf : fexp prec emax d < d /\ emin prec emax <= fexp prec emax d).
  { unfold fexp. lia. }
  assert (Hm : shr_m (shr_record_of_loc (Zpos m) l) = Zpos m).
  { destruct l as [|[]]; reflexivity. }
  destruct (fexp prec emax d - e) as [|n|n] eqn:Hn; cbn [fst snd].
  - rewrite Hm. split; [lia|]. right. now split.
  - split.
    + rewrite iter_shr_1_m by (rewrite Hm; lia). rewrite Hm.
      apply Z.div_le_lower_bound; [apply Z.pow_pos_nonneg; lia|].
      rewrite Z.mul_1_r.
      transitivity (2 ^ Z.log2 (Zpos m)).
      * apply Z.pow_le_mono_r; [lia|].
        pose proof (digits2_pos_log2 m). lia.
      * apply Z.log2_spec. lia.
    + left. lia.
  - rewrite Hm. split; [lia|]. right. now split.
Qed.

Lemma round_nearest_even_ge m l : m <= round_nearest_even m l.
Proof.
  destruct l as [|[]]; cbn; try lia. destruct (Z.even m); lia.
Qed.

Lemma digits2_pos_mono p q : (p <= q)%positive -> Zpos (digits2_pos p) <= Zpos (digits2_pos q).
Proof.
  intros Hpq. rewrite !digits2_pos_log2.
  apply -> Z.succ_le_mono. apply Z.log2_le_mono. lia.
Qed.

(** Rounding a positive mantissa whose most significant digit lies above
    [emin] never gives a zero (nor NaN). *)
Lemma binary_round_aux_pos sx (m : positive) e l :
  emin prec emax < Zpos (digits2_pos m) + e ->
  (exists m' e', binary_round_aux prec emax sx (Zpos m) e l = S754_finite sx m' e')
  \/ binary_round_aux prec emax sx (Zpos m) e l = S754_infinity sx.
Proof.
  intros Hd. unfold binary_round_aux.
  destruct (shr_fexp_pos m e l Hd) as [H1 He].
  destruct (shr_fexp prec emax (Zpos m) e l) as [mrs' e']. cbn [fst snd] in *.
  pose proof (round_nearest_even_ge (shr_m mrs') (loc_of_shr_record mrs')) as Hr.
  destruct (round_nearest_even (shr_m mrs') (loc_of_shr_record mrs')) as [|m2|m2] eqn:Hm2;
    try lia.
  assert (Hd2 : emin prec emax < Zpos (digits2_pos m2) + e').
  { destruct He as [He|[He Hsame]].
    - pose proof (Pos2Z.is_pos (digits2_pos m2)). lia.
    - subst e'. rewrite Hsame in Hr.
      pose proof (digits2_pos_mono m m2). lia. }
  destruct (shr_fexp_pos m2 e' loc_Exact Hd2) as [H2 _].
  destruct (shr_fexp prec emax (Zpos m2) e' loc_Exact) as [mrs'' e'']. cbn [fst snd] in *.
  destruct (shr_m mrs'') as [|m3|m3]; try lia.
  destruct (e'' <=? emax - prec); [left; eauto | now right].
Qed.

Lemma digits2_pos_iter_xO m d :
  Zpos (digits2_pos (Pos.iter xO m d)) = Zpos (digits2_pos m) + Zpos d.
Proof.
  induction d as [|d IH] using Pos.peano_ind.
  - cbn. lia.
  - rewrite Pos.iter_succ. cbn [digits2_pos]. lia.
Qed.

Lemma shl_align_digits m e e' :
  Zpos (digits2_pos (fst (shl_align m e e'))) + snd (shl_align m e e')
  = Zpos (digits2_pos m) + e.
Proof.
  unfold shl_align. destruct (e' - e) as [|d|d] eqn:Hd; cbn [fst snd]; try reflexivity.
  rewrite digits2_pos_iter_xO. lia.
Qed.

Lemma shl_align_snd m e e' : e' <= e -> snd (shl_align m e e') = e'.
Proof.
  unfold shl_align. intros He.
  destruct (e' - e) as [|d|d] eqn:Hd; cbn [snd]; lia.
Qed.

Lemma binary_round_pos sx (m : positive) e :
  emin prec emax < Zpos (digits2_pos m) + e ->
  (exists m' e', binary_round prec emax sx m e = S754_finite sx m' e')
  \/ binary_round prec emax sx m e = S754_infinity sx.
Proof.
  intros Hd. unfold binary_round.
  pose proof (shl_align_digits m e (fexp prec emax (Zpos (digits2_pos m) + e))) as Hal.
  destruct (shl_align m e (fexp prec emax (Zpos (digits2_pos m) + e))) as [mz ez].
  cbn [fst snd] in Hal. apply binary_round_aux_pos. lia.
Qed.

(** The sign of a rounded result is the sign asked for. *)
Lemma binary_round_aux_sign sx m e l :
  match binary_round_aux prec emax sx m e l with
  | S754_zero s | S754_infinity s | S754_finite s _ _ => s = sx
  | S754_nan => True
  end.
Proof.
  unfold binary_round_aux.
  destruct (shr_fexp prec emax m e l) as [mrs' e'].
  destruct (shr_fexp prec emax _ e' loc_Exact) as [mrs'' e''].
  destruct (shr_m mrs''); [reflexivity| |exact I].
  now destruct (e'' <=? emax - prec).
Qed.
End Rounding.

(** ** Signs in binary32 *)

Section Binary32Facts.

Lemma B32_prec_pos : 0 < B32.prec.
Proof. reflexivity. Qed.

(** The literals of the source, with their IEEE 754 encodings: [0.01f] is
    0x3C23D70A, [0.001f] is 0x3A83126F, [0.3f] is 0x3E99999A, and
    [1.0f / 60] is 0x3C888889. *)
Example literal_bits :
  (flit 1 100 : B32.t) = S754_finite false 10737418 (-30)
  /\ (flit 1 1000 : B32.t) = S754_finite false 8589935 (-33)
  /\ (flit 3 10 : B32.t) = S754_finite false 10066330 (-25)
  /\ (flit 1 60 : B32.t) = S754_finite false 8947849 (-29).
Proof. repeat split. Qed.

(** The gravity source of the simulation: (600, 400), mass 50, radius 0.5. *)
Example simulation_hole_bits :
  blackHole (Simulation_new (F := B32.t))
  = mkBlackHole (mkVector2f (S754_finite false 9830400 (-14))
                            (S754_finite false 13107200 (-15)))
                (S754_finite false 13107200 (-18))
                (S754_finite false 8388608 (-24)).
Proof. reflexivity. Qed.

Lemma round_aux_nonneg m e l :
B32.nonneg (binary_round_aux B32.prec B32.emax false m e l) = true.
Proof.
  pose proof (binary_round_aux_sign B32.prec B32.emax false m e l) as Hs.
  destruct (binary_round_aux B32.prec B32.emax false m e l); cbn; subst; auto.
Qed.

Lemma round_nonneg m e :
B32.nonneg (binary_round B32.prec B32.emax false m e) = true.
Proof.
  unfold binary_round. destruct (shl_align m e _). apply round_aux_nonneg.
Qed.

Lemma mul_self_nonneg x : B32.nonneg (B32.mul x x) = true.
Proof.
  destruct x as [s|s| |s m e]; cbn; try reflexivity; try (now destruct s).
  replace (xorb s s) with false by now destruct s.
  apply round_aux_nonneg.
Qed.

Lemma mul_nonneg x y :
B32.nonneg x = true -> B32.nonneg y = true -> B32.nonneg (B32.mul x y) = true.
Proof.
  destruct x as [[]|[]| |[] mx ex], y as [[]|[]| |[] my ey];
    cbn; intros Hx Hy; try discriminate; try reflexivity.
  apply round_aux_nonneg.
Qed.

Lemma add_nonneg x y :
B32.nonneg x = true -> B32.nonneg y = true -> B32.nonneg (B32.add x y) = true.
Proof.
  destruct x as [[]|[]| |[] mx ex], y as [[]|[]| |[] my ey];
    cbn -[binary_normalize shl_align]; intros Hx Hy; try discriminate; try reflexivity.
  apply round_nonneg.
Qed.

Lemma sqrt_nonneg x : B32.nonneg x = true -> B32.nonneg (B32.sqrt x) = true.
Proof.
  destruct x as [[]|[]| |[] mx ex]; cbn -[SFsqrt_core_binary binary_round_aux];
    intros Hx; try discriminate; try reflexivity.
  destruct (SFsqrt_core_binary _ _ _ _) as [[mz ez] lz]. apply round_aux_nonneg.
Qed.

Lemma abs_nonneg x : B32.nonneg (B32.abs x) = true.
Proof. now destruct x. Qed.

Lemma magnitude_nonneg (v : Vector2f B32.t) : B32.nonneg (magnitude v) = true.
Proof.
  unfold magnitude. cbn [fsqrt fadd fmul binary32_ops].
  apply sqrt_nonneg, add_nonneg; apply mul_self_nonneg.
Qed.

Lemma one_bits : B32.of_Z 1 = S754_finite false 8388608 (-23).
Proof. reflexivity. Qed.

Lemma add_one_not_zero y :
B32.nonneg y = true -> B32.is_zero (B32.add y (B32.of_Z 1)) = false.
Proof.
  rewrite one_bits.
  destruct y as [[]|[]| |[] m e]; cbn -[binary_normalize shl_align Z.min];
    intros Hy; try discriminate; try reflexivity.
  set (ez := Z.min e (-23)).
  assert (Hone : Zpos (digits2_pos (fst (shl_align 8388608 (-23) ez))) + ez = 1).
  { pose proof (shl_align_digits 8388608 (-23) ez) as Hd.
    rewrite (shl_align_snd 8388608 (-23) ez) in Hd by (subst ez; lia).
    exact Hd. }
  set (a := fst (shl_align m e ez)) in *.
  set (b := fst (shl_align 8388608 (-23) ez)) in *.
  change (Zpos a + Zpos b) with (Zpos (a + b)).
  cbn [binary_normalize].
  assert (Hd : emin B32.prec B32.emax < Zpos (digits2_pos (a + b)) + ez).
  { pose proof (digits2_pos_mono b (a + b)) as Hmono.
    assert (Hle : (b <= a + b)%positive) by lia.
    specialize (Hmono Hle). unfold emin, B32.prec, B32.emax. lia. }
  destruct (binary_round_pos B32.prec B32.emax B32_prec_pos false (a + b) ez Hd)
    as [(m' & e' & ->) | ->]; reflexivity.
Qed.

(** *** Comparisons *)

Lemma B32_compare_antisym (a b : B32.t) :
  SFcompare b a = option_map CompOpp (SFcompare a b).
Proof.
  destruct a as [sa|sa| |sa ma ea], b as [sb|sb| |sb mb eb]; cbn;
    try reflexivity;
    try (destruct sa; reflexivity); try (destruct sb; reflexivity);
    try (destruct sa, sb; reflexivity).
  destruct sa, sb; cbn; try reflexivity;
    rewrite (Z.compare_antisym ea eb);
    destruct (ea ?= eb)%Z; cbn; try reflexivity;
    rewrite (Pos.compare_cont_antisym ma mb Eq); cbn;
    destruct (Pos.compare_cont Eq ma mb); reflexivity.
Qed.

Lemma B32_compare_some (a b : B32.t) :
  B32.is_nan a = false -> B32.is_nan b = false ->
  exists c, SFcompare a b = Some c.
Proof. destruct a, b; cbn; intros Ha Hb; try discriminate; eauto. Qed.

(** Without NaN, [a < b] is the negation of [b <= a]. *)
Lemma B32_ltb_not_leb (a b : B32.t) :
  B32.is_nan a = false -> B32.is_nan b = false ->
  B32.ltb a b = negb (B32.leb b a).
Proof.
  intros Ha Hb. unfold B32.ltb, B32.leb, SFltb, SFleb.
  rewrite (B32_compare_antisym a b).
  destruct (B32_compare_some a b Ha Hb) as [c ->]. now destruct c.
Qed.

End Binary32Facts.

Local Close Scope Z_scope.

(** ** Exact arithmetic *)

Ltac ops_unfold :=
  cbn [fadd fsub fmul fdiv fsqrt fabs fltb of_int real_ops binary32_ops
       vx vy position mass schwarzschildRadius path currentPosition
       currentVelocity color impactParameter absorbed
       windowOpen blackHole lightRays raySpawnTimer rayCount] in *.

Section RealFacts.
Open Scope R_scope.
Implicit Types (v : Vector2f R) (bh : BlackHole R) (r : LightRay R).

Lemma Rltb_true a b : Rltb a b = true <-> a < b.
Proof.
  unfold Rltb. destruct (Rlt_dec a b); split; intros;
    try lra; try discriminate; reflexivity.
Qed.

End RealFacts.

(** ** The direct-infall run *)

Lemma infall_is_the_simulation's :
  Infall.hole = blackHole Simulation_new /\ Infall.ray0 = spawnedRay 7.
Proof. split; reflexivity. Qed.

Lemma infall_approaches :
  along Infall.step Infall.approaching (Infall.frames - 1) Infall.ray0 = true.
Proof. vm_compute. reflexivity. Qed.

Lemma infall_captured :
  absorbed (Infall.flight (Infall.frames - 1)) = false
  /\ captured Infall.hole (Infall.flight (Infall.frames - 1)) = true
  /\ absorbed (Infall.flight Infall.frames) = true.
Proof. vm_compute. repeat split. Qed.

Lemma infall_flight_S n : Infall.flight (S n) = Infall.step (Infall.flight n).
Proof. unfold Infall.flight. apply repeat_call_S. Qed.

Lemma infall_approaching_at k :
  (S k < Infall.frames)%nat -> Infall.approaching (Infall.flight k) = true.
Proof.
  intros Hk. unfold Infall.flight.
  apply (along_spec Infall.step Infall.approaching (Infall.frames - 1)).
  - exact infall_approaches.
  - lia.
Qed.

Lemma flight_absorbed_stays n k :
  absorbed (Infall.flight n) = true -> Infall.flight (n + k) = Infall.flight n.
Proof.
  unfold Infall.flight, Infall.step. intros Ha.
  rewrite repeat_call_add. now apply repeat_call_absorbed.
Qed.

Lemma flight_captured n :
  absorbed (Infall.flight n) = false ->
  captured Infall.hole (Infall.flight n) = true ->
  Infall.flight (S n) = mark_absorbed (Infall.flight n).
Proof.
  intros Ha Hc. rewrite infall_flight_S. unfold Infall.step.
  now apply update_captured.
Qed.

(** ** Spawning *)

Lemma spawn_index_range (count : Z) :
  (0 <= count)%Z -> (0 <= Z.rem count 15 < 15)%Z.
Proof. intros Hc. apply Z.rem_bound_pos; lia. Qed.

Lemma spawned_ray_on_screen_b32 (count : Z) :
  (0 <= count)%Z -> isOffScreen (spawnedRay (F := B32.t) count) = false.
Proof.
  intros Hc. pose proof (spawn_index_range count Hc) as Hk.
  unfold spawnedRay, spawnHeight.
  assert (Hcases : In (Z.rem count 15) [0; 1; 2; 3; 4; 5; 6; 7; 8; 9; 10; 11; 12; 13; 14]%Z).
  { cbn. lia. }
  cbn in Hcases.
  repeat (destruct Hcases as [<- | Hcases]; [vm_compute; reflexivity|]).
  contradiction.
Qed.

(** ** The nominal run *)

Lemma nominal_rows_healthy :
  forallb (Nominal.checked Nominal.frames) Nominal.rows = true.
Proof. vm_compute. reflexivity. Qed.

Lemma spawn_row (count : Z) : (0 <= count)%Z -> In (Z.rem count 15) Nominal.rows.
Proof. intros Hc. pose proof (spawn_index_range count Hc). cbn. lia. Qed.

Lemma nominal_run_recolor (count : Z) (k : nat) :
  Nominal.run count k
  = recolor (spawnColor count) (Nominal.run (Z.rem count 15) k).
Proof.
  unfold Nominal.run, Infall.step.
  now rewrite <- repeat_update_recolor, <- spawnedRay_recolor.
Qed.

Lemma healthy_recolor c (r : LightRay B32.t) :
  Nominal.healthy (recolor c r) = Nominal.healthy r.
Proof. reflexivity. Qed.

Lemma gone_recolor c (r : LightRay B32.t) :
  Nominal.gone (recolor c r) = Nominal.gone r.
Proof. reflexivity. Qed.

Lemma nominal_checked (n : nat) (row : Z) :
  Nominal.checked n row = true ->
  (forall k, (k < n)%nat -> Nominal.healthy (Nominal.run row k) = true)
  /\ Nominal.settled (Nominal.run row n) = true.
Proof. unfold Nominal.checked. apply along_then_spec. Qed.

Lemma nominal_row_checked (row : Z) :
  In row Nominal.rows ->
  (forall k, (k < Nominal.frames)%nat -> Nominal.healthy (Nominal.run row k) = true)
  /\ Nominal.settled (Nominal.run row Nominal.frames) = true.
Proof.
  intros Hrow.
  exact (nominal_checked Nominal.frames row
           (proj1 (forallb_forall _ _) nominal_rows_healthy row Hrow)).
Qed.

Lemma settled_spec (r : LightRay B32.t) :
  Nominal.settled r = true -> Nominal.healthy r = true /\ Nominal.gone r = true.
Proof. unfold Nominal.settled. apply andb_true_iff. Qed.

Lemma nominal_run_healthy (count : Z) (k : nat) :
  (0 <= count)%Z -> (k <= Nominal.frames)%nat ->
  Nominal.healthy (Nominal.run count k) = true.
Proof.
  intros Hc Hk. rewrite nominal_run_recolor, healthy_recolor.
  destruct (nominal_row_checked _ (spawn_row count Hc)) as [Hbefore Hend].
  destruct (Nat.eq_dec k Nominal.frames) as [Heq|Hne].
  - rewrite Heq. exact (proj1 (settled_spec _ Hend)).
  - apply Hbefore. lia.
Qed.

Lemma nominal_run_gone (count : Z) :
  (0 <= count)%Z -> Nominal.gone (Nominal.run count Nominal.frames) = true.
Proof.
  intros Hc. rewrite nominal_run_recolor, gone_recolor.
  destruct (nominal_row_checked _ (spawn_row count Hc)) as [_ Hend].
  exact (proj2 (settled_spec _ Hend)).
Qed.

Lemma healthy_spec (r : LightRay B32.t) :
  Nominal.healthy r = true ->
  B32.leb (Nominal.speed_error r) Nominal.tolerance = true
  /\ (absorbed r = true \/ Infall.divisions_sound r = true).
Proof.
  unfold Nominal.healthy. intros Hh. apply andb_true_iff in Hh as [Hspeed Hdiv].
  split; [exact Hspeed|]. apply orb_true_iff. exact Hdiv.
Qed.

Section GenericScreen.
Context {F : Type} `{FloatOps F}.

Lemma isOffScreen_tests (r : LightRay F) :
  isOffScreen r = true <->
  absorbed r = false
  /\ (fltb (of_int 1300) (vx (currentPosition r)) = true
      \/ fltb (vx (currentPosition r)) (of_int (-100)) = true
      \/ fltb (of_int 900) (vy (currentPosition r)) = true
      \/ fltb (vy (currentPosition r)) (of_int (-100)) = true).
Proof.
  unfold isOffScreen.
  change (WINDOW_WIDTH + 100)%Z with 1300%Z.
  change (WINDOW_HEIGHT + 100)%Z with 900%Z.
  rewrite andb_true_iff, negb_true_iff, !orb_true_iff. tauto.
Qed.
End GenericScreen.

Lemma isOffScreen_b32 (r : LightRay B32.t) :
  B32.is_nan (vx (currentPosition r)) = false ->
  B32.is_nan (vy (currentPosition r)) = false ->
  isOffScreen r = negb (absorbed r) && negb (inside_frame (currentPosition r)).
Proof.
  intros Hx Hy. unfold isOffScreen, inside_frame.
  change (WINDOW_WIDTH + 100)%Z with 1300%Z.
  change (WINDOW_HEIGHT + 100)%Z with 900%Z.
  cbn [fltb binary32_ops].
  rewrite !B32_ltb_not_leb by (assumption || reflexivity).
  destruct (B32.leb (of_int (-100)) (vx (currentPosition r))),
           (B32.leb (vx (currentPosition r)) (of_int 1300)),
           (B32.leb (of_int (-100)) (vy (currentPosition r))),
           (B32.leb (vy (currentPosition r)) (of_int 900)),
           (absorbed r); reflexivity.
Qed.

Section RealScreen.
Local Open Scope R_scope.

Lemma isOffScreen_real (r : LightRay R) :
  isOffScreen r = true <->
  absorbed r = false
  /\ ~ (-100 <= vx (currentPosition r) <= 1300
        /\ -100 <= vy (currentPosition r) <= 900).
Proof.
  rewrite isOffScreen_tests. ops_unfold. rewrite !Rltb_true.
  split; intros [Ha Hout]; (split; [exact Ha|]).
  - intros [[? ?] [? ?]]. lra.
  - destruct (Rlt_dec 1300 (vx (currentPosition r))); [now left|].
    destruct (Rlt_dec (vx (currentPosition r)) (-100)); [now right; left|].
    destruct (Rlt_dec 900 (vy (currentPosition r))); [now right; right; left|].
    destruct (Rlt_dec (vy (currentPosition r)) (-100)); [now right; right; right|].
    exfalso. apply Hout. lra.
Qed.

Lemma spawned_ray_on_screen_real (count : Z) :
  (0 <= count)%Z -> isOffScreen (spawnedRay (F := R) count) = false.
Proof.
  intros Hc. pose proof (spawn_index_range count Hc) as Hk.
  destruct (isOffScreen (spawnedRay count)) eqn:Hoff; [|reflexivity].
  apply isOffScreen_real in Hoff as [_ Hout]. exfalso. apply Hout.
  unfold spawnedRay, spawnHeight, LightRay_new. ops_unfold.
  assert (H1 : IZR (-100) <= IZR (50 + Z.rem count 15 * 50)) by (apply IZR_le; lia).
  assert (H2 : IZR (50 + Z.rem count 15 * 50) <= IZR 900) by (apply IZR_le; lia).
  lra.
Qed.
End RealScreen.

(** ** The impact parameter *)

Lemma window_centre_b32 :
  fdiv (of_int WINDOW_HEIGHT) (of_int 2)
  = vy (getPosition (blackHole (Simulation_new (F := B32.t)))).
Proof. vm_compute. reflexivity. Qed.

Lemma window_centre_real :
  fdiv (of_int WINDOW_HEIGHT) (of_int 2)
  = vy (getPosition (blackHole (Simulation_new (F := R)))).
Proof.
  unfold Simulation_new, BlackHole_new, getPosition. ops_unfold.
  change (IZR (Z.quot WINDOW_HEIGHT 2)) with 400%R.
  change (IZR WINDOW_HEIGHT) with 800%R. lra.
Qed.

(** ** Sixteen spawns *)

Lemma spawnHeight_period {F} `{FloatOps F} (count : Z) :
  (0 <= count)%Z -> spawnHeight (F := F) (count + 15) = spawnHeight count.
Proof.
  intros Hc. unfold spawnHeight. do 2 f_equal. f_equal.
  rewrite !Z.rem_mod_nonneg by lia.
  replace (count + 15)%Z with (count + 1 * 15)%Z by lia.
  apply Z.mod_add. lia.
Qed.

Lemma spawnColor_period (count : Z) :
  (0 <= count)%Z -> spawnColor (count + 7) = spawnColor count.
Proof.
  intros Hc. unfold spawnColor. do 2 f_equal.
  rewrite !Z.rem_mod_nonneg by lia.
  replace (count + 7)%Z with (count + 1 * 7)%Z by lia.
  apply Z.mod_add. lia.
Qed.

Lemma sixteenSpawns_rays {F} `{FloatOps F} :
  sixteenSpawns (F := F)
  = map spawnedRay [0; 1; 2; 3; 4; 5; 6; 7; 8; 9; 10; 11; 12; 13; 14; 15]%Z.
Proof. reflexivity. Qed.

(** ** The divisors of [update] *)

Lemma constructed_impact_nonneg_b32
  (startPos initialVel : Vector2f B32.t) c calls :
  B32.nonneg (impactParameter (update_all calls (LightRay_new startPos initialVel c)))
  = true.
Proof. rewrite update_all_impactParameter. apply abs_nonneg. Qed.

Lemma deflectionDenominator_not_zero_b32 (bh : BlackHole B32.t) (r : LightRay B32.t) :
  B32.nonneg (impactParameter r) = true ->
  B32.is_zero (deflectionDenominator bh r) = false.
Proof.
  intros Hb. unfold deflectionDenominator. cbn [fadd fmul of_int binary32_ops].
  apply add_one_not_zero, mul_nonneg; [apply magnitude_nonneg|exact Hb].
Qed.

Lemma deflectionDenominator_one_b32 (bh : BlackHole B32.t) (r : LightRay B32.t) :
  B32.is_zero (impactParameter r) = true ->
  B32.is_finite (distance bh r) = true ->
  deflectionDenominator bh r = of_int 1.
Proof.
  unfold deflectionDenominator. cbn [fadd fmul of_int binary32_ops].
  destruct (impactParameter r) as [sb| | |]; try discriminate. intros _.
  destruct (distance bh r) as [sd|sd| |sd md ed]; try discriminate; intros _;
    reflexivity.
Qed.

Lemma normalized_zero_b32 (v : Vector2f B32.t) :
  B32.is_zero (magnitude v) = true ->
  normalized v = mkVector2f (of_int 0) (of_int 0).
Proof.
  unfold normalized. cbn [fltb of_int binary32_ops].
  destruct (magnitude v) as [s| | |]; try discriminate. reflexivity.
Qed.

Lemma normalized_guard {F} `{FloatOps F} (v : Vector2f F) :
  fltb (of_int 0) (magnitude v) = false ->
  normalized v = mkVector2f (of_int 0) (of_int 0).
Proof. intros Hz. unfold normalized. now rewrite Hz. Qed.

(** ** Algebra of binary32: commutativity and symmetry *)

Section Binary32Algebra.
Local Open Scope Z_scope.

Lemma B32_add_comm (x y : B32.t) : B32.add x y = B32.add y x.
Proof.
  destruct x as [sx|sx| |sx mx ex], y as [sy|sy| |sy my ey];
    cbn -[binary_normalize shl_align Z.min]; try reflexivity;
    try (destruct sx, sy; reflexivity).
  rewrite (Z.min_comm ey ex). f_equal. apply Z.add_comm.
Qed.

Lemma round_aux_abs sx m e l :
  SFabs (binary_round_aux B32.prec B32.emax sx m e l)
  = SFabs (binary_round_aux B32.prec B32.emax false m e l).
Proof.
  unfold binary_round_aux.
  destruct (shr_fexp B32.prec B32.emax m e l) as [mrs' e'].
  destruct (shr_fexp B32.prec B32.emax _ e' loc_Exact) as [mrs'' e''].
  destruct (shr_m mrs''); try reflexivity.
  now destruct (e'' <=? B32.emax - B32.prec).
Qed.

Lemma normalize_opp_abs m e s :
  SFabs (binary_normalize B32.prec B32.emax (- m) e s)
  = SFabs (binary_normalize B32.prec B32.emax m e s).
Proof.
  destruct m as [|p|p]; cbn -[binary_round_aux shl_align]; try reflexivity;
    unfold binary_round; destruct (shl_align p e _) as [mz ez];
    now rewrite (round_aux_abs true).
Qed.

Lemma B32_sub_abs (x y : B32.t) : SFabs (B32.sub x y) = SFabs (B32.sub y x).
Proof.
  destruct x as [sx|sx| |sx mx ex], y as [sy|sy| |sy my ey];
    cbn -[binary_normalize shl_align Z.min]; try reflexivity;
    try (destruct sx, sy; reflexivity).
  rewrite (Z.min_comm ey ex).
  rewrite <- normalize_opp_abs. f_equal. f_equal. lia.
Qed.

Lemma B32_mul_self_abs (z : B32.t) : B32.mul z z = B32.mul (SFabs z) (SFabs z).
Proof.
  destruct z as [s|s| |s m e]; cbn -[binary_round_aux]; try reflexivity;
    now destruct s.
Qed.

Lemma B32_square_sub (x y : B32.t) :
  B32.mul (B32.sub x y) (B32.sub x y) = B32.mul (B32.sub y x) (B32.sub y x).
Proof.
  rewrite (B32_mul_self_abs (B32.sub x y)), (B32_mul_self_abs (B32.sub y x)).
  now rewrite B32_sub_abs.
Qed.

Lemma not_positive_nonpos (m : B32.t) :
  B32.ltb (B32.of_Z 0) m = false -> nonpos m = true.
Proof. destruct m as [s|[]| |[] mm em]; cbn; intros Hm; congruence. Qed.

Lemma literal_hundredth : (flit 1 100 : B32.t) = S754_finite false 10737418 (-30).
Proof. reflexivity. Qed.

Lemma radius_nonpos (m : B32.t) :
  nonpos m = true -> nonpos (B32.mul m (flit 1 100)) = true.
Proof.
  rewrite literal_hundredth.
  destruct m as [s|[]| |[] mm em]; cbn -[binary_round_aux]; intros Hm;
    try discriminate; try reflexivity.
  pose proof (binary_round_aux_sign B32.prec B32.emax true
                (Z.pos (mm * 10737418)) (em + -30) loc_Exact) as Hs.
  destruct (binary_round_aux B32.prec B32.emax true _ _ _); cbn; auto.
Qed.

Lemma nonneg_not_below_nonpos (d rad : B32.t) :
  B32.nonneg d = true -> nonpos rad = true -> B32.ltb d rad = false.
Proof.
  destruct d as [[]|[]| |[] md ed], rad as [sr|[]| |[] mr er]; cbn;
    intros Hd Hr; try discriminate; try reflexivity.
Qed.

Lemma B32_magnitude_not_negative (v : Vector2f B32.t) :
  B32.ltb (magnitude v) (B32.of_Z 0) = false.
Proof.
  apply nonneg_not_below_nonpos; [apply magnitude_nonneg|reflexivity].
Qed.

Lemma degenerate_never_captures (pos : Vector2f B32.t) (m : B32.t) (r : LightRay B32.t) :
  B32.ltb (B32.of_Z 0) m = false ->
  captured (BlackHole_new pos m) r = false.
Proof.
  intros Hm. unfold captured, distance, BlackHole_new, getSchwarzschildRadius.
  cbn [schwarzschildRadius fltb fmul binary32_ops].
  apply nonneg_not_below_nonpos; [apply magnitude_nonneg|].
  apply radius_nonpos, not_positive_nonpos, Hm.
Qed.

End Binary32Algebra.

(** ** The path, the events and one tick *)

Section Structure.
Context {F : Type} `{FloatOps F}.
Implicit Types (bh : BlackHole F) (r : LightRay F) (dt : F) (s : Simulation F).

(** *** The path follows the ray *)

Lemma back_push (p : list (Vector2f F)) q : back (push_back p q) = q.
Proof. unfold back, push_back. apply last_last. Qed.

Lemma update_path_follows bh dt r :
  path_follows r -> path_follows (LightRay_update bh dt r).
Proof.
  intros Hr. unfold LightRay_update.
  destruct (absorbed r); [exact Hr|].
  destruct (fltb (distance bh r) (getSchwarzschildRadius bh)); [exact Hr|].
  unfold path_follows. cbn [path currentPosition].
  match goal with |- context [if ?b then _ else _] => destruct b eqn:Htest end.
  - left. apply back_push.
  - right. apply orb_false_iff in Htest as [_ Hnear]. exact Hnear.
Qed.

Lemma update_all_path_follows calls : forall r,
  path_follows r -> path_follows (update_all calls r).
Proof.
  induction calls as [|[bh dt] calls IH]; intros r Hr; cbn; [exact Hr|].
  apply IH, update_path_follows, Hr.
Qed.

(** *** Absorbed rays stay inside the radius *)

Lemma update_swallowed bh dt r :
  swallowed bh r -> swallowed bh (LightRay_update bh dt r).
Proof.
  intros Hr. unfold LightRay_update.
  destruct (absorbed r) eqn:Ha; [exact Hr|].
  destruct (fltb (distance bh r) (getSchwarzschildRadius bh)) eqn:Hc.
  - intros _. exact Hc.
  - intros Hafter. discriminate Hafter.
Qed.

(** *** Events *)

Lemma handleEvent_windowOpen s e :
  windowOpen (handleEvent s e) = windowOpen s && negb (closes e).
Proof. destruct e as [|[]|]; cbn; now rewrite ?andb_true_r, ?andb_false_r. Qed.

Lemma handleEvent_fixed s e :
  blackHole (handleEvent s e) = blackHole s
  /\ raySpawnTimer (handleEvent s e) = raySpawnTimer s.
Proof. destruct e as [|[]|]; now cbn. Qed.

Lemma handleEvent_rays s e :
  (resets e = true /\ lightRays (handleEvent s e) = [] /\ rayCount (handleEvent s e) = 0%Z)
  \/ (resets e = false /\ lightRays (handleEvent s e) = lightRays s
      /\ rayCount (handleEvent s e) = rayCount s).
Proof. destruct e as [|[]|]; cbn; auto. Qed.

Lemma handleEvents_windowOpen events : forall s,
  windowOpen (handleEvents events s)
  = windowOpen s && negb (existsb closes events).
Proof.
  unfold handleEvents.
  induction events as [|e events IH]; intros s; cbn.
  - now rewrite andb_true_r.
  - rewrite IH, handleEvent_windowOpen, negb_orb. now rewrite andb_assoc.
Qed.

Lemma handleEvents_fixed events : forall s,
  blackHole (handleEvents events s) = blackHole s
  /\ raySpawnTimer (handleEvents events s) = raySpawnTimer s.
Proof.
  unfold handleEvents.
  induction events as [|e events IH]; intros s; cbn; [now split|].
  destruct (IH (handleEvent s e)) as [-> ->]. apply handleEvent_fixed.
Qed.

Lemma handleEvents_rays events : forall s,
  (existsb resets events = true
   /\ lightRays (handleEvents events s) = []
   /\ rayCount (handleEvents events s) = 0%Z)
  \/ (existsb resets events = false
      /\ lightRays (handleEvents events s) = lightRays s
      /\ rayCount (handleEvents events s) = rayCount s).
Proof.
  unfold handleEvents.
  induction events as [|e events IH]; intros s; cbn; [right; auto|].
  destruct (IH (handleEvent s e)) as [(Hex & Hr & Hc)|(Hex & Hr & Hc)];
    rewrite Hex, ?orb_true_r, ?orb_false_r.
  - left. auto.
  - rewrite Hr, Hc. destruct (handleEvent_rays s e) as [(He & ? & ?)|(He & ? & ?)];
      rewrite He; [left|right]; auto.
Qed.

(** *** One tick *)

Lemma update_windowOpen dt s : windowOpen (update dt s) = windowOpen s.
Proof. unfold update, spawnStep. now destruct (fltb _ _). Qed.

Lemma update_blackHole dt s : blackHole (update dt s) = blackHole s.
Proof. unfold update, spawnStep. now destruct (fltb _ _). Qed.

Lemma spawnStep_blackHole dt s : blackHole (spawnStep dt s) = blackHole s.
Proof. unfold spawnStep. now destruct (fltb _ _). Qed.

Lemma update_rays dt s :
  lightRays (update dt s)
  = removeOffScreen
      (map (LightRay_update (blackHole s) dt) (lightRays (spawnStep dt s))).
Proof. unfold update. cbn [lightRays]. now rewrite spawnStep_blackHole. Qed.

Lemma update_on_screen dt s r :
  In r (lightRays (update dt s)) -> isOffScreen r = false.
Proof.
  rewrite update_rays. unfold removeOffScreen. intros Hin.
  apply filter_In in Hin as [_ Hon]. now apply negb_true_iff in Hon.
Qed.

Lemma spawnStep_rays dt s :
  lightRays (spawnStep dt s) = lightRays s
  \/ lightRays (spawnStep dt s) = lightRays s ++ [spawnedRay (rayCount s)].
Proof. unfold spawnStep. destruct (fltb _ _); cbn; auto. Qed.

Lemma update_origin dt s r :
  In r (lightRays (update dt s)) ->
  exists r0,
    r = LightRay_update (blackHole s) dt r0
    /\ (In r0 (lightRays s) \/ r0 = spawnedRay (rayCount s)).
Proof.
  rewrite update_rays. unfold removeOffScreen. intros Hin.
  apply filter_In in Hin as [Hin _]. apply in_map_iff in Hin as (r0 & <- & Hin0).
  exists r0. split; [reflexivity|].
  destruct (spawnStep_rays dt s) as [Heq|Heq]; rewrite Heq in Hin0; [now left|].
  apply in_app_or in Hin0 as [Hin0|[<-|[]]]; auto.
Qed.

Lemma update_length dt s :
  (length (lightRays (update dt s)) <= length (lightRays (spawnStep dt s)))%nat.
Proof.
  rewrite update_rays. unfold removeOffScreen.
  etransitivity; [apply filter_length_le|]. now rewrite length_map.
Qed.
End Structure.

(** ** What [run] keeps true *)

Section Soundness.
Context {F : Type} `{FloatOps F}.
Implicit Types (bh : BlackHole F) (r : LightRay F) (dt : F) (s : Simulation F).

Lemma update_all_app (calls1 calls2 : list (BlackHole F * F)) r :
  update_all (calls1 ++ calls2) r = update_all calls2 (update_all calls1 r).
Proof. unfold update_all. apply fold_left_app. Qed.

Lemma sound_new : sound 0 (Simulation_new (F := F)).
Proof. split; cbn; try constructor; try lia; reflexivity. Qed.

Lemma sound_weaken n m s : (n <= m)%Z -> sound n s -> sound m s.
Proof. intros Hnm [? ? ? ? ?]. split; try assumption. lia. Qed.

Lemma handleEvents_sound n events s :
  sound n s -> sound n (handleEvents events s).
Proof.
  intros [Hh Hc Hs Hscr Hd].
  destruct (handleEvents_fixed events s) as [Hhole _].
  destruct (handleEvents_rays events s) as [(_ & Hr & Hcount)|(_ & Hr & Hcount)].
  - split; rewrite ?Hr, ?Hcount, ?Hhole; cbn; try constructor; try lia; assumption.
  - split; rewrite ?Hr, ?Hcount, ?Hhole; try assumption.
    eapply Forall_impl; [|exact Hd].
    intros r (count & calls & Hrange & Hcalls & Heq).
    exists count, calls. rewrite Hcount, Hhole. auto.
Qed.

Lemma spawnStep_count dt s :
  (lightRays (spawnStep dt s) = lightRays s
   /\ rayCount (spawnStep dt s) = rayCount s)
  \/ (lightRays (spawnStep dt s) = lightRays s ++ [spawnedRay (rayCount s)]
      /\ rayCount (spawnStep dt s) = int_wrap (rayCount s + 1)).
Proof. unfold spawnStep. destruct (fltb _ _); cbn; auto. Qed.

Lemma update_rayCount dt s : rayCount (update dt s) = rayCount (spawnStep dt s).
Proof. reflexivity. Qed.

Lemma update_sound n dt s :
  (n < INT_MAX)%Z -> sound n s -> sound (n + 1) (update dt s).
Proof.
  intros Hn [Hh Hc Hs Hscr Hd].
  assert (Hwrap : int_wrap (rayCount s + 1) = (rayCount s + 1)%Z).
  { apply int_wrap_small. unfold INT_MAX in *. lia. }
  pose proof (update_length dt s) as Hlen.
  split.
  - now rewrite update_blackHole.
  - rewrite update_rayCount.
    destruct (spawnStep_count dt s) as [[_ ->]|[_ ->]]; rewrite ?Hwrap; lia.
  - rewrite update_rayCount.
    destruct (spawnStep_count dt s) as [[Hr ->]|[Hr ->]]; rewrite Hr in Hlen.
    + lia.
    + rewrite length_app in Hlen. cbn [length] in Hlen. rewrite Hwrap. lia.
  - apply Forall_forall. intros r Hin. now apply (update_on_screen dt s).
  - apply Forall_forall. intros r Hin.
    rewrite update_rays in Hin. unfold removeOffScreen in Hin.
    apply filter_In in Hin as [Hin _].
    apply in_map_iff in Hin as (r0 & <- & Hin0).
    unfold descends. rewrite update_blackHole, update_rayCount.
    destruct (spawnStep_count dt s) as [[Hr ->]|[Hr ->]]; rewrite Hr in Hin0.
    + rewrite Forall_forall in Hd.
      destruct (Hd r0 Hin0) as (count & calls & Hrange & Hcalls & ->).
      exists count, (calls ++ [(blackHole s, dt)]). split; [lia|]. split.
      * apply Forall_app. split; [exact Hcalls|]. now constructor.
      * now rewrite update_all_app.
    + rewrite Hwrap. apply in_app_or in Hin0 as [Hin0|[<-|[]]].
      * rewrite Forall_forall in Hd.
        destruct (Hd r0 Hin0) as (count & calls & Hrange & Hcalls & ->).
        exists count, (calls ++ [(blackHole s, dt)]). split; [lia|]. split.
        -- apply Forall_app. split; [exact Hcalls|]. now constructor.
        -- now rewrite update_all_app.
      * exists (rayCount s), [(blackHole s, dt)]. split; [lia|]. split.
        -- now constructor.
        -- reflexivity.
Qed.

(** *** What descent gives a ray *)

Lemma update_all_swallowed bh calls : forall r,
  Forall (fun call => fst call = bh) calls ->
  swallowed bh r -> swallowed bh (update_all calls r).
Proof.
  induction calls as [|[b dt] calls IH]; intros r Hcalls Hr; cbn; [exact Hr|].
  apply Forall_cons_iff in Hcalls as [Hb Hrest]. cbn in Hb. subst b.
  apply (IH _ Hrest), update_swallowed, Hr.
Qed.

Lemma descends_ray s r :
  descends s r ->
  path_follows r
  /\ swallowed (blackHole s) r
  /\ spaced (path r) = true
  /\ (exists start rest, path r = start :: rest /\ vx start = of_int (-50)).
Proof.
  intros (count & calls & Hrange & Hcalls & ->). repeat split.
  - apply update_all_path_follows. now left.
  - apply update_all_swallowed; [exact Hcalls|]. intros Ha. discriminate Ha.
  - now apply update_all_spaced.
  - destruct (update_all_path calls (spawnedRay count)) as [added Hadd].
    eexists; eexists. split; [exact Hadd|]. reflexivity.
Qed.
End Soundness.

Section Running.
Context {F : Type} `{FloatOps F} `{FloatLe F}.

Lemma frame_state input (w : Window F) :
  sim (fst (frame input w)) = update (snd input) (handleEvents (fst input) (sim w)).
Proof. reflexivity. Qed.

Lemma run_sound inputs : forall (w : Window F) n,
  (n + Z.of_nat (length inputs) <= INT_MAX)%Z ->
  sound n (sim w) ->
  sound (n + Z.of_nat (length inputs)) (sim (fst (run inputs w))).
Proof.
  induction inputs as [|input rest IH]; intros w n Hn Hw; cbn [run].
  - cbn. now rewrite Z.add_0_r.
  - cbn [length] in Hn. rewrite Nat2Z.inj_succ in *.
    destruct (windowOpen (sim w)).
    + destruct (frame input w) as [w' drawn] eqn:Hframe.
      assert (Hw' : sound (n + 1) (sim w')).
      { change w' with (fst (w', drawn)). rewrite <- Hframe, frame_state.
        apply update_sound; [lia|]. now apply handleEvents_sound. }
      specialize (IH w' (n + 1)%Z ltac:(lia) Hw').
      destruct (run rest w') as [w'' frames]. cbn [fst] in *.
      cbn [length]. rewrite Nat2Z.inj_succ.
      replace (n + Z.succ (Z.of_nat (length rest)))%Z
        with (n + 1 + Z.of_nat (length rest))%Z by lia.
      exact IH.
    + cbn [fst]. eapply sound_weaken; [|exact Hw]. cbn [length]. lia.
Qed.
End Running.

(** ** Closing, drawing and the grid *)

Section Closing.
Context {F : Type} `{FloatOps F} `{FloatLe F}.
Implicit Types (w : Window F) (inputs : list (list Event * F)).

Lemma run_closed inputs w :
  windowOpen (sim w) = false -> run inputs w = (w, []).
Proof. intros Hw. destruct inputs; cbn; [reflexivity|]. now rewrite Hw. Qed.

Lemma run_cons input inputs w :
  windowOpen (sim w) = true ->
  run (input :: inputs) w
  = (fst (run inputs (fst (frame input w))),
     snd (frame input w) :: snd (run inputs (fst (frame input w)))).
Proof.
  intros Hw. cbn [run]. rewrite Hw.
  destruct (frame input w) as [w' drawn]. cbn [fst snd].
  now destruct (run inputs w').
Qed.

Lemma frame_windowOpen input w :
  windowOpen (sim (fst (frame input w)))
  = windowOpen (sim w) && negb (closing input).
Proof.
  rewrite frame_state, update_windowOpen. apply handleEvents_windowOpen.
Qed.

Lemma run_open inputs : forall w,
  windowOpen (sim w) = true ->
  existsb closing inputs = false ->
  windowOpen (sim (fst (run inputs w))) = true
  /\ length (snd (run inputs w)) = length inputs.
Proof.
  induction inputs as [|input rest IH]; intros w Hw Hq; [now split|].
  cbn [existsb] in Hq. apply orb_false_iff in Hq as [Hi Hrest].
  rewrite (run_cons _ _ _ Hw). cbn [fst snd length].
  destruct (IH (fst (frame input w))) as [Ho Hl].
  - rewrite frame_windowOpen, Hw, Hi. reflexivity.
  - exact Hrest.
  - split; [exact Ho|]. now rewrite Hl.
Qed.

Lemma run_app before : forall w after,
  windowOpen (sim w) = true ->
  existsb closing before = false ->
  run (before ++ after) w
  = (fst (run after (fst (run before w))),
     snd (run before w) ++ snd (run after (fst (run before w)))).
Proof.
  induction before as [|input rest IH]; intros w after Hw Hq.
  - cbn. now destruct (run after w).
  - cbn [existsb] in Hq. apply orb_false_iff in Hq as [Hi Hrest].
    cbn [app]. rewrite !(run_cons _ _ _ Hw). cbn [fst snd].
    rewrite IH.
    + reflexivity.
    + rewrite frame_windowOpen, Hw, Hi. reflexivity.
    + exact Hrest.
Qed.

Lemma run_closing input after w :
  windowOpen (sim w) = true ->
  closing input = true ->
  run (input :: after) w = (fst (frame input w), [snd (frame input w)]).
Proof.
  intros Hw Hc. rewrite (run_cons _ _ _ Hw), run_closed; [reflexivity|].
  rewrite frame_windowOpen, Hw, Hc. reflexivity.
Qed.

Lemma run_length inputs : forall w,
  (length (snd (run inputs w)) <= length inputs)%nat.
Proof.
  induction inputs as [|input rest IH]; intros w; [cbn; lia|].
  destruct (windowOpen (sim w)) eqn:Hw.
  - rewrite (run_cons _ _ _ Hw). cbn [snd length]. specialize (IH (fst (frame input w))). lia.
  - rewrite (run_closed _ _ Hw). cbn. lia.
Qed.
End Closing.

Section Draw.
Context {F : Type} `{FloatOps F} `{FloatLe F}.
Implicit Types (r : LightRay F) (p : list (Vector2f F)).

Lemma segments_indexed c d p :
  map (fun i => Line (nth (i - 1) p d) (nth i p d) c) (seq 1 (length p - 1))
  = segments c p.
Proof.
  induction p as [|a [|b rest] IH]; [reflexivity|reflexivity|].
  replace (length (b :: rest) - 1)%nat with (length rest) in IH by (cbn [length]; lia).
  replace (length (a :: b :: rest) - 1)%nat with (S (length rest)) by (cbn [length]; lia).
  cbn [seq map]. change (segments c (a :: b :: rest))
    with (Line a b c :: segments c (b :: rest)).
  f_equal. rewrite <- IH, <- seq_shift, map_map.
  apply map_ext_in. intros i Hi. apply in_seq in Hi.
  destruct i as [|i]; [lia|]. cbn [Nat.sub nth]. now rewrite Nat.sub_0_r.
Qed.

Lemma segments_length c p : length (segments (F := F) c p) = (length p - 1)%nat.
Proof.
  induction p as [|a [|b rest] IH]; [reflexivity|reflexivity|].
  cbn [segments length] in *. lia.
Qed.

Lemma segments_spaced c p :
  spaced p = true -> Forall (long_line c) (segments c p).
Proof.
  induction p as [|a [|b rest] IH]; intros Hs; [constructor|constructor|].
  cbn [spaced] in Hs. apply andb_true_iff in Hs as [Hab Hrest].
  cbn [segments]. constructor; [now split|]. apply IH, Hrest.
Qed.

Lemma LightRay_draw_segments r :
  LightRay_draw r
  = segments (color r) (path r)
    ++ (if (2 <=? length (path r))%nat && marker_shown r
        then [Circle (photon r)] else []).
Proof.
  unfold LightRay_draw, path_at.
  destruct (Nat.ltb_spec (length (path r)) 2) as [Hlt|Hge].
  - replace (2 <=? length (path r))%nat with false
      by (symmetry; apply Nat.leb_gt; exact Hlt).
    cbn [andb]. rewrite app_nil_r.
    destruct (path r) as [|a [|b rest]]; [reflexivity|reflexivity|cbn in Hlt; lia].
  - replace (2 <=? length (path r))%nat with true
      by (symmetry; apply Nat.leb_le; exact Hge).
    cbn [andb]. now rewrite segments_indexed.
Qed.

Lemma LightRay_draw_absorbed r :
  absorbed r = true -> LightRay_draw r = segments (color r) (path r).
Proof.
  intros Ha. rewrite LightRay_draw_segments. unfold marker_shown. rewrite Ha.
  cbn [negb andb]. rewrite andb_false_r. apply app_nil_r.
Qed.

Lemma LightRay_draw_length r :
  (length (LightRay_draw r) <= length (path r))%nat.
Proof.
  rewrite LightRay_draw_segments, length_app, segments_length.
  destruct (Nat.leb_spec 2 (length (path r))) as [Hge|Hlt]; cbn [andb].
  - destruct (marker_shown r); cbn [length]; lia.
  - cbn [length]. lia.
Qed.

(** *** The loops of [drawGrid] *)

Lemma rounds_done x bound step :
  (0 < step)%Z -> (bound <= x)%Z -> rounds x bound step = 0%nat.
Proof.
  intros Hs Hx. unfold rounds.
  assert ((bound - x + step - 1) / step <= 0)%Z; [|lia].
  destruct (Z.eq_dec (bound - x + step - 1) (-1)) as [->|Hne].
  - assert (-1 / step < 0)%Z by (apply Z.div_lt_upper_bound; lia). lia.
  - destruct (Z.le_gt_cases 0 (bound - x + step - 1)).
    + rewrite Z.div_small by lia. lia.
    + assert ((bound - x + step - 1) / step < 0)%Z
        by (apply Z.div_lt_upper_bound; lia). lia.
Qed.

Lemma rounds_next x bound step :
  (0 < step)%Z -> (x < bound)%Z ->
  rounds x bound step = S (rounds (x + step) bound step).
Proof.
  intros Hs Hx. unfold rounds.
  replace (bound - x + step - 1)%Z with ((bound - (x + step) + step - 1) + 1 * step)%Z by lia.
  rewrite Z.div_add by lia.
  rewrite Z2Nat.inj_add; [rewrite Nat.add_comm; reflexivity| |lia].
  apply Z.div_pos; lia.
Qed.

Lemma for_up_spec {A : Type} (body : Z -> A) step bound :
  (0 < step)%Z ->
  forall fuel x,
    (rounds x bound step <= fuel)%nat ->
    for_up fuel x bound step body
    = map (fun k => body (x + Z.of_nat k * step)%Z) (seq 0 (rounds x bound step)).
Proof.
  intros Hs. induction fuel as [|fuel IH]; intros x Hf.
  - assert (rounds x bound step = 0)%nat as -> by lia. reflexivity.
  - cbn [for_up]. destruct (Z.ltb_spec x bound) as [Hlt|Hge].
    + rewrite (rounds_next _ _ _ Hs Hlt) in *. cbn [seq map].
      rewrite Z.mul_0_l, Z.add_0_r. f_equal.
      rewrite IH by lia. rewrite <- seq_shift, map_map.
      apply map_ext. intros k. f_equal. lia.
    + now rewrite (rounds_done _ _ _ Hs Hge).
Qed.

Lemma drawGrid_lines :
  drawGrid (F := F)
  = map grid_vertical (fifties 24) ++ map grid_horizontal (fifties 16).
Proof.
  unfold drawGrid.
  rewrite !for_up_spec by (try reflexivity; lia).
  unfold fifties. rewrite !map_map.
  f_equal; apply map_ext; intros k; f_equal; lia.
Qed.

Lemma fifties_spec n z :
  In z (fifties n) <-> (0 <= z < 50 * Z.of_nat n)%Z /\ (z mod 50 = 0)%Z.
Proof.
  unfold fifties. rewrite in_map_iff. split.
  - intros (k & <- & Hk). apply in_seq in Hk. split; [lia|].
    rewrite Z.mul_comm. apply Z.mod_mul. lia.
  - intros [Hr Hm]. exists (Z.to_nat (z / 50)).
    assert (Hz : z = (50 * (z / 50))%Z).
    { rewrite (Z.div_mod z 50) at 1 by lia. lia. }
    assert (0 <= z / 50)%Z by (apply Z.div_pos; lia).
    split; [rewrite Z2Nat.id by lia; lia|].
    apply in_seq. split; [lia|]. cbn. apply Nat2Z.inj_lt. rewrite Z2Nat.id by lia. lia.
Qed.

(** *** [render] and one round of [run] *)

Lemma frame_drawn input w :
  snd (frame input w)
  = [Clear sfColor_Black]
    ++ drawGrid
    ++ BlackHole_draw (blackHole (sim w))
    ++ flat_map LightRay_draw (lightRays (sim (fst (frame input w))))
    ++ (if fontLoaded w then [Text (infoOf (sim (fst (frame input w))))] else [])
    ++ [Display].
Proof.
  unfold frame. cbn [fst snd]. unfold render, Window_update, Window_handleEvents.
  cbn [sim fontLoaded infoString].
  rewrite update_blackHole. destruct (handleEvents_fixed (fst input) (sim w)) as [-> _].
  now destruct (fontLoaded w).
Qed.

Lemma frame_fontLoaded input w : fontLoaded (fst (frame input w)) = fontLoaded w.
Proof. reflexivity. Qed.

Lemma run_fontLoaded inputs : forall w, fontLoaded (fst (run inputs w)) = fontLoaded w.
Proof.
  induction inputs as [|input rest IH]; intros w; [reflexivity|].
  destruct (windowOpen (sim w)) eqn:Hw.
  - rewrite (run_cons _ _ _ Hw). cbn [fst]. now rewrite IH.
  - now rewrite (run_closed _ _ Hw).
Qed.
End Draw.

(** ** The spawn timer *)

Section Timer.
Context {F : Type} `{FloatOps F}.
Implicit Types (s : Simulation F) (dt : F).

Lemma update_timer dt s :
  (spawns dt s = true /\ raySpawnTimer (update dt s) = of_int 0
   /\ rayCount (update dt s) = int_wrap (rayCount s + 1))
  \/ (spawns dt s = false
      /\ raySpawnTimer (update dt s) = fadd (raySpawnTimer s) dt
      /\ rayCount (update dt s) = rayCount s).
Proof.
  unfold spawns, update, spawnStep.
  destruct (fltb _ _); cbn; auto.
Qed.

Lemma handleEvents_timer events s :
  raySpawnTimer (handleEvents events s) = raySpawnTimer s.
Proof. now destruct (handleEvents_fixed events s) as [_ ->]. Qed.

End Timer.

Section Binary32Timer.
Local Open Scope Z_scope.

Lemma shr_fexp_nonneg m e l :
  0 <= m -> 0 <= shr_m (fst (shr_fexp B32.prec B32.emax m e l)).
Proof.
  intros Hm. unfold shr_fexp, shr.
  destruct (fexp _ _ _ - e) as [|p|p]; cbn [fst];
    try (now destruct l as [|[]]).
  rewrite (iter_shr_1_m p) by (now destruct l as [|[]]).
  apply Z.div_pos; [now destruct l as [|[]]|]. apply Z.pow_pos_nonneg; lia.
Qed.

Lemma round_aux_not_nan sx (m : positive) e l :
  B32.is_nan (binary_round_aux B32.prec B32.emax sx (Zpos m) e l) = false.
Proof.
  unfold binary_round_aux.
  pose proof (shr_fexp_nonneg (Zpos m) e l ltac:(lia)) as H1.
  destruct (shr_fexp B32.prec B32.emax (Zpos m) e l) as [mrs' e']. cbn [fst] in H1.
  pose proof (round_nearest_even_ge (shr_m mrs') (loc_of_shr_record mrs')) as Hge.
  pose proof (shr_fexp_nonneg
                (round_nearest_even (shr_m mrs') (loc_of_shr_record mrs'))
                e' loc_Exact ltac:(lia)) as H2.
  destruct (shr_fexp B32.prec B32.emax _ e' loc_Exact) as [mrs'' e'']. cbn [fst] in H2.
  destruct (shr_m mrs''); [reflexivity| |lia].
  now destruct (e'' <=? B32.emax - B32.prec).
Qed.

Lemma round_not_nan sx m e :
  B32.is_nan (binary_round B32.prec B32.emax sx m e) = false.
Proof.
  unfold binary_round. destruct (shl_align m e _). apply round_aux_not_nan.
Qed.

Lemma add_not_below_zero x y :
  B32.leb (B32.of_Z 0) x = true -> B32.leb (B32.of_Z 0) y = true ->
  B32.leb (B32.of_Z 0) (B32.add x y) = true.
Proof.
  destruct x as [sx|[]| |[] mx ex], y as [sy|[]| |[] my ey];
    cbn -[binary_normalize shl_align]; intros Hx Hy;
    try discriminate; try reflexivity.
  - now destruct sx, sy.
  - cbn -[binary_round shl_align].
    destruct (shl_align mx ex (Z.min ex ey)) as [mx' ex'].
    destruct (shl_align my ey (Z.min ex ey)) as [my' ey'].
    cbn -[binary_round].
    pose proof (round_not_nan false (mx' + my')%positive (Z.min ex ey)) as Hn.
    pose proof (round_nonneg (mx' + my')%positive (Z.min ex ey)) as Hs.
    destruct (binary_round B32.prec B32.emax false _ _) as [[]|[]| |[] mz ez];
      cbn in *; congruence.
Qed.

Lemma not_below_zero_not_nan x :
  B32.leb (B32.of_Z 0) x = true -> B32.is_nan x = false.
Proof. destruct x; cbn; congruence. Qed.

Lemma timer_binary32 (dt : B32.t) (s : Simulation B32.t) :
  B32.leb (B32.of_Z 0) (raySpawnTimer s) = true ->
  B32.leb (B32.of_Z 0) dt = true ->
  timer_sound (raySpawnTimer (update dt s)) = true.
Proof.
  intros Ht Hdt. unfold timer_sound.
  destruct (update_timer dt s) as [(_ & -> & _)|(Hs & -> & _)].
  - reflexivity.
  - unfold spawns in Hs. ops_unfold.
    pose proof (add_not_below_zero _ _ Ht Hdt) as Hsum.
    rewrite Hsum. cbn [andb].
    rewrite B32_ltb_not_leb in Hs.
    + now apply negb_false_iff in Hs.
    + reflexivity.
    + now apply not_below_zero_not_nan.
Qed.

Lemma timer_sound_not_below_zero t :
  timer_sound t = true -> B32.leb (B32.of_Z 0) t = true.
Proof. unfold timer_sound. intros Ht. now apply andb_true_iff in Ht as [-> _]. Qed.

Lemma run_timer inputs : forall (w : Window B32.t),
  Forall (fun input => B32.leb (B32.of_Z 0) (snd input) = true) inputs ->
  timer_sound (raySpawnTimer (sim w)) = true ->
  timer_sound (raySpawnTimer (sim (fst (run inputs w)))) = true.
Proof.
  induction inputs as [|input rest IH]; intros w Hin Hw; [exact Hw|].
  apply Forall_cons_iff in Hin as [Hdt Hrest].
  destruct (windowOpen (sim w)) eqn:Ho.
  - rewrite (run_cons _ _ _ Ho). cbn [fst]. apply (IH _ Hrest).
    rewrite frame_state. apply timer_binary32; [|exact Hdt].
    rewrite handleEvents_timer. now apply timer_sound_not_below_zero.
  - now rewrite (run_closed _ _ Ho).
Qed.
End Binary32Timer.

(** ** Vectors and degenerate sources *)

Lemma B32_separation (a b : Vector2f B32.t) :
  magnitude (vsub a b) = magnitude (vsub b a).
Proof.
  unfold magnitude, vsub. cbn [vx vy fsqrt fadd fmul fsub binary32_ops].
  now rewrite (B32_square_sub (vx a)), (B32_square_sub (vy a)).
Qed.

Lemma degenerate_update_all (pos : Vector2f B32.t) (m : B32.t) dts :
  B32.ltb (B32.of_Z 0) m = false ->
  forall r, absorbed r = false ->
  absorbed (update_all (map (pair (BlackHole_new pos m)) dts) r) = false.
Proof.
  intros Hm. induction dts as [|dt rest IH]; intros r Ha; [exact Ha|].
  cbn [map update_all fold_left fst snd].
  apply IH.
  now destruct (update_free (BlackHole_new pos m) dt r Ha
                  (degenerate_never_captures pos m r Hm)) as [-> _].
Qed.

(** ** Binary32 floats as real numbers: rounding, comparison, ranges *)

Section Powers.
Local Open Scope R_scope.

Lemma bpow_pos e : 0 < bpow e.
Proof. apply powerRZ_lt. lra. Qed.

Lemma bpow_add a b : bpow (a + b) = bpow a * bpow b.
Proof. apply powerRZ_add. lra. Qed.

Lemma bpow_0 : bpow 0 = 1.
Proof. reflexivity. Qed.

Lemma bpow_IZR e : (0 <= e)%Z -> bpow e = IZR (2 ^ e).
Proof.
  intros He. unfold bpow.
  rewrite <- (Z2Nat.id e He) at 2. rewrite <- pow_IZR.
  destruct e as [|p|p]; [reflexivity| |lia].
  cbn [powerRZ]. now rewrite Z2Nat.inj_pos.
Qed.

Lemma bpow_opp e : bpow (- e) = / bpow e.
Proof. apply powerRZ_neg'. Qed.

Lemma bpow_ge_1 e : (0 <= e)%Z -> 1 <= bpow e.
Proof.
  intros He. rewrite bpow_IZR by exact He. apply IZR_le.
  assert (0 < 2 ^ e)%Z by (apply Z.pow_pos_nonneg; lia). lia.
Qed.

Lemma bpow_le a b : (a <= b)%Z -> bpow a <= bpow b.
Proof.
  intros Hab. replace b with (a + (b - a))%Z by lia. rewrite bpow_add.
  pose proof (bpow_pos a). pose proof (bpow_ge_1 (b - a) ltac:(lia)). nra.
Qed.

Lemma bpow_lt a b : (a < b)%Z -> bpow a < bpow b.
Proof.
  intros Hab. replace b with (a + 1 + (b - a - 1))%Z by lia. rewrite !bpow_add.
  pose proof (bpow_pos a). pose proof (bpow_ge_1 (b - a - 1) ltac:(lia)).
  assert (H1 : bpow 1 = 2) by (unfold bpow; simpl; lra). rewrite H1. nra.
Qed.

Lemma bpow_sub a b : bpow (a - b) = bpow a / bpow b.
Proof.
  replace (a - b)%Z with (a + - b)%Z by lia. rewrite bpow_add, bpow_opp.
  reflexivity.
Qed.
Lemma Rabs_le_inv a b : Rabs a <= b -> - b <= a <= b.
Proof. unfold Rabs. destruct (Rcase_abs a); lra. Qed.
End Powers.

Section Digits.
Local Open Scope Z_scope.

Lemma Zdigits2_bounds m :
  0 < m -> 2 ^ (Zdigits2 m - 1) <= m < 2 ^ Zdigits2 m.
Proof.
  destruct m as [|p|p]; try lia. intros _. cbn [Zdigits2].
  rewrite digits2_pos_log2.
  replace (Z.succ (Z.log2 (Zpos p)) - 1) with (Z.log2 (Zpos p)) by lia.
  apply Z.log2_spec. lia.
Qed.

Lemma Zdigits2_unique m k :
  0 < k -> 2 ^ (k - 1) <= m < 2 ^ k -> Zdigits2 m = k.
Proof.
  intros Hk Hm.
  assert (0 < m).
  { assert (0 < 2 ^ (k - 1)) by (apply Z.pow_pos_nonneg; lia). lia. }
  destruct m as [|p|p]; try lia. cbn [Zdigits2]. rewrite digits2_pos_log2.
  rewrite (Z.log2_unique (Zpos p) (k - 1)); [lia|lia|].
  now replace (Z.succ (k - 1)) with k by lia.
Qed.

Lemma Zdigits2_nonneg m : 0 <= m -> 0 <= Zdigits2 m.
Proof. destruct m; cbn; lia. Qed.

Lemma Zdigits2_pos m : 0 < m -> 0 < Zdigits2 m.
Proof. destruct m; cbn; lia. Qed.

Lemma Zdigits2_le_pow m k : 0 <= k -> 0 <= m < 2 ^ k -> Zdigits2 m <= k.
Proof.
  intros Hk [H0 Hm]. destruct (Z.eq_dec m 0) as [->|Hne]; [cbn; lia|].
  pose proof (Zdigits2_bounds m ltac:(lia)) as [Hlo _].
  destruct (Z_le_gt_dec (Zdigits2 m) k) as [Hle|Hgt]; [exact Hle|exfalso].
  assert (2 ^ k <= 2 ^ (Zdigits2 m - 1)) by (apply Z.pow_le_mono_r; lia). lia.
Qed.

Lemma Zdigits2_ge_pow m k : 0 <= k -> 2 ^ k <= m -> k + 1 <= Zdigits2 m.
Proof.
  intros Hk Hm.
  assert (0 < 2 ^ k) by (apply Z.pow_pos_nonneg; lia).
  pose proof (Zdigits2_bounds m ltac:(lia)) as [_ Hhi].
  pose proof (Zdigits2_pos m ltac:(lia)).
  destruct (Z_le_gt_dec (k + 1) (Zdigits2 m)) as [Hle|Hgt]; [exact Hle|exfalso].
  assert (2 ^ Zdigits2 m <= 2 ^ k) by (apply Z.pow_le_mono_r; lia). lia.
Qed.

Lemma fexp32_eq t : fexp32 t = Z.max (t - 24) (-149).
Proof. reflexivity. Qed.

Lemma fexp32_mono a b : a <= b -> fexp32 a <= fexp32 b.
Proof. rewrite !fexp32_eq. lia. Qed.
End Digits.

Section RoundShape.
Local Open Scope Z_scope.

Lemma shr_record_of_loc_m m l : shr_m (shr_record_of_loc m l) = m.
Proof. now destruct l as [|[]]. Qed.

Lemma round_nearest_even_le m l : round_nearest_even m l <= m + 1.
Proof. destruct l as [|[]]; cbn; try lia. destruct (Z.even m); lia. Qed.

Lemma shr_fexp_shape m e l :
  0 <= m -> e <= fexp32 (Zdigits2 m + e) ->
  snd (shr_fexp B32.prec B32.emax m e l) = fexp32 (Zdigits2 m + e)
  /\ shr_m (fst (shr_fexp B32.prec B32.emax m e l))
     = m / 2 ^ (fexp32 (Zdigits2 m + e) - e).
Proof.
  intros Hm He. unfold shr_fexp, shr. fold (fexp32 (Zdigits2 m + e)).
  destruct (fexp32 (Zdigits2 m + e) - e) as [|p|p] eqn:HP; cbn [fst snd].
  - rewrite shr_record_of_loc_m, Z.pow_0_r, Z.div_1_r. split; lia.
  - rewrite iter_shr_1_m by (rewrite shr_record_of_loc_m; exact Hm).
    rewrite shr_record_of_loc_m. split; [lia|reflexivity].
  - lia.
Qed.

Lemma shr_fexp_zero e l :
  shr_m (fst (shr_fexp B32.prec B32.emax 0 e l)) = 0.
Proof.
  unfold shr_fexp, shr.
  destruct (fexp B32.prec B32.emax (Zdigits2 0 + e) - e) as [|p|p]; cbn [fst];
    rewrite ?iter_shr_1_m; rewrite ?shr_record_of_loc_m; try reflexivity; try lia.
Qed.

Lemma shr_fexp_still m e :
  fexp32 (Zdigits2 m + e) = e ->
  shr_fexp B32.prec B32.emax m e loc_Exact = (shr_record_of_loc m loc_Exact, e).
Proof.
  intros He. unfold shr_fexp, shr. fold (fexp32 (Zdigits2 m + e)).
  now rewrite He, Z.sub_diag.
Qed.

(** What [binary_round_aux] makes of a mantissa that is not too short for
    its exponent: the mantissa is cut to the exponent [e1] of its last
    place and moved up by one or not; the result is zero (only in the last
    binade), or a float that fits its exponent, or an infinity. *)
Lemma round_aux_shape sx m e l :
  0 <= m -> e <= fexp32 (Zdigits2 m + e) ->
  (-149 < fexp32 (Zdigits2 m + e) ->
   2 ^ 23 <= m / 2 ^ (fexp32 (Zdigits2 m + e) - e))
  /\ exists m1,
       m / 2 ^ (fexp32 (Zdigits2 m + e) - e) <= m1
       <= m / 2 ^ (fexp32 (Zdigits2 m + e) - e) + 1
       /\ ((m1 = 0 /\ fexp32 (Zdigits2 m + e) = -149
            /\ binary_round_aux B32.prec B32.emax sx m e l = S754_zero sx)
           \/ exists m2 e2,
                fexp32 (Zdigits2 m + e) <= e2
                /\ Zpos m2 * 2 ^ (e2 - fexp32 (Zdigits2 m + e)) = m1
                /\ canonical_mantissa B32.prec B32.emax m2 e2 = true
                /\ binary_round_aux B32.prec B32.emax sx m e l
                   = if e2 <=? 104 then S754_finite sx m2 e2
                     else S754_infinity sx).
Proof.
  intros Hm He.
  set (d := Zdigits2 m) in *. set (e1 := fexp32 (d + e)) in *.
  assert (He1 : e1 = Z.max (d + e - 24) (-149)) by reflexivity.
  assert (Hd : 0 <= d) by (apply Zdigits2_nonneg; exact Hm).
  set (P := e1 - e) in *. assert (HP : 0 <= P) by (unfold P; lia).
  assert (HpowP : 0 < 2 ^ P) by (apply Z.pow_pos_nonneg; lia).
  set (q := m / 2 ^ P).
  assert (Hq0 : 0 <= q) by (apply Z.div_pos; lia).
  assert (Hq24 : q < 2 ^ 24).
  { destruct (Z.eq_dec m 0) as [Hz|Hnz].
    - unfold q. rewrite Hz, Z.div_0_l by lia. lia.
    - pose proof (Zdigits2_bounds m ltac:(lia)) as [_ Hhi]. fold d in Hhi.
      apply Z.div_lt_upper_bound; [exact HpowP|].
      rewrite <- Z.pow_add_r by lia.
      eapply Z.lt_le_trans; [exact Hhi|]. apply Z.pow_le_mono_r; lia. }
  assert (Hnormal : -149 < e1 -> 2 ^ 23 <= q).
  { intros Hn. assert (HdP : d = P + 24) by (unfold P; lia).
    assert (0 < m).
    { destruct (Z.eq_dec m 0) as [Hz|Hnz]; [|lia].
      subst m. unfold d in HdP. cbn in HdP. lia. }
    pose proof (Zdigits2_bounds m ltac:(lia)) as [Hlo _]. fold d in Hlo.
    apply Z.div_le_lower_bound; [exact HpowP|].
    rewrite <- Z.pow_add_r by lia.
    now replace (P + 23) with (d - 1) by lia. }
  split; [exact Hnormal|].
  destruct (shr_fexp_shape m e l Hm He) as [Hsnd Hfst].
  fold d in Hsnd, Hfst. fold e1 in Hsnd, Hfst. fold P in Hfst. fold q in Hfst.
  unfold binary_round_aux.
  destruct (shr_fexp B32.prec B32.emax m e l) as [mrs' e'].
  cbn [fst snd] in Hsnd, Hfst. subst e'. rewrite Hfst.
  set (m1 := round_nearest_even q (loc_of_shr_record mrs')).
  pose proof (round_nearest_even_ge q (loc_of_shr_record mrs')) as Hge.
  pose proof (round_nearest_even_le q (loc_of_shr_record mrs')) as Hle.
  fold m1 in Hge, Hle.
  exists m1. split; [lia|].
  destruct (Z.eq_dec m1 0) as [Hz|Hnz].
  - left. split; [exact Hz|]. split; [lia|].
    rewrite Hz. pose proof (shr_fexp_zero e1 loc_Exact) as H0.
    destruct (shr_fexp B32.prec B32.emax 0 e1 loc_Exact) as [mrs2 e2].
    cbn [fst] in H0. now rewrite H0.
  - right. destruct (Z.eq_dec m1 (2 ^ 24)) as [Hc|Hnc].
    + exists 8388608%positive, (e1 + 1). split; [lia|]. split.
      { replace (e1 + 1 - e1) with 1 by lia. rewrite Hc. reflexivity. }
      split.
      { unfold canonical_mantissa. apply Z.eqb_eq.
        change (Zpos (digits2_pos 8388608)) with 24.
        change (fexp B32.prec B32.emax (24 + (e1 + 1)))
          with (Z.max (24 + (e1 + 1) - 24) (-149)). lia. }
      rewrite Hc. unfold shr_fexp, shr.
      change (Zdigits2 (2 ^ 24)) with 25.
      change (fexp B32.prec B32.emax (25 + e1)) with (Z.max (25 + e1 - 24) (-149)).
      replace (Z.max (25 + e1 - 24) (-149) - e1) with 1 by lia.
      cbn [SpecFloat.iter_pos shr_record_of_loc shr_1 shr_m Z.pow Z.pow_pos Pos.iter Z.mul Pos.mul].
      reflexivity.
    + assert (Hm1 : 0 < m1 < 2 ^ 24) by lia.
      assert (Hd1 : Zdigits2 m1 <= 24) by (apply Zdigits2_le_pow; lia).
      assert (Hd1' : -149 < e1 -> 24 <= Zdigits2 m1).
      { intros Hn. apply (Zdigits2_ge_pow m1 23); [lia|]. specialize (Hnormal Hn). lia. }
      assert (Hcan : fexp32 (Zdigits2 m1 + e1) = e1).
      { rewrite fexp32_eq. pose proof (Zdigits2_pos m1 ltac:(lia)). lia. }
      rewrite (shr_fexp_still m1 e1 Hcan). cbn [shr_m shr_record_of_loc].
      destruct m1 as [|p1|p1]; try lia.
      exists p1, e1. split; [lia|]. split.
      { rewrite Z.sub_diag, Z.pow_0_r. lia. }
      split; [|reflexivity].
      unfold canonical_mantissa. apply Z.eqb_eq. exact Hcan.
Qed.
End RoundShape.

Section RoundValue.
Local Open Scope R_scope.

Lemma canonical_normal (m : positive) e :
  canonical_mantissa B32.prec B32.emax m e = true ->
  (-149 < e)%Z -> (2 ^ 23 <= Zpos m)%Z.
Proof.
  unfold canonical_mantissa. intros Hc He. apply Z.eqb_eq in Hc.
  change (fexp B32.prec B32.emax (Zpos (digits2_pos m) + e))
    with (Z.max (Zpos (digits2_pos m) + e - 24) (-149))%Z in Hc.
  assert (Hd : Zdigits2 (Zpos m) = 24%Z) by (cbn [Zdigits2]; lia).
  pose proof (Zdigits2_bounds (Zpos m) ltac:(lia)) as [Hlo _].
  now rewrite Hd in Hlo.
Qed.

Lemma canonical_digits (m : positive) e :
  canonical_mantissa B32.prec B32.emax m e = true ->
  (Zpos m < 2 ^ 24)%Z /\ (-149 <= e)%Z.
Proof.
  unfold canonical_mantissa. intros Hc. apply Z.eqb_eq in Hc.
  change (fexp B32.prec B32.emax (Zpos (digits2_pos m) + e))
    with (Z.max (Zpos (digits2_pos m) + e - 24) (-149))%Z in Hc.
  split; [|lia].
  pose proof (Zdigits2_bounds (Zpos m) ltac:(lia)) as [_ Hhi].
  eapply Z.lt_le_trans; [exact Hhi|].
  apply Z.pow_le_mono_r; [lia|]. cbn [Zdigits2]. lia.
Qed.

(** Rounding is faithful: the float returned for a number [x] lying
    between [m * 2^e] and [(m + 1) * 2^e] is within [2^-23 * x + 2^-149] of
    [x]; it is zero only below [2^-149] and an infinity only from [2^127]
    on. *)
Lemma round_aux_value sx m e l (x : R) :
  (0 <= m)%Z -> (e <= fexp32 (Zdigits2 m + e))%Z ->
  IZR m * bpow e <= x < IZR (m + 1) * bpow e ->
  proper (binary_round_aux B32.prec B32.emax sx m e l) = true
  /\ ((binary_round_aux B32.prec B32.emax sx m e l = S754_zero sx
       /\ x < bpow (-149))
      \/ (exists m2 e2,
            binary_round_aux B32.prec B32.emax sx m e l = S754_finite sx m2 e2
            /\ Rabs (IZR (Zpos m2) * bpow e2 - x) <= bpow (-23) * x + bpow (-149))
      \/ (binary_round_aux B32.prec B32.emax sx m e l = S754_infinity sx
          /\ bpow 127 <= x)).
Proof.
  intros Hm He [Hlo Hhi].
  destruct (round_aux_shape sx m e l Hm He) as (Hnormal & m1 & Hm1 & Hres).
  set (e1 := fexp32 (Zdigits2 m + e)) in *.
  set (P := (e1 - e)%Z) in *. assert (HP : (0 <= P)%Z) by (unfold P; lia).
  assert (HpowP : (0 < 2 ^ P)%Z) by (apply Z.pow_pos_nonneg; lia).
  set (q := (m / 2 ^ P)%Z) in *.
  assert (Hq0 : (0 <= q)%Z) by (apply Z.div_pos; lia).
  set (B := bpow e1). assert (HB : 0 < B) by apply bpow_pos.
  assert (HBe : B = IZR (2 ^ P) * bpow e).
  { unfold B. replace e1 with (P + e)%Z by (unfold P; lia).
    now rewrite bpow_add, bpow_IZR by exact HP. }
  pose proof (bpow_pos e) as Hbe.
  assert (Hxlo : IZR q * B <= x).
  { rewrite HBe, <- Rmult_assoc, <- mult_IZR.
    eapply Rle_trans; [|exact Hlo].
    apply Rmult_le_compat_r; [lra|]. apply IZR_le.
    rewrite Z.mul_comm. apply Z.mul_div_le. exact HpowP. }
  assert (Hxhi : x < IZR (q + 1) * B).
  { rewrite HBe, <- Rmult_assoc, <- mult_IZR.
    eapply Rlt_le_trans; [exact Hhi|].
    apply Rmult_le_compat_r; [lra|]. apply IZR_le.
    pose proof (Z.mul_succ_div_gt m (2 ^ P) HpowP) as Hs. fold q in Hs. lia. }
  assert (Hx0 : 0 <= x).
  { eapply Rle_trans; [|exact Hxlo]. apply Rmult_le_pos; [apply IZR_le; lia|lra]. }
  assert (HBsmall : B <= bpow (-23) * x + bpow (-149)).
  { pose proof (bpow_pos (-23)) as Hu. pose proof (bpow_pos (-149)) as Heta.
    destruct (Z.eq_dec e1 (-149)) as [Heq|Hne].
    - unfold B. rewrite Heq. nra.
    - assert (Hn : (-149 < e1)%Z).
      { unfold e1 in *. rewrite fexp32_eq in *. lia. }
      specialize (Hnormal Hn).
      assert (Hq23 : bpow 23 * B <= x).
      { eapply Rle_trans; [|exact Hxlo]. apply Rmult_le_compat_r; [lra|].
        rewrite bpow_IZR by lia. apply IZR_le. exact Hnormal. }
      assert (Hinv : bpow (-23) * bpow 23 = 1).
      { rewrite <- bpow_add. reflexivity. }
      assert (HBeq : B = bpow (-23) * (bpow 23 * B)) by (rewrite <- Rmult_assoc, Hinv; ring).
      assert (bpow (-23) * (bpow 23 * B) <= bpow (-23) * x)
        by (apply Rmult_le_compat_l; lra).
      lra. }
  destruct Hres as [(Hz & He149 & Hr)|(m2 & e2 & He2 & Hm2 & Hcan & Hr)].
  - rewrite Hr. split; [reflexivity|]. left. split; [reflexivity|].
    assert (q = 0%Z) by lia. subst m1.
    replace (q + 1)%Z with 1%Z in Hxhi by lia.
    unfold B in Hxhi. rewrite He149 in Hxhi. lra.
  - assert (HV : IZR (Zpos m2) * bpow e2 = IZR m1 * B).
    { rewrite <- Hm2, mult_IZR. unfold B.
      replace e2 with ((e2 - e1) + e1)%Z at 1 by lia.
      rewrite bpow_add, (bpow_IZR (e2 - e1)) by lia. ring. }
    assert (Herr : Rabs (IZR (Zpos m2) * bpow e2 - x) <= B).
    { rewrite HV. apply Rabs_le.
      assert (Hq1 : IZR q <= IZR m1 <= IZR (q + 1)) by (split; apply IZR_le; lia).
      rewrite plus_IZR in Hq1, Hxhi.
      assert (0 <= (IZR m1 - IZR q) * B) by (apply Rmult_le_pos; lra).
      assert (0 <= (IZR q + 1 - IZR m1) * B) by (apply Rmult_le_pos; lra).
      lra. }
    rewrite Hr. destruct (Z.leb_spec e2 104) as [Hfin|Hinf].
    + split.
      { unfold proper. cbn [valid_binary]. unfold bounded.
        apply andb_true_intro. split; [exact Hcan|]. apply Z.leb_le. exact Hfin. }
      right; left. exists m2, e2. split; [reflexivity|]. lra.
    + split; [reflexivity|]. right; right. split; [reflexivity|].
      pose proof (canonical_normal m2 e2 Hcan ltac:(lia)) as Hm23.
      assert (HV128 : bpow 128 <= IZR (Zpos m2) * bpow e2).
      { replace 128%Z with (23 + 105)%Z by lia. rewrite bpow_add.
        pose proof (bpow_pos 105). pose proof (bpow_pos 23).
        pose proof (bpow_le 105 e2 ltac:(lia)).
        assert (bpow 23 <= IZR (Zpos m2)) by (rewrite bpow_IZR by lia; apply IZR_le; exact Hm23).
        nra. }
      assert (HBV : bpow 23 * B <= IZR (Zpos m2) * bpow e2).
      { pose proof (bpow_le e1 e2 He2). fold B in H.
        assert (bpow 23 <= IZR (Zpos m2)) by (rewrite bpow_IZR by lia; apply IZR_le; exact Hm23).
        pose proof (bpow_pos 23). pose proof (bpow_pos e2). nra. }
      apply Rabs_le_inv in Herr.
      assert (H23 : bpow 23 = 8388608) by (rewrite bpow_IZR by lia; reflexivity).
      assert (H128 : bpow 128 = 2 * bpow 127).
      { replace 128%Z with (1 + 127)%Z by lia. rewrite bpow_add.
        f_equal. unfold bpow. simpl. lra. }
      rewrite H23 in HBV. lra.
Qed.
End RoundValue.

Section Operations.
Local Open Scope R_scope.

Lemma B2R_finite s m e : B2R (S754_finite s m e) = sgn s * (IZR (Zpos m) * bpow e).
Proof. unfold B2R, sgn. destruct s; ring. Qed.

Lemma sgn_abs s : Rabs (sgn s) = 1.
Proof. destruct s; cbn; unfold Rabs; destruct (Rcase_abs _); lra. Qed.

Lemma sgn_xorb a b : sgn (xorb a b) = sgn a * sgn b.
Proof. destruct a, b; cbn; ring. Qed.

Lemma rounds_to_zero s : rounds_to (S754_zero s) 0.
Proof.
  split; [reflexivity|]. split; [reflexivity|]. split; [|discriminate].
  intros _. cbn [B2R]. rewrite Rminus_0_r, Rabs_R0.
  pose proof (bpow_pos (-149)). lra.
Qed.

(** The signed form of [round_aux_value]. *)
Lemma round_aux_rounds sx m e l (x : R) :
  (0 <= m)%Z -> (e <= fexp32 (Zdigits2 m + e))%Z ->
  IZR m * bpow e <= x < IZR (m + 1) * bpow e ->
  rounds_to (binary_round_aux B32.prec B32.emax sx m e l) (sgn sx * x).
Proof.
  intros Hm He Hx.
  assert (Hx0 : 0 <= x).
  { destruct Hx as [Hlo _]. eapply Rle_trans; [|exact Hlo].
    apply Rmult_le_pos; [apply IZR_le; exact Hm|apply Rlt_le, bpow_pos]. }
  assert (Habs : Rabs (sgn sx * x) = x).
  { rewrite Rabs_mult, sgn_abs, Rabs_pos_eq by exact Hx0. ring. }
  destruct (round_aux_value sx m e l x Hm He Hx)
    as [Hproper [(Hr & Hsmall)|[(m2 & e2 & Hr & Herr)|(Hr & Hbig)]]];
    rewrite Hr in *; unfold rounds_to; rewrite Habs.
  - split; [reflexivity|]. split; [reflexivity|]. split; [|discriminate].
    intros _. cbn [B2R].
    replace (0 - sgn sx * x) with (- (sgn sx * x)) by ring.
    rewrite Rabs_Ropp, Habs.
    pose proof (bpow_pos (-23)). nra.
  - split; [exact Hproper|]. split; [reflexivity|]. split; [|discriminate].
    intros _. rewrite B2R_finite.
    replace (sgn sx * (IZR (Zpos m2) * bpow e2) - sgn sx * x)
      with (sgn sx * (IZR (Zpos m2) * bpow e2 - x)) by ring.
    now rewrite Rabs_mult, sgn_abs, Rmult_1_l.
  - split; [reflexivity|]. split; [reflexivity|]. split; [discriminate|].
    intros _. exact Hbig.
Qed.

Lemma exact_brackets m e : IZR m * bpow e <= IZR m * bpow e < IZR (m + 1) * bpow e.
Proof.
  split; [lra|]. rewrite plus_IZR. pose proof (bpow_pos e). nra.
Qed.

(** *** [binary_round]: alignment, then rounding *)

Lemma iter_xO_pow m d : Zpos (Pos.iter xO m d) = (Zpos m * 2 ^ Zpos d)%Z.
Proof.
  induction d as [|d IH] using Pos.peano_ind.
  - cbn. lia.
  - rewrite Pos.iter_succ, Pos2Z.inj_xO, IH, Pos2Z.inj_succ, Z.pow_succ_r by lia.
    ring.
Qed.

Lemma shl_align_value m e e' :
  IZR (Zpos (fst (shl_align m e e'))) * bpow (snd (shl_align m e e'))
  = IZR (Zpos m) * bpow e.
Proof.
  unfold shl_align. destruct (e' - e)%Z as [|d|d] eqn:Hd; cbn [fst snd];
    try reflexivity.
  rewrite iter_xO_pow, mult_IZR.
  replace e with (Zpos d + e')%Z by lia.
  rewrite bpow_add, (bpow_IZR (Zpos d)) by lia. ring.
Qed.

Lemma shl_align_fst m e e' :
  (e' <= e)%Z -> Zpos (fst (shl_align m e e')) = (Zpos m * 2 ^ (e - e'))%Z.
Proof.
  intros He. unfold shl_align. destruct (e' - e)%Z as [|d|d] eqn:Hd; cbn [fst].
  - replace (e - e')%Z with 0%Z by lia. cbn. lia.
  - lia.
  - rewrite iter_xO_pow. f_equal. f_equal. lia.
Qed.

Lemma binary_round_rounds s m e :
  rounds_to (binary_round B32.prec B32.emax s m e)
            (sgn s * (IZR (Zpos m) * bpow e)).
Proof.
  unfold binary_round.
  pose proof (shl_align_value m e (fexp B32.prec B32.emax (Zpos (digits2_pos m) + e))) as Hv.
  pose proof (shl_align_digits m e (fexp B32.prec B32.emax (Zpos (digits2_pos m) + e))) as Hd.
  assert (He : (snd (shl_align m e (fexp B32.prec B32.emax (Zpos (digits2_pos m) + e)))
                <= fexp32 (Zpos (digits2_pos m) + e))%Z).
  { unfold shl_align. fold (fexp32 (Zpos (digits2_pos m) + e)).
    destruct (fexp32 (Zpos (digits2_pos m) + e) - e)%Z as [|d|d] eqn:HP;
      cbn [snd]; lia. }
  destruct (shl_align m e _) as [mz ez]. cbn [fst snd] in *.
  rewrite <- Hv. apply round_aux_rounds.
  - lia.
  - cbn [Zdigits2]. rewrite Hd. exact He.
  - apply exact_brackets.
Qed.

Lemma binary_normalize_rounds z e :
  rounds_to (binary_normalize B32.prec B32.emax z e false) (IZR z * bpow e).
Proof.
  destruct z as [|p|p]; cbn [binary_normalize].
  - rewrite Rmult_0_l. apply rounds_to_zero.
  - replace (IZR (Zpos p) * bpow e) with (sgn false * (IZR (Zpos p) * bpow e))
      by (cbn; ring).
    apply binary_round_rounds.
  - replace (IZR (Zneg p) * bpow e) with (sgn true * (IZR (Zpos p) * bpow e)).
    + apply binary_round_rounds.
    + cbn [sgn]. change (Zneg p) with (- Zpos p)%Z. rewrite opp_IZR. ring.
Qed.
End Operations.

Section Arithmetic.
Local Open Scope R_scope.

Lemma proper_canonical s m e :
  proper (S754_finite s m e) = true ->
  fexp32 (Zdigits2 (Zpos m) + e) = e /\ (e <= 104)%Z.
Proof.
  unfold proper. cbn [valid_binary]. unfold bounded, canonical_mantissa.
  intros H. apply andb_prop in H as [Hc Hb].
  apply Z.eqb_eq in Hc. apply Z.leb_le in Hb. split; [exact Hc|exact Hb].
Qed.

Lemma Zdigits2_mul (mx my : positive) :
  (Zdigits2 (Zpos mx) + Zdigits2 (Zpos my) - 1 <= Zdigits2 (Zpos (mx * my)))%Z.
Proof.
  pose proof (Zdigits2_bounds (Zpos mx) ltac:(lia)) as [Hx _].
  pose proof (Zdigits2_bounds (Zpos my) ltac:(lia)) as [Hy _].
  pose proof (Zdigits2_pos (Zpos mx) ltac:(lia)).
  pose proof (Zdigits2_pos (Zpos my) ltac:(lia)).
  assert (Hxy : (2 ^ (Zdigits2 (Zpos mx) + Zdigits2 (Zpos my) - 2) <= Zpos (mx * my))%Z).
  { replace (Zdigits2 (Zpos mx) + Zdigits2 (Zpos my) - 2)%Z
      with ((Zdigits2 (Zpos mx) - 1) + (Zdigits2 (Zpos my) - 1))%Z by lia.
    rewrite Z.pow_add_r by lia. rewrite Pos2Z.inj_mul.
    apply Z.mul_le_mono_nonneg; try lia; apply Z.pow_nonneg; lia. }
  assert (Hk : (0 <= Zdigits2 (Zpos mx) + Zdigits2 (Zpos my) - 2)%Z) by lia.
  pose proof (Zdigits2_ge_pow _ _ Hk Hxy). lia.
Qed.

Lemma rounds_to_self x :
  proper x = true -> B32.is_finite x = true -> rounds_to x (B2R x).
Proof.
  intros Hp Hf. split; [exact Hp|]. split; [now destruct x|].
  split; [|congruence]. intros _.
  rewrite Rminus_diag, Rabs_R0.
  pose proof (bpow_pos (-23)). pose proof (bpow_pos (-149)).
  pose proof (Rabs_pos (B2R x)). nra.
Qed.

(** *** Multiplication *)

Lemma mul_rounds x y :
  proper x = true -> proper y = true ->
  B32.is_finite x = true -> B32.is_finite y = true ->
  rounds_to (B32.mul x y) (B2R x * B2R y).
Proof.
  intros Hpx Hpy Hfx Hfy.
  destruct x as [sx|sx| |sx mx ex], y as [sy|sy| |sy my ey]; try discriminate;
    cbn [B32.mul SFmul B2R];
    rewrite ?Rmult_0_l, ?Rmult_0_r; try apply rounds_to_zero.
  change (binary_round_aux B32.prec B32.emax (xorb sx sy) (Zpos (mx * my)) (ex + ey) loc_Exact)
    with (binary_round_aux B32.prec B32.emax (xorb sx sy) (Zpos (mx * my)) (ex + ey) loc_Exact).
  replace ((if sx then -1 else 1) * IZR (Zpos mx) * bpow ex
           * ((if sy then -1 else 1) * IZR (Zpos my) * bpow ey))
    with (sgn (xorb sx sy) * (IZR (Zpos (mx * my)) * bpow (ex + ey))).
  - apply round_aux_rounds; [lia| |apply exact_brackets].
    destruct (proper_canonical _ _ _ Hpx) as [Hcx _].
    destruct (proper_canonical _ _ _ Hpy) as [Hcy _].
    pose proof (Zdigits2_mul mx my) as Hd.
    pose proof (Zdigits2_pos (Zpos mx) ltac:(lia)).
    pose proof (Zdigits2_pos (Zpos my) ltac:(lia)).
    rewrite fexp32_eq in *. lia.
  - rewrite sgn_xorb, Pos2Z.inj_mul, mult_IZR, bpow_add. unfold sgn. ring.
Qed.

(** *** Addition and subtraction *)

Lemma IZR_cond_Zopp s z : IZR (cond_Zopp s z) = sgn s * IZR z.
Proof. destruct s; cbn [cond_Zopp sgn]; [rewrite opp_IZR|]; ring. Qed.

Lemma aligned_value m e e' :
  (e' <= e)%Z ->
  IZR (Zpos (fst (shl_align m e e'))) * bpow e' = IZR (Zpos m) * bpow e.
Proof.
  intros He. rewrite shl_align_fst by exact He. rewrite mult_IZR.
  replace e with ((e - e') + e')%Z at 2 by lia.
  rewrite bpow_add, (bpow_IZR (e - e')) by lia. ring.
Qed.

Lemma add_rounds x y :
  proper x = true -> proper y = true ->
  B32.is_finite x = true -> B32.is_finite y = true ->
  rounds_to (B32.add x y) (B2R x + B2R y).
Proof.
  intros Hpx Hpy Hfx Hfy.
  destruct x as [sx|sx| |sx mx ex], y as [sy|sy| |sy my ey]; try discriminate.
  - replace (B2R (S754_zero sx) + B2R (S754_zero sy)) with 0 by (cbn; ring).
    cbn. destruct sx, sy; apply rounds_to_zero.
  - replace (B2R (S754_zero sx) + B2R (S754_finite sy my ey))
      with (B2R (S754_finite sy my ey)) by (cbn; ring).
    apply rounds_to_self; assumption.
  - replace (B2R (S754_finite sx mx ex) + B2R (S754_zero sy))
      with (B2R (S754_finite sx mx ex)) by (cbn; ring).
    apply rounds_to_self; assumption.
  - cbn [B32.add SFadd].
    replace (B2R (S754_finite sx mx ex) + B2R (S754_finite sy my ey))
      with (IZR (cond_Zopp sx (Zpos (fst (shl_align mx ex (Z.min ex ey))))
                 + cond_Zopp sy (Zpos (fst (shl_align my ey (Z.min ex ey)))))
            * bpow (Z.min ex ey)).
    + apply binary_normalize_rounds.
    + rewrite plus_IZR, !IZR_cond_Zopp, !B2R_finite.
      rewrite Rmult_plus_distr_r, !Rmult_assoc.
      rewrite (aligned_value mx ex) by lia. rewrite (aligned_value my ey) by lia.
      reflexivity.
Qed.

Lemma B2R_opp y : B2R (SFopp y) = - B2R y.
Proof. destruct y as [s|s| |s m e]; cbn; try ring. destruct s; cbn; ring. Qed.

Lemma proper_opp y : proper (SFopp y) = proper y.
Proof. now destruct y. Qed.

Lemma is_finite_opp y : B32.is_finite (SFopp y) = B32.is_finite y.
Proof. now destruct y. Qed.

Lemma cond_Zopp_negb s z : cond_Zopp (negb s) z = (- cond_Zopp s z)%Z.
Proof. destruct s; cbn; lia. Qed.

Lemma B32_sub_opp x y : B32.sub x y = B32.add x (SFopp y).
Proof.
  destruct x as [sx|sx| |sx mx ex], y as [sy|sy| |sy my ey];
    try reflexivity; destruct sx, sy; reflexivity.
Qed.

Lemma sub_rounds x y :
  proper x = true -> proper y = true ->
  B32.is_finite x = true -> B32.is_finite y = true ->
  rounds_to (B32.sub x y) (B2R x - B2R y).
Proof.
  intros Hpx Hpy Hfx Hfy. rewrite B32_sub_opp.
  replace (B2R x - B2R y) with (B2R x + B2R (SFopp y)) by (rewrite B2R_opp; ring).
  apply add_rounds; rewrite ?proper_opp, ?is_finite_opp; assumption.
Qed.

(** *** Absolute value *)

Lemma B2R_abs x : B2R (B32.abs x) = Rabs (B2R x).
Proof.
  destruct x as [s|s| |s m e]; cbn [B32.abs SFabs B2R]; rewrite ?Rabs_R0; try reflexivity.
  assert (0 <= IZR (Zpos m) * bpow e).
  { apply Rmult_le_pos; [apply IZR_le; lia|apply Rlt_le, bpow_pos]. }
  destruct s.
  - replace (-1 * IZR (Zpos m) * bpow e) with (- (IZR (Zpos m) * bpow e)) by ring.
    rewrite Rabs_Ropp, Rabs_pos_eq by assumption. ring.
  - rewrite Rmult_assoc, Rmult_1_l, Rabs_pos_eq by assumption. ring.
Qed.

Lemma proper_abs x : proper (B32.abs x) = proper x.
Proof. now destruct x. Qed.

Lemma is_finite_abs x : B32.is_finite (B32.abs x) = B32.is_finite x.
Proof. now destruct x. Qed.
End Arithmetic.

Section Division.
Local Open Scope R_scope.

Lemma div_core (mx my : positive) (ex ey : Z) :
  let '(q, e', l) := SFdiv_core_binary B32.prec B32.emax (Zpos mx) ex (Zpos my) ey in
  (0 <= q)%Z
  /\ (e' <= fexp32 (Zdigits2 q + e'))%Z
  /\ IZR q * bpow e'
     <= IZR (Zpos mx) * bpow ex / (IZR (Zpos my) * bpow ey)
     < IZR (q + 1) * bpow e'.
Proof.
  unfold SFdiv_core_binary.
  set (d1 := Zdigits2 (Zpos mx)). set (d2 := Zdigits2 (Zpos my)).
  fold (fexp32 (d1 + ex - (d2 + ey))).
  set (e' := Z.min (fexp32 (d1 + ex - (d2 + ey))) (ex - ey)).
  set (s := (ex - ey - e')%Z).
  assert (Hs : (0 <= s)%Z) by (unfold s, e'; lia).
  set (m' := match s with
             | Zpos _ => Z.shiftl (Zpos mx) s
             | Z0 => Zpos mx
             | Zneg _ => 0%Z
             end).
  assert (Hm' : m' = (Zpos mx * 2 ^ s)%Z).
  { unfold m'. destruct s as [|p|p] eqn:Hsp; [cbn; lia| |lia].
    apply Z.shiftl_mul_pow2. lia. }
  assert (Hpow : (0 < 2 ^ s)%Z) by (apply Z.pow_pos_nonneg; lia).
  pose proof (Z_div_mod m' (Zpos my) ltac:(lia)) as Hdm.
  destruct (Z.div_eucl m' (Zpos my)) as [q r]. destruct Hdm as [Heq Hr].
  assert (Hq0 : (0 <= q)%Z) by nia.
  split; [exact Hq0|].
  pose proof (Zdigits2_bounds (Zpos mx) ltac:(lia)) as [Hlo1 _].
  pose proof (Zdigits2_bounds (Zpos my) ltac:(lia)) as [_ Hhi2].
  fold d1 in Hlo1. fold d2 in Hhi2.
  pose proof (Zdigits2_pos (Zpos mx) ltac:(lia)) as Hd1. fold d1 in Hd1.
  pose proof (Zdigits2_pos (Zpos my) ltac:(lia)) as Hd2. fold d2 in Hd2.
  assert (Hdq : (d1 + s - d2 <= Zdigits2 q)%Z).
  { pose proof (Zdigits2_nonneg q Hq0).
    destruct (Z_le_gt_dec (d1 + s - d2) 0) as [Hle|Hgt]; [lia|].
    assert (Hk : (0 <= d1 + s - d2 - 1)%Z) by lia.
    assert (H2k : (2 ^ (d1 + s - d2 - 1) <= q)%Z).
    { assert (Hle : (Zpos my * 2 ^ (d1 + s - d2 - 1) <= m')%Z).
      { rewrite Hm'.
        assert (Hp : (2 ^ d2 * 2 ^ (d1 + s - d2 - 1) = 2 ^ (d1 - 1) * 2 ^ s)%Z).
        { rewrite <- !Z.pow_add_r by lia. f_equal. lia. }
        assert (0 < 2 ^ (d1 + s - d2 - 1))%Z by (apply Z.pow_pos_nonneg; lia).
        nia. }
      assert (Hlt : (Zpos my * 2 ^ (d1 + s - d2 - 1) < Zpos my * (q + 1))%Z) by nia.
      apply Z.mul_lt_mono_pos_l in Hlt; lia. }
    pose proof (Zdigits2_ge_pow q _ Hk H2k). lia. }
  split.
  { eapply Z.le_trans; [|apply (fexp32_mono (d1 + ex - (d2 + ey)))].
    - unfold e'. lia.
    - unfold s in Hdq. lia. }
  assert (Hval : IZR (Zpos mx) * bpow ex / (IZR (Zpos my) * bpow ey)
                 = IZR m' / IZR (Zpos my) * bpow e').
  { rewrite Hm', mult_IZR, <- (bpow_IZR s) by exact Hs.
    replace ex with (s + e' + ey)%Z at 1 by (unfold s; lia).
    rewrite !bpow_add.
    pose proof (bpow_pos ey). pose proof (bpow_pos e').
    assert (0 < IZR (Zpos my)) by (apply IZR_lt; lia).
    field. split; lra. }
  rewrite Hval.
  assert (Hmy : 0 < IZR (Zpos my)) by (apply IZR_lt; lia).
  pose proof (bpow_pos e') as Hbe.
  assert (Hm'R : IZR m' = IZR (Zpos my) * IZR q + IZR r).
  { rewrite Heq, plus_IZR, mult_IZR. reflexivity. }
  assert (Hr0 : 0 <= IZR r < IZR (Zpos my)).
  { split; [apply IZR_le|apply IZR_lt]; lia. }
  assert (Hquot : IZR q <= IZR m' / IZR (Zpos my) < IZR q + 1).
  { rewrite Hm'R. split.
    - apply Rmult_le_reg_r with (IZR (Zpos my)); [exact Hmy|].
      replace ((IZR (Zpos my) * IZR q + IZR r) / IZR (Zpos my) * IZR (Zpos my))
        with (IZR (Zpos my) * IZR q + IZR r) by (field; lra).
      lra.
    - apply Rmult_lt_reg_r with (IZR (Zpos my)); [exact Hmy|].
      replace ((IZR (Zpos my) * IZR q + IZR r) / IZR (Zpos my) * IZR (Zpos my))
        with (IZR (Zpos my) * IZR q + IZR r) by (field; lra).
      lra. }
  rewrite plus_IZR. split.
  - apply Rmult_le_compat_r; lra.
  - apply Rmult_lt_compat_r; lra.
Qed.

Lemma div_rounds x y :
  proper x = true -> proper y = true ->
  B32.is_finite x = true -> B32.is_finite y = true ->
  B32.is_zero y = false ->
  rounds_to (B32.div x y) (B2R x / B2R y).
Proof.
  intros Hpx Hpy Hfx Hfy Hzy.
  destruct x as [sx|sx| |sx mx ex], y as [sy|sy| |sy my ey]; try discriminate.
  - cbn [B32.div SFdiv].
    replace (B2R (S754_zero sx) / B2R (S754_finite sy my ey)) with 0
      by (cbn [B2R]; unfold Rdiv; ring).
    apply rounds_to_zero.
  - cbn [B32.div SFdiv].
    pose proof (div_core mx my ex ey) as Hcore.
    destruct (SFdiv_core_binary B32.prec B32.emax (Zpos mx) ex (Zpos my) ey)
      as [[q e'] l].
    destruct Hcore as (Hq & He & Hx).
    replace (B2R (S754_finite sx mx ex) / B2R (S754_finite sy my ey))
      with (sgn (xorb sx sy)
            * (IZR (Zpos mx) * bpow ex / (IZR (Zpos my) * bpow ey))).
    + now apply round_aux_rounds.
    + rewrite !B2R_finite, sgn_xorb.
      pose proof (bpow_pos ey). assert (0 < IZR (Zpos my)) by (apply IZR_lt; lia).
      destruct sx, sy; cbn [sgn]; field; split; lra.
Qed.
End Division.

Section SquareRoot.
Local Open Scope R_scope.

Lemma sqrt_core (m : positive) (e : Z) :
  let '(q, e', l) := SFsqrt_core_binary B32.prec B32.emax (Zpos m) e in
  (0 <= q)%Z
  /\ (e' <= fexp32 (Zdigits2 q + e'))%Z
  /\ IZR q * bpow e' <= sqrt (IZR (Zpos m) * bpow e) < IZR (q + 1) * bpow e'.
Proof.
  unfold SFsqrt_core_binary.
  set (d := Zdigits2 (Zpos m)).
  fold (fexp32 (Z.div2 (d + e + 1))).
  set (e' := Z.min (fexp32 (Z.div2 (d + e + 1))) (Z.div2 e)).
  set (s := (e - 2 * e')%Z).
  assert (Hdiv2 : forall z, (2 * Z.div2 z <= z <= 2 * Z.div2 z + 1)%Z).
  { intros z. rewrite Z.div2_div. pose proof (Z.div_mod z 2 ltac:(lia)).
    pose proof (Z.mod_pos_bound z 2 ltac:(lia)). lia. }
  assert (Hs : (0 <= s)%Z).
  { unfold s, e'. pose proof (Hdiv2 e). lia. }
  set (m' := match s with
             | Zpos _ => Z.shiftl (Zpos m) s
             | Z0 => Zpos m
             | Zneg _ => 0%Z
             end).
  assert (Hm' : m' = (Zpos m * 2 ^ s)%Z).
  { unfold m'. destruct s as [|p|p] eqn:Hsp; [cbn; lia| |lia].
    apply Z.shiftl_mul_pow2. lia. }
  assert (Hpow : (0 < 2 ^ s)%Z) by (apply Z.pow_pos_nonneg; lia).
  assert (Hm'0 : (0 < m')%Z) by nia.
  pose proof (Z.sqrtrem_spec m' ltac:(lia)) as Hsq.
  destruct (Z.sqrtrem m') as [q r]. destruct Hsq as [Heq Hr].
  assert (Hq0 : (0 <= q)%Z) by lia.
  assert (Hlo : (q * q <= m')%Z) by lia.
  assert (Hhi : (m' < (q + 1) * (q + 1))%Z) by lia.
  assert (Hgoal1 : (0 <= q)%Z) by exact Hq0.
  pose proof (Zdigits2_bounds (Zpos m) ltac:(lia)) as [Hlo1 _]. fold d in Hlo1.
  pose proof (Zdigits2_pos (Zpos m) ltac:(lia)) as Hd. fold d in Hd.
  set (k := ((d - 1 + s) / 2)%Z).
  assert (Hk : (0 <= k /\ 2 * k <= d - 1 + s <= 2 * k + 1)%Z).
  { unfold k. pose proof (Z.div_mod (d - 1 + s) 2 ltac:(lia)).
    pose proof (Z.mod_pos_bound (d - 1 + s) 2 ltac:(lia)).
    split; [apply Z.div_pos; lia|lia]. }
  assert (H2k : (2 ^ k <= q)%Z).
  { assert (Hpk : (0 < 2 ^ k)%Z) by (apply Z.pow_pos_nonneg; lia).
    assert (Hsqk : (2 ^ k * 2 ^ k <= m')%Z).
    { rewrite <- Z.pow_add_r by lia. rewrite Hm'.
      assert (Hle : (2 ^ (k + k) <= 2 ^ (d - 1 + s))%Z)
        by (apply Z.pow_le_mono_r; lia).
      rewrite (Z.pow_add_r 2 (d - 1) s) in Hle by lia. nia. }
    destruct (Z_le_gt_dec (2 ^ k) q) as [Hle|Hgt]; [exact Hle|exfalso]. nia. }
  pose proof (Zdigits2_ge_pow q k ltac:(lia) H2k) as Hdq.
  destruct (if (r =? 0)%Z then loc_Exact else loc_Inexact (if (r <=? q)%Z then Lt else Gt)).
  all: split; [exact Hq0|]; split.
  1, 3: (eapply Z.le_trans; [|apply (fexp32_mono (Z.div2 (d + e + 1)))];
         [unfold e'; lia|];
         pose proof (Hdiv2 (d + e + 1)%Z); unfold s in Hk; lia).
  all: assert (Hval : sqrt (IZR (Zpos m) * bpow e) = sqrt (IZR m') * bpow e').
  1, 3: (rewrite Hm', mult_IZR, <- (bpow_IZR s) by exact Hs;
         replace e with (s + (e' + e'))%Z at 1 by (unfold s; lia);
         rewrite !bpow_add;
         replace (IZR (Zpos m) * (bpow s * (bpow e' * bpow e')))
           with (IZR (Zpos m) * bpow s * (bpow e' * bpow e')) by ring;
         rewrite sqrt_mult;
         [rewrite (sqrt_square (bpow e')) by (apply Rlt_le, bpow_pos); reflexivity
         |apply Rmult_le_pos; [apply IZR_le; lia|apply Rlt_le, bpow_pos]
         |apply Rmult_le_pos; apply Rlt_le, bpow_pos]).
  all: rewrite Hval; pose proof (bpow_pos e') as Hbe;
    assert (Hq : IZR q <= sqrt (IZR m') < IZR (q + 1));
    [|split; [apply Rmult_le_compat_r|apply Rmult_lt_compat_r]; lra].
  all: split.
  1, 3: (rewrite <- (sqrt_square (IZR q)) by (apply IZR_le; lia);
         apply sqrt_le_1;
         [apply Rmult_le_pos; apply IZR_le; lia|apply IZR_le; lia|];
         rewrite <- mult_IZR; apply IZR_le; exact Hlo).
  all: rewrite <- (sqrt_square (IZR (q + 1))) by (apply IZR_le; lia);
    apply sqrt_lt_1;
    [apply IZR_le; lia|apply Rmult_le_pos; apply IZR_le; lia|];
    rewrite <- mult_IZR; apply IZR_lt; exact Hhi.
Qed.
End SquareRoot.

Section Comparisons.
Local Open Scope R_scope.

Lemma mantissa_value_pos (m : positive) e : 0 < IZR (Zpos m) * bpow e.
Proof. apply Rmult_lt_0_compat; [apply IZR_lt; lia|apply bpow_pos]. Qed.

Lemma B2R_bound x :
  proper x = true -> Rabs (B2R x) < bpow 128.
Proof.
  intros Hp. destruct x as [s|s| |s m e]; cbn [B2R];
    rewrite ?Rabs_R0; try apply bpow_pos.
  destruct (proper_canonical _ _ _ Hp) as [Hc He].
  assert (Hcan : canonical_mantissa B32.prec B32.emax m e = true)
    by (apply Z.eqb_eq; exact Hc).
  destruct (canonical_digits m e Hcan) as [Hm _].
  pose proof (mantissa_value_pos m e) as Hpos.
  replace ((if s then -1 else 1) * IZR (Zpos m) * bpow e)
    with (sgn s * (IZR (Zpos m) * bpow e)) by (unfold sgn; ring).
  rewrite Rabs_mult, sgn_abs, Rmult_1_l, Rabs_pos_eq by lra.
  replace 128%Z with (24 + 104)%Z by lia. rewrite bpow_add.
  pose proof (bpow_le e 104 He). pose proof (bpow_pos e).
  assert (IZR (Zpos m) < bpow 24) by (rewrite bpow_IZR by lia; apply IZR_lt; exact Hm).
  assert (0 < IZR (Zpos m)) by (apply IZR_lt; lia).
  pose proof (bpow_pos 24). nra.
Qed.

Lemma sqrt_rounds x :
  proper x = true -> B32.is_finite x = true -> 0 <= B2R x ->
  rounds_to (B32.sqrt x) (sqrt (B2R x)).
Proof.
  intros Hp Hf Hx.
  destruct x as [s|s| |s m e]; try discriminate.
  - cbn [B32.sqrt SFsqrt B2R]. rewrite sqrt_0. apply rounds_to_zero.
  - pose proof (mantissa_value_pos m e) as Hpos.
    destruct s; [cbn [B2R] in Hx; lra|].
    cbn [B32.sqrt SFsqrt].
    pose proof (sqrt_core m e) as Hcore.
    destruct (SFsqrt_core_binary B32.prec B32.emax (Zpos m) e) as [[q e'] l].
    destruct Hcore as (Hq & He & Hbr).
    replace (sqrt (B2R (S754_finite false m e)))
      with (sgn false * sqrt (IZR (Zpos m) * bpow e)).
    + now apply round_aux_rounds.
    + cbn [sgn B2R]. rewrite Rmult_1_l. f_equal. ring.
Qed.

Lemma bpow_sqrt e : sqrt (bpow (e + e)) = bpow e.
Proof. rewrite bpow_add. apply sqrt_square, Rlt_le, bpow_pos. Qed.

Lemma sqrt_finite x :
  proper x = true -> B32.is_finite x = true -> 0 <= B2R x ->
  B32.is_finite (B32.sqrt x) = true.
Proof.
  intros Hp Hf Hx. destruct (sqrt_rounds x Hp Hf Hx) as (_ & _ & _ & Hinf).
  destruct (B32.is_finite (B32.sqrt x)) eqn:E; [reflexivity|exfalso].
  specialize (Hinf eq_refl).
  pose proof (B2R_bound x Hp) as Hb. rewrite Rabs_pos_eq in Hb by exact Hx.
  rewrite Rabs_pos_eq in Hinf by apply sqrt_pos.
  assert (Hs : sqrt (B2R x) < bpow 64).
  { rewrite <- (bpow_sqrt 64). apply sqrt_lt_1; [exact Hx|apply Rlt_le, bpow_pos|exact Hb]. }
  pose proof (bpow_lt 64 127 ltac:(lia)). lra.
Qed.

(** *** Comparisons of values of binary32 *)

Lemma canonical_lt (m1 m2 : positive) e1 e2 :
  canonical_mantissa B32.prec B32.emax m1 e1 = true ->
  canonical_mantissa B32.prec B32.emax m2 e2 = true ->
  (e1 < e2)%Z ->
  IZR (Zpos m1) * bpow e1 < IZR (Zpos m2) * bpow e2.
Proof.
  intros Hc1 Hc2 He.
  destruct (canonical_digits m1 e1 Hc1) as [Hm1 He1].
  pose proof (canonical_normal m2 e2 Hc2 ltac:(lia)) as Hm2.
  assert (H1 : IZR (Zpos m1) < bpow 24) by (rewrite bpow_IZR by lia; apply IZR_lt; exact Hm1).
  assert (H2 : bpow 23 <= IZR (Zpos m2)) by (rewrite bpow_IZR by lia; apply IZR_le; exact Hm2).
  pose proof (bpow_pos e1). pose proof (bpow_pos e2). pose proof (bpow_pos 23).
  pose proof (bpow_le (e1 + 1) e2 ltac:(lia)) as Hle. rewrite bpow_add in Hle.
  assert (H24 : bpow 24 = bpow 23 * bpow 1)
    by (rewrite <- bpow_add; reflexivity).
  assert (Ha : IZR (Zpos m1) * bpow e1 < bpow 23 * (bpow e1 * bpow 1)).
  { rewrite H24 in H1. nra. }
  assert (Hb : bpow 23 * (bpow e1 * bpow 1) <= bpow 23 * bpow e2)
    by (apply Rmult_le_compat_l; lra).
  assert (Hc : bpow 23 * bpow e2 <= IZR (Zpos m2) * bpow e2)
    by (apply Rmult_le_compat_r; lra).
  lra.
Qed.

Lemma Pos_compare_cont_Eq (m1 m2 : positive) : Pos.compare_cont Eq m1 m2 = (m1 ?= m2)%positive.
Proof. reflexivity. Qed.

(** [SFcompare] orders the values of binary32 as the real numbers they
    stand for. *)
Lemma compare_spec a b :
  proper a = true -> proper b = true ->
  B32.is_finite a = true -> B32.is_finite b = true ->
  match SFcompare a b with
  | Some Lt => B2R a < B2R b
  | Some Eq => B2R a = B2R b
  | Some Gt => B2R b < B2R a
  | None => False
  end.
Proof.
  intros Hpa Hpb Hfa Hfb.
  destruct a as [sa|sa| |sa ma ea], b as [sb|sb| |sb mb eb]; try discriminate;
    cbn [SFcompare].
  - reflexivity.
  - pose proof (mantissa_value_pos mb eb). rewrite B2R_finite. cbn [B2R].
    destruct sb; cbn [sgn]; lra.
  - pose proof (mantissa_value_pos ma ea). rewrite B2R_finite. cbn [B2R].
    destruct sa; cbn [sgn]; lra.
  - destruct (proper_canonical _ _ _ Hpa) as [Hca _].
    destruct (proper_canonical _ _ _ Hpb) as [Hcb _].
    assert (Hcana : canonical_mantissa B32.prec B32.emax ma ea = true)
      by (apply Z.eqb_eq; exact Hca).
    assert (Hcanb : canonical_mantissa B32.prec B32.emax mb eb = true)
      by (apply Z.eqb_eq; exact Hcb).
    pose proof (mantissa_value_pos ma ea) as Hpa'.
    pose proof (mantissa_value_pos mb eb) as Hpb'.
    rewrite !B2R_finite.
    assert (Hmag :
      match (ea ?= eb)%Z with
      | Lt => IZR (Zpos ma) * bpow ea < IZR (Zpos mb) * bpow eb
      | Gt => IZR (Zpos mb) * bpow eb < IZR (Zpos ma) * bpow ea
      | Eq => match (ma ?= mb)%positive with
              | Lt => IZR (Zpos ma) * bpow ea < IZR (Zpos mb) * bpow eb
              | Gt => IZR (Zpos mb) * bpow eb < IZR (Zpos ma) * bpow ea
              | Eq => IZR (Zpos ma) * bpow ea = IZR (Zpos mb) * bpow eb
              end
      end).
    { destruct (Z.compare_spec ea eb) as [Heq|Hlt|Hgt].
      - subst eb. pose proof (bpow_pos ea).
        destruct (Pos.compare_spec ma mb) as [Hm|Hm|Hm].
        + now subst mb.
        + apply Rmult_lt_compat_r; [lra|]. apply IZR_lt. lia.
        + apply Rmult_lt_compat_r; [lra|]. apply IZR_lt. lia.
      - now apply canonical_lt.
      - now apply canonical_lt. }
    rewrite Pos_compare_cont_Eq.
    destruct sa, sb; cbn [sgn];
      destruct (ea ?= eb)%Z; try destruct (ma ?= mb)%positive; cbn [CompOpp]; lra.
Qed.

Lemma ltb_spec a b :
  proper a = true -> proper b = true ->
  B32.is_finite a = true -> B32.is_finite b = true ->
  (B32.ltb a b = true <-> B2R a < B2R b).
Proof.
  intros Hpa Hpb Hfa Hfb. pose proof (compare_spec a b Hpa Hpb Hfa Hfb) as H.
  unfold B32.ltb, SFltb. destruct (SFcompare a b) as [[]|]; split; intros;
    try reflexivity; try discriminate; try lra; contradiction.
Qed.

Lemma leb_spec a b :
  proper a = true -> proper b = true ->
  B32.is_finite a = true -> B32.is_finite b = true ->
  (B32.leb a b = true <-> B2R a <= B2R b).
Proof.
  intros Hpa Hpb Hfa Hfb. pose proof (compare_spec a b Hpa Hpb Hfa Hfb) as H.
  unfold B32.leb, SFleb. destruct (SFcompare a b) as [[]|]; split; intros;
    try reflexivity; try discriminate; try lra; contradiction.
Qed.

Lemma ltb_false_spec a b :
  proper a = true -> proper b = true ->
  B32.is_finite a = true -> B32.is_finite b = true ->
  B32.ltb a b = false -> B2R b <= B2R a.
Proof.
  intros Hpa Hpb Hfa Hfb Hlt.
  destruct (Rle_dec (B2R b) (B2R a)) as [H|H]; [exact H|exfalso].
  assert (Hab : B2R a < B2R b) by lra.
  apply (ltb_spec a b Hpa Hpb Hfa Hfb) in Hab. congruence.
Qed.
End Comparisons.

(** Powers of two with a literal exponent, as rational numerals. *)
Lemma bpow_neg_IZR (e : Z) : (0 <= e)%Z -> bpow (- e) = (/ IZR (2 ^ e))%R.
Proof. intros He. now rewrite bpow_opp, bpow_IZR. Qed.

Ltac bpow_const e :=
  lazymatch e with
  | Zpos ?p =>
      let v := eval vm_compute in (2 ^ Zpos p)%Z in
      replace (bpow (Zpos p)) with (IZR v) in *
        by (rewrite (bpow_IZR (Zpos p)) by lia; reflexivity)
  | Zneg ?p =>
      let v := eval vm_compute in (2 ^ Zpos p)%Z in
      replace (bpow (Zneg p)) with (/ IZR v)%R in *
        by (symmetry; apply (bpow_neg_IZR (Zpos p)); lia)
  | Z0 => replace (bpow 0) with 1%R in * by reflexivity
  end.

Ltac bpow_lits :=
  repeat match goal with
         | |- context [bpow ?e] => bpow_const e
         | H : context [bpow ?e] |- _ => bpow_const e
         end.

Section Rounded.
Local Open Scope R_scope.

Lemma rounds_finite r z :
  rounds_to r z -> Rabs z < bpow 127 -> B32.is_finite r = true.
Proof.
  intros (_ & _ & _ & Hinf) Hz.
  destruct (B32.is_finite r); [reflexivity|]. specialize (Hinf eq_refl). lra.
Qed.

Lemma rounds_proper r z : rounds_to r z -> proper r = true.
Proof. now intros (H & _). Qed.

Lemma rounds_error r z :
  rounds_to r z -> Rabs z < bpow 127 ->
  - (bpow (-23) * Rabs z + bpow (-149)) <= B2R r - z
  <= bpow (-23) * Rabs z + bpow (-149).
Proof.
  intros Hr Hz. pose proof (rounds_finite r z Hr Hz) as Hf.
  destruct Hr as (_ & _ & Herr & _). apply Rabs_le_inv, Herr, Hf.
Qed.

Lemma nonneg_B2R x : B32.nonneg x = true -> 0 <= B2R x.
Proof.
  destruct x as [s|s| |s m e]; cbn [B2R B32.nonneg]; intros Hs; try lra.
  destruct s; [discriminate|]. pose proof (mantissa_value_pos m e). lra.
Qed.

Lemma positive_float x : 0 < B2R x -> B32.ltb (B32.of_Z 0) x = true.
Proof.
  destruct x as [s|s| |s m e]; cbn [B2R]; intros Hx; try lra.
  pose proof (mantissa_value_pos m e). destruct s; [lra|reflexivity].
Qed.

Lemma nonzero_float x : B2R x <> 0 -> B32.is_zero x = false.
Proof. destruct x; cbn; intros H; try reflexivity; lra. Qed.

Lemma nonzero_finite x : B2R x <> 0 -> B32.is_finite x = true.
Proof. destruct x; cbn; intros H; try reflexivity; lra. Qed.
End Rounded.

(** *** Every operation keeps the values of binary32 *)

Section Proper.

Lemma proper_not_finite x : B32.is_finite x = false -> proper x = true.
Proof. now destruct x. Qed.

Lemma mul_proper x y :
  proper x = true -> proper y = true -> proper (B32.mul x y) = true.
Proof.
  intros Hx Hy.
  destruct (B32.is_finite x) eqn:Hfx, (B32.is_finite y) eqn:Hfy.
  - exact (rounds_proper _ _ (mul_rounds x y Hx Hy Hfx Hfy)).
  - destruct x as [sx|sx| |sx mx ex], y as [sy|sy| |sy my ey]; try discriminate; reflexivity.
  - destruct x as [sx|sx| |sx mx ex], y as [sy|sy| |sy my ey]; try discriminate; reflexivity.
  - destruct x as [sx|sx| |sx mx ex], y as [sy|sy| |sy my ey]; try discriminate; reflexivity.
Qed.

Lemma add_proper x y :
  proper x = true -> proper y = true -> proper (B32.add x y) = true.
Proof.
  intros Hx Hy.
  destruct (B32.is_finite x) eqn:Hfx, (B32.is_finite y) eqn:Hfy.
  - exact (rounds_proper _ _ (add_rounds x y Hx Hy Hfx Hfy)).
  - destruct x as [sx|sx| |sx mx ex], y as [sy|sy| |sy my ey]; try discriminate;
      try reflexivity; destruct sx, sy; reflexivity.
  - destruct x as [sx|sx| |sx mx ex], y as [sy|sy| |sy my ey]; try discriminate;
      try reflexivity; destruct sx, sy; reflexivity.
  - destruct x as [sx|sx| |sx mx ex], y as [sy|sy| |sy my ey]; try discriminate;
      try reflexivity; destruct sx, sy; reflexivity.
Qed.

Lemma sub_proper x y :
  proper x = true -> proper y = true -> proper (B32.sub x y) = true.
Proof.
  intros Hx Hy. rewrite B32_sub_opp. apply add_proper; [exact Hx|].
  now rewrite proper_opp.
Qed.

Lemma div_proper x y :
  proper x = true -> proper y = true -> proper (B32.div x y) = true.
Proof.
  intros Hx Hy.
  destruct x as [sx|sx| |sx mx ex], y as [sy|sy| |sy my ey]; try reflexivity.
  exact (rounds_proper _ _ (div_rounds _ _ Hx Hy eq_refl eq_refl eq_refl)).
Qed.

Lemma sqrt_proper x : proper x = true -> proper (B32.sqrt x) = true.
Proof.
  intros Hx. destruct x as [s|s| |s m e]; try reflexivity.
  - now destruct s.
  - destruct s; [reflexivity|].
    refine (rounds_proper _ _ (sqrt_rounds _ Hx eq_refl _)).
    pose proof (mantissa_value_pos m e). cbn [B2R]. lra.
Qed.
End Proper.

Section Magnitude.
Local Open Scope R_scope.

Lemma sqrt_ge a S : 0 <= a -> a * a <= S -> a <= sqrt S.
Proof.
  intros Ha HS. rewrite <- (sqrt_square a Ha).
  apply sqrt_le_1; [apply Rmult_le_pos; exact Ha|nra|exact HS].
Qed.

Lemma sqrt_le S b : 0 <= S -> 0 <= b -> S <= b * b -> sqrt S <= b.
Proof.
  intros HS Hb HSb. rewrite <- (sqrt_square b Hb).
  apply sqrt_le_1; [exact HS|apply Rmult_le_pos; exact Hb|exact HSb].
Qed.

Lemma square_le a b : 0 <= a <= b -> a * a <= b * b.
Proof. intros [H0 Hab]. apply Rmult_le_compat; lra. Qed.

Lemma norm_nonneg v : 0 <= norm v.
Proof. apply sqrt_pos. Qed.

Lemma norm_square v :
  norm v * norm v = B2R (vx v) * B2R (vx v) + B2R (vy v) * B2R (vy v).
Proof. apply sqrt_sqrt. nra. Qed.

(** [magnitude()] in binary32 is within [2^-21] of the length, relatively,
    when the length lies between [2^-61] and [2^61]. *)
Lemma magnitude_value (v : Vector2f B32.t) :
  proper_vector v = true -> finite_vector v = true ->
  bpow (-61) <= norm v <= bpow 61 ->
  proper (magnitude v) = true
  /\ B32.is_finite (magnitude v) = true
  /\ - (bpow (-21) * norm v) <= B2R (magnitude v) - norm v <= bpow (-21) * norm v.
Proof.
  intros Hp Hf [HL HH].
  apply andb_prop in Hp as [Hpx Hpy]. apply andb_prop in Hf as [Hfx Hfy].
  pose proof (norm_square v) as HMM. pose proof (norm_nonneg v) as HM0.
  set (M := norm v) in *. set (X := B2R (vx v)) in *. set (Y := B2R (vy v)) in *.
  set (A := X * X + Y * Y) in *.
  assert (HX2 : 0 <= X * X) by nra. assert (HY2 : 0 <= Y * Y) by nra.
  assert (HAlo : bpow (-122) <= A).
  { replace (bpow (-122)) with (bpow (-61) * bpow (-61))
      by (rewrite <- bpow_add; reflexivity).
    rewrite <- HMM. apply square_le. pose proof (bpow_pos (-61)). lra. }
  assert (HAhi : A <= bpow 122).
  { replace (bpow 122) with (bpow 61 * bpow 61)
      by (rewrite <- bpow_add; reflexivity).
    rewrite <- HMM. apply square_le. lra. }
  unfold magnitude. cbn [fsqrt fadd fmul binary32_ops].
  (* the squares *)
  pose proof (mul_rounds _ _ Hpx Hpx Hfx Hfx) as Rx. fold X in Rx.
  pose proof (mul_rounds _ _ Hpy Hpy Hfy Hfy) as Ry. fold Y in Ry.
  pose proof (nonneg_B2R _ (mul_self_nonneg (vx v))) as Hsx0.
  pose proof (nonneg_B2R _ (mul_self_nonneg (vy v))) as Hsy0.
  set (sx := B32.mul (vx v) (vx v)) in *. set (sy := B32.mul (vy v) (vy v)) in *.
  assert (HbX : Rabs (X * X) < bpow 127).
  { rewrite Rabs_pos_eq by exact HX2. bpow_lits. unfold A in HAhi. lra. }
  assert (HbY : Rabs (Y * Y) < bpow 127).
  { rewrite Rabs_pos_eq by exact HY2. bpow_lits. unfold A in HAhi. lra. }
  pose proof (rounds_error _ _ Rx HbX) as Ex. rewrite Rabs_pos_eq in Ex by exact HX2.
  pose proof (rounds_error _ _ Ry HbY) as Ey. rewrite Rabs_pos_eq in Ey by exact HY2.
  pose proof (rounds_finite _ _ Rx HbX) as Fx.
  pose proof (rounds_finite _ _ Ry HbY) as Fy.
  (* the sum *)
  pose proof (add_rounds sx sy (rounds_proper _ _ Rx) (rounds_proper _ _ Ry) Fx Fy) as Rs.
  assert (Hs0 : 0 <= B2R (B32.add sx sy)).
  { apply nonneg_B2R, add_nonneg; apply mul_self_nonneg. }
  set (s := B32.add sx sy) in *.
  assert (Hbs : Rabs (B2R sx + B2R sy) < bpow 127).
  { rewrite Rabs_pos_eq by lra. bpow_lits. unfold A in *. lra. }
  pose proof (rounds_error _ _ Rs Hbs) as Es. rewrite Rabs_pos_eq in Es by lra.
  pose proof (rounds_finite _ _ Rs Hbs) as Fs.
  (* the root *)
  pose proof (sqrt_rounds s (rounds_proper _ _ Rs) Fs Hs0) as Rm.
  pose proof (sqrt_finite s (rounds_proper _ _ Rs) Fs Hs0) as Fm.
  split; [exact (rounds_proper _ _ Rm)|]. split; [exact Fm|].
  destruct Rm as (_ & _ & Em & _). specialize (Em Fm). apply Rabs_le_inv in Em.
  rewrite (Rabs_pos_eq (sqrt (B2R s))) in Em by apply sqrt_pos.
  assert (Hlo : M * (1 - 2 * bpow (-23)) <= sqrt (B2R s)).
  { apply sqrt_ge.
    - apply Rmult_le_pos; [exact HM0|]. bpow_lits. lra.
    - replace (M * (1 - 2 * bpow (-23)) * (M * (1 - 2 * bpow (-23))))
        with (A * ((1 - 2 * bpow (-23)) * (1 - 2 * bpow (-23))))
        by (rewrite <- HMM; ring).
      bpow_lits. unfold A in *. lra. }
  assert (Hhi : sqrt (B2R s) <= M * (1 + 2 * bpow (-23))).
  { apply sqrt_le; [exact Hs0| |].
    - apply Rmult_le_pos; [exact HM0|]. bpow_lits. lra.
    - replace (M * (1 + 2 * bpow (-23)) * (M * (1 + 2 * bpow (-23))))
        with (A * ((1 + 2 * bpow (-23)) * (1 + 2 * bpow (-23))))
        by (rewrite <- HMM; ring).
      bpow_lits. unfold A in *. lra. }
  bpow_lits. lra.
Qed.
End Magnitude.

Section Normalized.
Local Open Scope R_scope.

(** Dividing by an approximation [m] of [M] instead of [M]. *)
Lemma quotient_error (X M m d : R) :
  0 < M -> Rabs X <= M -> - (d * M) <= m - M <= d * M -> 0 <= d <= / 9 ->
  0 < m /\ - (9 / 8 * d) <= X / m - X / M <= 9 / 8 * d.
Proof.
  intros HM HX Hm Hd.
  assert (Hm0 : M * (1 - d) <= m) by lra.
  assert (Hmpos : 0 < m) by nra.
  split; [exact Hmpos|].
  set (t := X / m). set (c := X / M).
  assert (Ht : t * m = X) by (unfold t; field; lra).
  assert (Hc : c * M = X) by (unfold c; field; lra).
  assert (Hc1 : -1 <= c <= 1).
  { apply Rabs_le_inv in HX. split.
    - apply Rmult_le_reg_r with M; [exact HM|]. rewrite Hc. lra.
    - apply Rmult_le_reg_r with M; [exact HM|]. rewrite Hc. lra. }
  assert (Heq : (t - c) * m = c * (M - m)) by (rewrite <- Hc in Ht; lra).
  assert (Hcm : - (d * M) <= c * (M - m) <= d * M).
  { assert (- (d * M) <= M - m <= d * M) by lra. nra. }
  assert (HK : d * M <= 9 / 8 * d * m).
  { assert (d * M * (8 / 9) <= d * m); [|lra].
    assert (M * (8 / 9) <= m) by nra.
    replace (d * M * (8 / 9)) with (d * (M * (8 / 9))) by ring.
    apply Rmult_le_compat_l; lra. }
  split.
  - apply Rmult_le_reg_r with m; [exact Hmpos|]. rewrite Heq. lra.
  - apply Rmult_le_reg_r with m; [exact Hmpos|]. rewrite Heq. lra.
Qed.

Lemma component_le_norm_x v : Rabs (B2R (vx v)) <= norm v.
Proof.
  pose proof (norm_square v) as Hsq. pose proof (norm_nonneg v) as H0.
  apply Rabs_le. split.
  - destruct (Rle_dec (- norm v) (B2R (vx v))); [lra|exfalso]. nra.
  - destruct (Rle_dec (B2R (vx v)) (norm v)); [lra|exfalso]. nra.
Qed.

Lemma component_le_norm_y v : Rabs (B2R (vy v)) <= norm v.
Proof.
  pose proof (norm_square v) as Hsq. pose proof (norm_nonneg v) as H0.
  apply Rabs_le. split.
  - destruct (Rle_dec (- norm v) (B2R (vy v))); [lra|exfalso]. nra.
  - destruct (Rle_dec (B2R (vy v)) (norm v)); [lra|exfalso]. nra.
Qed.

(** One coordinate of [normalized()]: the quotient by the magnitude, in
    binary32, is within [6 * 2^-23] of the exact quotient by the length. *)
Lemma unit_component (x mag : B32.t) (X M : R) :
  proper x = true -> B32.is_finite x = true ->
  proper mag = true -> B32.is_finite mag = true ->
  B2R x = X -> Rabs X <= M -> bpow (-61) <= M ->
  - (bpow (-21) * M) <= B2R mag - M <= bpow (-21) * M ->
  proper (B32.div x mag) = true
  /\ B32.is_finite (B32.div x mag) = true
  /\ - (6 * bpow (-23)) <= B2R (B32.div x mag) - X / M <= 6 * bpow (-23).
Proof.
  intros Hpx Hfx Hpm Hfm HX HXM HM Hmag.
  assert (HM0 : 0 < M) by (pose proof (bpow_pos (-61)); lra).
  destruct (quotient_error X M (B2R mag) (bpow (-21)) HM0 HXM Hmag) as [Hm0 Hq].
  { bpow_lits. lra. }
  assert (Hz : B32.is_zero mag = false) by (apply nonzero_float; lra).
  pose proof (div_rounds x mag Hpx Hpm Hfx Hfm Hz) as Rq. rewrite HX in Rq.
  assert (Hc1 : -1 <= X / M <= 1).
  { apply Rabs_le_inv in HXM. split.
    - apply Rmult_le_reg_r with M; [exact HM0|].
      replace (X / M * M) with X by (field; lra). lra.
    - apply Rmult_le_reg_r with M; [exact HM0|].
      replace (X / M * M) with X by (field; lra). lra. }
  assert (Hq2 : Rabs (X / B2R mag) <= 2).
  { apply Rabs_le. bpow_lits. lra. }
  assert (Hb : Rabs (X / B2R mag) < bpow 127) by (bpow_lits; lra).
  pose proof (rounds_error _ _ Rq Hb) as Eq.
  split; [exact (rounds_proper _ _ Rq)|]. split; [exact (rounds_finite _ _ Rq Hb)|].
  assert (Hq3 : Rabs (X / B2R mag) <= 1 + 9 / 8 * bpow (-21)).
  { apply Rabs_le. lra. }
  bpow_lits. lra.
Qed.
End Normalized.

Section Renormalised.
Local Open Scope R_scope.

Lemma abs_le_of_square (c K : R) : 0 <= K -> c * c <= K * K -> - K <= c <= K.
Proof.
  intros HK Hsq. split.
  - destruct (Rle_dec (- K) c); [lra|exfalso]. nra.
  - destruct (Rle_dec c K); [lra|exfalso]. nra.
Qed.

(** The length of a vector of length [N] whose coordinates are moved by at
    most [t] each. *)
Lemma norm_perturbed (a b da db N t : R) :
  a * a + b * b = N * N -> 0 <= N ->
  - t <= da <= t -> - t <= db <= t -> 0 <= t <= N / 4 ->
  N - 2 * t <= sqrt ((a + da) * (a + da) + (b + db) * (b + db)) <= N + 3 / 2 * t.
Proof.
  intros Hab HN Hda Hdb Ht.
  set (cross := a * da + b * db).
  assert (Hid : cross * cross + (a * db - b * da) * (a * db - b * da)
                = (a * a + b * b) * (da * da + db * db)) by (unfold cross; ring).
  assert (Hsq0 : 0 <= (a * db - b * da) * (a * db - b * da))
    by (apply (Rle_0_sqr (a * db - b * da))).
  assert (Hda2 : da * da <= t * t) by nra.
  assert (Hdb2 : db * db <= t * t) by nra.
  assert (HNN : 0 <= N * N) by nra.
  assert (Hcs : cross * cross <= (3 / 2 * N * t) * (3 / 2 * N * t)).
  { rewrite Hab in Hid.
    assert (N * N * (da * da + db * db) <= N * N * (2 * (t * t))).
    { apply Rmult_le_compat_l; [exact HNN|lra]. }
    assert (0 <= N * N * (t * t)) by (apply Rmult_le_pos; nra).
    nra. }
  assert (Hcross : - (3 / 2 * N * t) <= cross <= 3 / 2 * N * t).
  { apply abs_le_of_square; [|exact Hcs].
    apply Rmult_le_pos; [|lra]. apply Rmult_le_pos; lra. }
  assert (HQ : (a + da) * (a + da) + (b + db) * (b + db)
               = N * N + 2 * cross + (da * da + db * db))
    by (unfold cross; rewrite <- Hab; ring).
  assert (Htt : t * t <= N / 4 * t) by (apply Rmult_le_compat_r; lra).
  assert (Hdd0 : 0 <= da * da + db * db) by nra.
  rewrite HQ. split.
  - apply sqrt_ge; [lra|].
    replace ((N - 2 * t) * (N - 2 * t)) with (N * N - 4 * (N * t) + 4 * (t * t)) by ring.
    replace (N / 4 * t) with (N * t / 4) in Htt by field.
    replace (3 / 2 * N * t) with (3 / 2 * (N * t)) in Hcross by field.
    lra.
  - apply sqrt_le; [| |].
    + replace (3 / 2 * N * t) with (3 / 2 * (N * t)) in Hcross by field.
      replace (N / 4 * t) with (N * t / 4) in Htt by field.
      assert (0 <= N * t) by (apply Rmult_le_pos; lra).
      assert (0 <= t * t) by nra.
      assert (Hlow : N * N - 4 * (N * t) + 4 * (t * t) = (N - 2 * t) * (N - 2 * t)) by ring.
      assert (0 <= (N - 2 * t) * (N - 2 * t)) by nra.
      lra.
    + lra.
    + replace ((N + 3 / 2 * t) * (N + 3 / 2 * t))
        with (N * N + 3 * (N * t) + 9 / 4 * (t * t)) by field.
      replace (3 / 2 * N * t) with (3 / 2 * (N * t)) in Hcross by field.
      assert (0 <= t * t) by nra. lra.
Qed.

Lemma lightSpeed_value :
  proper (lightSpeed (F := B32.t)) = true
  /\ B32.is_finite (lightSpeed (F := B32.t)) = true
  /\ B2R lightSpeed = 200.
Proof.
  split; [reflexivity|]. split; [reflexivity|].
  change (lightSpeed (F := B32.t)) with (S754_finite false 13107200 (-16)).
  cbn [B2R]. bpow_lits. lra.
Qed.

(** A coordinate of [normalized() * lightSpeed]. *)
Lemma scaled_component (n : B32.t) (c : R) :
  proper n = true -> B32.is_finite n = true ->
  -1 <= c <= 1 ->
  - (6 * bpow (-23)) <= B2R n - c <= 6 * bpow (-23) ->
  proper (B32.mul n lightSpeed) = true
  /\ B32.is_finite (B32.mul n lightSpeed) = true
  /\ - (1402 * bpow (-23)) <= B2R (B32.mul n lightSpeed) - 200 * c
     <= 1402 * bpow (-23).
Proof.
  intros Hp Hf Hc Hn.
  destruct lightSpeed_value as (HpL & HfL & HL).
  pose proof (mul_rounds n lightSpeed Hp HpL Hf HfL) as Rm. rewrite HL in Rm.
  assert (Hn2 : Rabs (B2R n * 200) <= 201).
  { apply Rabs_le. bpow_lits. lra. }
  assert (Hb : Rabs (B2R n * 200) < bpow 127) by (bpow_lits; lra).
  pose proof (rounds_error _ _ Rm Hb) as Em.
  split; [exact (rounds_proper _ _ Rm)|]. split; [exact (rounds_finite _ _ Rm Hb)|].
  bpow_lits. lra.
Qed.

(** [normalized() * lightSpeed] has magnitude 200 within [3700 * 2^-23],
    in binary32, for every vector whose length lies between [2^-61] and
    [2^61]. *)
Lemma renormalised_speed_b32 (v : Vector2f B32.t) :
  proper_vector v = true -> finite_vector v = true ->
  bpow (-61) <= norm v <= bpow 61 ->
  proper (magnitude (vscale (normalized v) lightSpeed)) = true
  /\ B32.is_finite (magnitude (vscale (normalized v) lightSpeed)) = true
  /\ finite_vector (vscale (normalized v) lightSpeed) = true
  /\ - (3700 * bpow (-23))
     <= B2R (magnitude (vscale (normalized v) lightSpeed)) - 200
     <= 3700 * bpow (-23).
Proof.
  intros Hp Hf HM.
  destruct (magnitude_value v Hp Hf HM) as (Hpm & Hfm & Hmag).
  pose proof Hp as Hp'. pose proof Hf as Hf'.
  apply andb_prop in Hp' as [Hpx Hpy]. apply andb_prop in Hf' as [Hfx Hfy].
  set (M := norm v) in *.
  assert (HM0 : 0 < M) by (pose proof (bpow_pos (-61)); lra).
  assert (Hguard : B32.ltb (B32.of_Z 0) (magnitude v) = true).
  { apply positive_float. bpow_lits. lra. }
  unfold normalized. cbn [fltb of_int fdiv binary32_ops]. rewrite Hguard.
  destruct (unit_component (vx v) (magnitude v) (B2R (vx v)) M
              Hpx Hfx Hpm Hfm eq_refl (component_le_norm_x v) (proj1 HM) Hmag)
    as (Hpnx & Hfnx & Enx).
  destruct (unit_component (vy v) (magnitude v) (B2R (vy v)) M
              Hpy Hfy Hpm Hfm eq_refl (component_le_norm_y v) (proj1 HM) Hmag)
    as (Hpny & Hfny & Eny).
  set (nx := B32.div (vx v) (magnitude v)) in *.
  set (ny := B32.div (vy v) (magnitude v)) in *.
  set (cx := B2R (vx v) / M) in *. set (cy := B2R (vy v) / M) in *.
  assert (Hunit : cx * cx + cy * cy = 1).
  { unfold cx, cy. pose proof (norm_square v) as Hsq. fold M in Hsq.
    replace (B2R (vx v) / M * (B2R (vx v) / M) + B2R (vy v) / M * (B2R (vy v) / M))
      with ((B2R (vx v) * B2R (vx v) + B2R (vy v) * B2R (vy v)) / (M * M))
      by (field; lra).
    rewrite <- Hsq. field. lra. }
  assert (Hcx : -1 <= cx <= 1) by (apply abs_le_of_square; nra).
  assert (Hcy : -1 <= cy <= 1) by (apply abs_le_of_square; nra).
  destruct (scaled_component nx cx Hpnx Hfnx Hcx Enx) as (Hpwx & Hfwx & Ewx).
  destruct (scaled_component ny cy Hpny Hfny Hcy Eny) as (Hpwy & Hfwy & Ewy).
  unfold vscale. cbn [vx vy fmul binary32_ops].
  set (wx := B32.mul nx lightSpeed) in *. set (wy := B32.mul ny lightSpeed) in *.
  set (w := mkVector2f wx wy).
  assert (Hnw : 200 - 2 * (1402 * bpow (-23)) <= norm w
                <= 200 + 3 / 2 * (1402 * bpow (-23))).
  { unfold norm, w. cbn [vx vy].
    replace (B2R wx) with (200 * cx + (B2R wx - 200 * cx)) by ring.
    replace (B2R wy) with (200 * cy + (B2R wy - 200 * cy)) by ring.
    apply norm_perturbed.
    - replace (200 * cx * (200 * cx) + 200 * cy * (200 * cy))
        with (200 * 200 * (cx * cx + cy * cy)) by ring.
      rewrite Hunit. ring.
    - lra.
    - exact Ewx.
    - exact Ewy.
    - bpow_lits. lra. }
  assert (Hpw : proper_vector w = true)
    by (unfold proper_vector, w; cbn [vx vy]; now rewrite Hpwx, Hpwy).
  assert (Hfw : finite_vector w = true)
    by (unfold finite_vector, w; cbn [vx vy]; now rewrite Hfwx, Hfwy).
  assert (Hrange : bpow (-61) <= norm w <= bpow 61) by (bpow_lits; lra).
  destruct (magnitude_value w Hpw Hfw Hrange) as (Hpmw & Hfmw & Emw).
  split; [exact Hpmw|]. split; [exact Hfmw|]. split; [exact Hfw|].
  bpow_lits. lra.
Qed.
End Renormalised.

Section Ranges.
Local Open Scope R_scope.

Lemma range_low_value :
  proper range_low = true /\ B32.is_finite range_low = true
  /\ B2R range_low = bpow (-60).
Proof.
  split; [reflexivity|]. split; [reflexivity|].
  unfold range_low. cbn [B2R]. bpow_lits. lra.
Qed.

Lemma range_high_value :
  proper range_high = true /\ B32.is_finite range_high = true
  /\ B2R range_high = bpow 60.
Proof.
  split; [reflexivity|]. split; [reflexivity|].
  unfold range_high. cbn [B2R]. bpow_lits. lra.
Qed.

Lemma leb_finite lo hi x :
  B32.is_finite lo = true -> B32.is_finite hi = true ->
  B32.leb lo x = true -> B32.leb x hi = true -> B32.is_finite x = true.
Proof.
  destruct lo as [sl|sl| |sl ml el], hi as [sh|sh| |sh mh eh]; try discriminate;
    destruct x as [s|[]| |s m e]; cbn; intros _ _ H1 H2;
    try reflexivity; try discriminate;
    try (destruct sl; discriminate); try (destruct sh; discriminate).
Qed.

Lemma in_range_spec x :
  proper x = true -> in_range x = true ->
  B32.is_finite x = true /\ bpow (-60) <= B2R x <= bpow 60.
Proof.
  intros Hp Hr. apply andb_prop in Hr as [Hlo Hhi].
  destruct range_low_value as (Hpl & Hfl & Hvl).
  destruct range_high_value as (Hph & Hfh & Hvh).
  pose proof (leb_finite _ _ _ Hfl Hfh Hlo Hhi) as Hf.
  split; [exact Hf|].
  apply (leb_spec _ _ Hpl Hp Hfl Hf) in Hlo.
  apply (leb_spec _ _ Hp Hph Hf Hfh) in Hhi. lra.
Qed.

Lemma in_range_intro x :
  proper x = true -> B32.is_finite x = true ->
  bpow (-60) <= B2R x <= bpow 60 -> in_range x = true.
Proof.
  intros Hp Hf [Hlo Hhi].
  destruct range_low_value as (Hpl & Hfl & Hvl).
  destruct range_high_value as (Hph & Hfh & Hvh).
  unfold in_range. apply andb_true_intro. split.
  - apply (leb_spec _ _ Hpl Hp Hfl Hf). lra.
  - apply (leb_spec _ _ Hp Hph Hf Hfh). lra.
Qed.

(** *** From the magnitude back to the coordinates *)

Lemma sqrt_finite_inv s : B32.is_finite (B32.sqrt s) = true -> B32.is_finite s = true.
Proof. destruct s as [s|[]| |[] m e]; cbn; intros H; try reflexivity; discriminate. Qed.

Lemma add_finite_inv a b :
  B32.is_finite (B32.add a b) = true ->
  B32.is_finite a = true /\ B32.is_finite b = true.
Proof.
  destruct a as [sa|sa| |sa ma ea], b as [sb|sb| |sb mb eb];
    cbn -[binary_normalize shl_align]; intros H;
    try (split; reflexivity); try discriminate;
    destruct sa, sb; discriminate.
Qed.

Lemma mul_self_finite_inv x :
  B32.is_finite (B32.mul x x) = true -> B32.is_finite x = true.
Proof. destruct x as [s|s| |s m e]; cbn -[binary_round_aux]; intros H; try reflexivity; discriminate. Qed.

Lemma rounds_error_finite r z :
  rounds_to r z -> B32.is_finite r = true ->
  - (bpow (-23) * Rabs z + bpow (-149)) <= B2R r - z
  <= bpow (-23) * Rabs z + bpow (-149).
Proof. intros (_ & _ & Herr & _) Hf. apply Rabs_le_inv, Herr, Hf. Qed.

Lemma magnitude_proper (v : Vector2f B32.t) :
  proper_vector v = true -> proper (magnitude v) = true.
Proof.
  intros Hp. apply andb_prop in Hp as [Hx Hy].
  unfold magnitude. cbn [fsqrt fadd fmul binary32_ops].
  apply sqrt_proper, add_proper; apply mul_proper; assumption.
Qed.

(** When [magnitude()] comes out between [2^-60] and [2^60], the
    coordinates are finite and the length lies between [2^-61] and
    [2^61]. *)
Lemma magnitude_range_inv (v : Vector2f B32.t) :
  proper_vector v = true -> in_range (magnitude v) = true ->
  finite_vector v = true /\ bpow (-61) <= norm v <= bpow 61.
Proof.
  intros Hp Hr.
  destruct (in_range_spec _ (magnitude_proper v Hp) Hr) as [Hfm Hm].
  apply andb_prop in Hp as [Hpx Hpy].
  unfold magnitude in Hfm, Hm. cbn [fsqrt fadd fmul binary32_ops] in Hfm, Hm.
  pose proof (sqrt_finite_inv _ Hfm) as Hfs.
  destruct (add_finite_inv _ _ Hfs) as [Hfsx Hfsy].
  pose proof (mul_self_finite_inv _ Hfsx) as Hfx.
  pose proof (mul_self_finite_inv _ Hfsy) as Hfy.
  split; [unfold finite_vector; now rewrite Hfx, Hfy|].
  pose proof (norm_square v) as HMM. pose proof (norm_nonneg v) as HM0.
  set (M := norm v) in *. set (X := B2R (vx v)) in *. set (Y := B2R (vy v)) in *.
  assert (HX2 : 0 <= X * X) by nra. assert (HY2 : 0 <= Y * Y) by nra.
  pose proof (mul_rounds _ _ Hpx Hpx Hfx Hfx) as Rx. fold X in Rx.
  pose proof (mul_rounds _ _ Hpy Hpy Hfy Hfy) as Ry. fold Y in Ry.
  pose proof (nonneg_B2R _ (mul_self_nonneg (vx v))) as Hsx0.
  pose proof (nonneg_B2R _ (mul_self_nonneg (vy v))) as Hsy0.
  set (sx := B32.mul (vx v) (vx v)) in *. set (sy := B32.mul (vy v) (vy v)) in *.
  pose proof (rounds_error_finite _ _ Rx Hfsx) as Ex.
  rewrite Rabs_pos_eq in Ex by exact HX2.
  pose proof (rounds_error_finite _ _ Ry Hfsy) as Ey.
  rewrite Rabs_pos_eq in Ey by exact HY2.
  pose proof (add_rounds sx sy (rounds_proper _ _ Rx) (rounds_proper _ _ Ry) Hfsx Hfsy) as Rs.
  assert (Hs0 : 0 <= B2R (B32.add sx sy)).
  { apply nonneg_B2R, add_nonneg; apply mul_self_nonneg. }
  set (s := B32.add sx sy) in *.
  pose proof (rounds_error_finite _ _ Rs Hfs) as Es.
  rewrite Rabs_pos_eq in Es by lra.
  pose proof (sqrt_rounds s (rounds_proper _ _ Rs) Hfs Hs0) as Rm.
  pose proof (rounds_error_finite _ _ Rm Hfm) as Em.
  rewrite (Rabs_pos_eq (sqrt (B2R s))) in Em by apply sqrt_pos.
  pose proof (sqrt_sqrt (B2R s) Hs0) as Hss. pose proof (sqrt_pos (B2R s)) as Hq0.
  set (q := sqrt (B2R s)) in *.
  assert (Hqlo : bpow (-61) * (3 / 2) <= q) by (bpow_lits; lra).
  assert (Hqhi : q <= bpow 60 * (5 / 4)) by (bpow_lits; lra).
  assert (HSlo : bpow (-61) * (3 / 2) * (bpow (-61) * (3 / 2)) <= B2R s).
  { rewrite <- Hss. apply square_le. pose proof (bpow_pos (-61)). lra. }
  assert (HShi : B2R s <= bpow 60 * (5 / 4) * (bpow 60 * (5 / 4))).
  { rewrite <- Hss. apply square_le. lra. }
  subst X Y. split.
  - apply sqrt_ge; [apply Rlt_le, bpow_pos|]. bpow_lits. lra.
  - apply sqrt_le; [lra|apply Rlt_le, bpow_pos|]. bpow_lits. lra.
Qed.
End Ranges.

Section ProperUpdate.
Local Open Scope R_scope.

Lemma of_Z_proper (z : Z) : proper (B32.of_Z z) = true.
Proof.
  unfold B32.of_Z.
  destruct (binary_normalize_rounds z 0) as (Hp & _).
  exact Hp.
Qed.

Lemma flit_proper (n d : Z) : proper (flit (F := B32.t) n d) = true.
Proof.
  unfold flit. cbn [fdiv of_int binary32_ops].
  apply div_proper; apply of_Z_proper.
Qed.

Lemma vsub_proper (a b : Vector2f B32.t) :
  proper_vector a = true -> proper_vector b = true -> proper_vector (vsub a b) = true.
Proof.
  intros Ha Hb. apply andb_prop in Ha as [Hax Hay]. apply andb_prop in Hb as [Hbx Hby].
  unfold proper_vector, vsub. cbn [vx vy fsub binary32_ops].
  now rewrite !sub_proper.
Qed.

Lemma vadd_proper (a b : Vector2f B32.t) :
  proper_vector a = true -> proper_vector b = true -> proper_vector (vadd a b) = true.
Proof.
  intros Ha Hb. apply andb_prop in Ha as [Hax Hay]. apply andb_prop in Hb as [Hbx Hby].
  unfold proper_vector, vadd. cbn [vx vy fadd binary32_ops].
  now rewrite !add_proper.
Qed.

Lemma vscale_proper (a : Vector2f B32.t) (k : B32.t) :
  proper_vector a = true -> proper k = true -> proper_vector (vscale a k) = true.
Proof.
  intros Ha Hk. apply andb_prop in Ha as [Hax Hay].
  unfold proper_vector, vscale. cbn [vx vy fmul binary32_ops].
  now rewrite !mul_proper.
Qed.

Lemma normalized_proper (a : Vector2f B32.t) :
  proper_vector a = true -> proper_vector (normalized a) = true.
Proof.
  intros Ha. pose proof (magnitude_proper a Ha) as Hm.
  apply andb_prop in Ha as [Hax Hay].
  unfold normalized. cbn [fltb fdiv of_int binary32_ops].
  destruct (B32.ltb (B32.of_Z 0) (magnitude a)).
  - unfold proper_vector. cbn [vx vy]. now rewrite !div_proper.
  - reflexivity.
Qed.

Lemma proper_hole_spec bh :
  proper_hole bh = true ->
  proper_vector (position bh) = true /\ proper (mass bh) = true
  /\ proper (schwarzschildRadius bh) = true.
Proof.
  intros Hh. apply andb_prop in Hh as [Hh Hr]. apply andb_prop in Hh as [Hp Hm].
  auto.
Qed.

Lemma proper_ray_spec r :
  proper_ray r = true ->
  proper_vector (currentPosition r) = true /\ proper_vector (currentVelocity r) = true
  /\ proper (impactParameter r) = true.
Proof.
  intros Hh. apply andb_prop in Hh as [Hh Hr]. apply andb_prop in Hh as [Hp Hm].
  auto.
Qed.

Lemma toBlackHole_proper bh r :
  proper_hole bh = true -> proper_ray r = true ->
  proper_vector (toBlackHole bh r) = true.
Proof.
  intros Hh Hr. apply proper_hole_spec in Hh as (Hp & _).
  apply proper_ray_spec in Hr as (Hc & _).
  unfold toBlackHole, getPosition. now apply vsub_proper.
Qed.

Lemma distance_proper bh r :
  proper_hole bh = true -> proper_ray r = true -> proper (distance bh r) = true.
Proof. intros Hh Hr. apply magnitude_proper, toBlackHole_proper; assumption. Qed.

Lemma gravitationalConstant_proper bh :
  proper_hole bh = true -> proper (gravitationalConstant bh) = true.
Proof.
  intros Hh. apply proper_hole_spec in Hh as (_ & Hm & _).
  unfold gravitationalConstant, getMass. cbn [fmul of_int binary32_ops].
  apply mul_proper; [exact Hm|apply of_Z_proper].
Qed.

Lemma acceleration_proper bh r :
  proper_hole bh = true -> proper_ray r = true ->
  proper_vector (acceleration bh r) = true.
Proof.
  intros Hh Hr.
  pose proof (distance_proper bh r Hh Hr) as Hd.
  pose proof (gravitationalConstant_proper bh Hh) as HG.
  pose proof (toBlackHole_proper bh r Hh Hr) as Ht.
  destruct (proper_ray_spec r Hr) as (_ & _ & Hb).
  unfold acceleration. apply vscale_proper; [apply vscale_proper|].
  - now apply normalized_proper.
  - unfold gravityDenominator. cbn [fdiv fmul binary32_ops].
    apply div_proper; [exact HG|now apply mul_proper].
  - unfold deflectionFactor, deflectionDenominator.
    cbn [fadd fdiv fmul of_int binary32_ops].
    apply add_proper; [apply of_Z_proper|].
    apply div_proper.
    + apply mul_proper; [exact HG|apply flit_proper].
    + apply add_proper; [now apply mul_proper|apply of_Z_proper].
Qed.

Lemma integratedVelocity_proper bh dt r :
  proper_hole bh = true -> proper dt = true -> proper_ray r = true ->
  proper_vector (integratedVelocity bh dt r) = true.
Proof.
  intros Hh Hdt Hr. destruct (proper_ray_spec r Hr) as (_ & Hv & _).
  unfold integratedVelocity. apply vadd_proper; [exact Hv|].
  apply vscale_proper; [now apply acceleration_proper|exact Hdt].
Qed.

Lemma speed_tolerance_value :
  proper speed_tolerance = true /\ B32.is_finite speed_tolerance = true
  /\ B2R speed_tolerance = bpow (-11).
Proof.
  split; [reflexivity|]. split; [reflexivity|].
  unfold speed_tolerance. cbn [B2R]. bpow_lits. lra.
Qed.

(** The speed error of a vector whose magnitude is within [3700 * 2^-23]
    of 200 is at most 2^-11, as computed in binary32. *)
Lemma speed_error_small (m : B32.t) :
  proper m = true -> B32.is_finite m = true ->
  - (3700 * bpow (-23)) <= B2R m - 200 <= 3700 * bpow (-23) ->
  B32.leb (B32.abs (B32.sub m lightSpeed)) speed_tolerance = true.
Proof.
  intros Hp Hf Hm.
  destruct lightSpeed_value as (HpL & HfL & HL).
  destruct speed_tolerance_value as (Hpt & Hft & Ht).
  pose proof (sub_rounds m lightSpeed Hp HpL Hf HfL) as Rs. rewrite HL in Rs.
  assert (Hz : Rabs (B2R m - 200) <= 3700 * bpow (-23)) by (apply Rabs_le; lra).
  assert (Hb : Rabs (B2R m - 200) < bpow 127) by (bpow_lits; lra).
  pose proof (rounds_error _ _ Rs Hb) as Es.
  pose proof (rounds_finite _ _ Rs Hb) as Hfs.
  pose proof (rounds_proper _ _ Rs) as Hps.
  assert (Hpa : proper (B32.abs (B32.sub m lightSpeed)) = true)
    by (rewrite proper_abs; exact Hps).
  apply (leb_spec _ _ Hpa Hpt).
  - now rewrite is_finite_abs.
  - exact Hft.
  - rewrite B2R_abs, Ht. apply Rabs_le. bpow_lits. lra.
Qed.

(** [update] of a ray in flight that the call does not absorb, in binary32:
    when the magnitude of the integrated velocity comes out between 2^-60
    and 2^60, the speed afterwards is 200 within 2^-11. *)
Lemma update_speed_b32 bh dt r :
  proper_hole bh = true -> proper dt = true -> proper_ray r = true ->
  absorbed r = false -> captured bh r = false ->
  in_range (magnitude (integratedVelocity bh dt r)) = true ->
  absorbed (LightRay_update bh dt r) = false
  /\ B32.is_finite (magnitude (currentVelocity (LightRay_update bh dt r))) = true
  /\ B32.leb (Nominal.speed_error (LightRay_update bh dt r)) speed_tolerance = true.
Proof.
  intros Hh Hdt Hr Ha Hc Hrange.
  destruct (update_free bh dt r Ha Hc) as (Hflag & Hvel & _).
  split; [exact Hflag|].
  pose proof (integratedVelocity_proper bh dt r Hh Hdt Hr) as Hpv.
  destruct (magnitude_range_inv _ Hpv Hrange) as [Hfv Hn].
  destruct (renormalised_speed_b32 _ Hpv Hfv Hn) as (Hpm & Hfm & _ & Em).
  unfold Nominal.speed_error. rewrite Hvel.
  split; [exact Hfm|].
  cbn [fabs fsub binary32_ops]. now apply speed_error_small.
Qed.
End ProperUpdate.

Section Bounds.
Local Open Scope R_scope.

Lemma rounds_within r z K :
  rounds_to r z -> Rabs z <= K -> bpow (-125) <= K <= bpow 126 ->
  bounded_by r (2 * K).
Proof.
  intros Rr Hz HK.
  assert (Hb : Rabs z < bpow 127) by (revert HK; bpow_lits; lra).
  pose proof (rounds_error _ _ Rr Hb) as Er.
  split; [exact (rounds_proper _ _ Rr)|]. split; [exact (rounds_finite _ _ Rr Hb)|].
  apply Rabs_le_inv in Hz. apply Rabs_le.
  assert (Hz' : Rabs z <= K) by (apply Rabs_le; lra).
  revert HK Er. bpow_lits. lra.
Qed.

Lemma rounds_above r z k :
  rounds_to r z -> Rabs z < bpow 127 -> bpow (-125) <= k -> k <= z ->
  k / 2 <= B2R r.
Proof.
  intros Rr Hb Hk Hz.
  pose proof (rounds_error _ _ Rr Hb) as Er.
  assert (H0 : 0 < k) by (pose proof (bpow_pos (-125)); lra).
  rewrite Rabs_pos_eq in Er by lra.
  revert Hk Er. bpow_lits. lra.
Qed.

Lemma abs_mul_le a b Ka Kb :
  Rabs a <= Ka -> Rabs b <= Kb -> Rabs (a * b) <= Ka * Kb.
Proof.
  intros Ha Hb. rewrite Rabs_mult.
  apply Rmult_le_compat; try apply Rabs_pos; assumption.
Qed.

Lemma abs_div_le a b Ka kb :
  Rabs a <= Ka -> 0 < kb <= b -> Rabs (a / b) <= Ka / kb.
Proof.
  intros Ha [Hk Hb]. unfold Rdiv. rewrite Rabs_mult.
  assert (Hb0 : 0 < b) by lra.
  rewrite (Rabs_pos_eq (/ b)) by (apply Rlt_le, Rinv_0_lt_compat; exact Hb0).
  apply Rmult_le_compat; try apply Rabs_pos.
  - apply Rlt_le, Rinv_0_lt_compat; exact Hb0.
  - exact Ha.
  - apply Rinv_le_contravar; assumption.
Qed.

Lemma bounded_weaken x K K' : bounded_by x K -> K <= K' -> bounded_by x K'.
Proof. intros (Hp & Hf & Hb) HK. repeat split; try assumption. lra. Qed.

Lemma mul_within x y Kx Ky :
  bounded_by x Kx -> bounded_by y Ky -> bpow (-125) <= Kx * Ky <= bpow 126 ->
  bounded_by (B32.mul x y) (2 * (Kx * Ky)).
Proof.
  intros (Hpx & Hfx & Hx) (Hpy & Hfy & Hy) HK.
  apply (rounds_within _ (B2R x * B2R y)); [now apply mul_rounds| |exact HK].
  now apply abs_mul_le.
Qed.

Lemma div_within x y Kx ky :
  bounded_by x Kx -> proper y = true -> B32.is_finite y = true ->
  0 < ky <= B2R y -> bpow (-125) <= Kx / ky <= bpow 126 ->
  bounded_by (B32.div x y) (2 * (Kx / ky)).
Proof.
  intros (Hpx & Hfx & Hx) Hpy Hfy Hy HK.
  assert (Hz : B32.is_zero y = false) by (apply nonzero_float; lra).
  apply (rounds_within _ (B2R x / B2R y)); [now apply div_rounds| |exact HK].
  now apply abs_div_le.
Qed.

Lemma add_within x y Kx Ky :
  bounded_by x Kx -> bounded_by y Ky -> bpow (-125) <= Kx + Ky <= bpow 126 ->
  bounded_by (B32.add x y) (2 * (Kx + Ky)).
Proof.
  intros (Hpx & Hfx & Hx) (Hpy & Hfy & Hy) HK.
  apply (rounds_within _ (B2R x + B2R y)); [now apply add_rounds| |exact HK].
  pose proof (Rabs_triang (B2R x) (B2R y)). lra.
Qed.

(** *** The constants of [update] and of the constructor *)

Lemma hundredth_value :
  proper (flit (F := B32.t) 1 100) = true
  /\ B32.is_finite (flit (F := B32.t) 1 100) = true
  /\ bpow (-7) <= B2R (flit 1 100) <= bpow (-6).
Proof.
  split; [reflexivity|]. split; [reflexivity|].
  change (flit (F := B32.t) 1 100) with (S754_finite false 10737418 (-30)).
  cbn [B2R]. bpow_lits. lra.
Qed.

Lemma thousandth_value :
  bounded_by (flit (F := B32.t) 1 1000) (bpow (-9)).
Proof.
  split; [reflexivity|]. split; [reflexivity|].
  change (flit (F := B32.t) 1 1000) with (S754_finite false 8589935 (-33)).
  cbn [B2R]. apply Rabs_le. bpow_lits. lra.
Qed.

Lemma ten_thousand_value : bounded_by (B32.of_Z 10000) (bpow 14).
Proof.
  split; [reflexivity|]. split; [reflexivity|].
  change (B32.of_Z 10000) with (S754_finite false 10240000 (-10)).
  cbn [B2R]. apply Rabs_le. bpow_lits. lra.
Qed.

Lemma one_value :
  proper (B32.of_Z 1) = true /\ B32.is_finite (B32.of_Z 1) = true
  /\ B2R (B32.of_Z 1) = 1.
Proof.
  split; [reflexivity|]. split; [reflexivity|].
  change (B32.of_Z 1) with (S754_finite false 8388608 (-23)).
  cbn [B2R]. bpow_lits. lra.
Qed.

Lemma zero_value :
  proper (B32.of_Z 0) = true /\ B32.is_finite (B32.of_Z 0) = true
  /\ B2R (B32.of_Z 0) = 0.
Proof. repeat split; reflexivity. Qed.

Lemma mass_low_value :
  proper mass_low = true /\ B32.is_finite mass_low = true
  /\ B2R mass_low = bpow (-16).
Proof.
  split; [reflexivity|]. split; [reflexivity|].
  unfold mass_low. cbn [B2R]. bpow_lits. lra.
Qed.

Lemma mass_high_value :
  proper mass_high = true /\ B32.is_finite mass_high = true
  /\ B2R mass_high = bpow 16.
Proof.
  split; [reflexivity|]. split; [reflexivity|].
  unfold mass_high. cbn [B2R]. bpow_lits. lra.
Qed.

Lemma far_value :
  proper far = true /\ B32.is_finite far = true /\ B2R far = bpow 40.
Proof.
  split; [reflexivity|]. split; [reflexivity|].
  unfold far. cbn [B2R]. bpow_lits. lra.
Qed.

Lemma moderate_mass_spec m :
  proper m = true -> moderate_mass m = true ->
  B32.is_finite m = true /\ bpow (-16) <= B2R m <= bpow 16.
Proof.
  intros Hp Hm. apply andb_prop in Hm as [Hlo Hhi].
  destruct mass_low_value as (Hpl & Hfl & Hvl).
  destruct mass_high_value as (Hph & Hfh & Hvh).
  pose proof (leb_finite _ _ _ Hfl Hfh Hlo Hhi) as Hf.
  split; [exact Hf|].
  apply (leb_spec _ _ Hpl Hp Hfl Hf) in Hlo.
  apply (leb_spec _ _ Hp Hph Hf Hfh) in Hhi. lra.
Qed.

Lemma within_reach_spec x :
  proper x = true -> within_reach x = true ->
  B32.is_finite x = true /\ 0 <= B2R x <= bpow 40.
Proof.
  intros Hp Hm. apply andb_prop in Hm as [Hlo Hhi].
  cbn [of_int binary32_ops] in Hlo.
  destruct zero_value as (Hpl & Hfl & Hvl).
  destruct far_value as (Hph & Hfh & Hvh).
  pose proof (leb_finite _ _ _ Hfl Hfh Hlo Hhi) as Hf.
  split; [exact Hf|].
  apply (leb_spec _ _ Hpl Hp Hfl Hf) in Hlo.
  apply (leb_spec _ _ Hp Hph Hf Hfh) in Hhi. lra.
Qed.

(** A float with a clear sign that is at most a finite float is finite. *)
Lemma nonneg_leb_finite x hi :
  B32.nonneg x = true -> B32.is_finite hi = true -> B32.leb x hi = true ->
  B32.is_finite x = true.
Proof.
  destruct hi as [sh|sh| |sh mh eh]; try discriminate;
    destruct x as [s|[]| |s m e]; cbn; intros Hn _ Hl;
    try reflexivity; try discriminate.
Qed.
End Bounds.

Section SafeDivisions.
Local Open Scope R_scope.

Lemma constructed_hole_proper (pos : Vector2f B32.t) (m : B32.t) :
  proper_vector pos = true -> proper m = true ->
  proper_hole (BlackHole_new pos m) = true.
Proof.
  intros Hp Hm. unfold proper_hole, BlackHole_new. cbn [position mass schwarzschildRadius].
  rewrite Hp, Hm. cbn [andb fmul binary32_ops].
  apply mul_proper; [exact Hm|apply flit_proper].
Qed.

(** The Schwarzschild radius of a source of moderate mass is at least
    2^-24. *)
Lemma radius_value (pos : Vector2f B32.t) (m : B32.t) :
  proper m = true -> moderate_mass m = true ->
  proper (getSchwarzschildRadius (BlackHole_new pos m)) = true
  /\ B32.is_finite (getSchwarzschildRadius (BlackHole_new pos m)) = true
  /\ bpow (-24) <= B2R (getSchwarzschildRadius (BlackHole_new pos m)).
Proof.
  intros Hp Hm. destruct (moderate_mass_spec m Hp Hm) as [Hf Hv].
  destruct hundredth_value as (Hpc & Hfc & Hc).
  unfold getSchwarzschildRadius, BlackHole_new. cbn [schwarzschildRadius fmul binary32_ops].
  pose proof (mul_rounds m _ Hp Hpc Hf Hfc) as Rr.
  set (c := B2R (flit 1 100)) in *. set (M := B2R m) in *.
  assert (Hlo : bpow (-23) <= M * c).
  { replace (bpow (-23)) with (bpow (-16) * bpow (-7))
      by (rewrite <- bpow_add; reflexivity).
    apply Rmult_le_compat; try (apply Rlt_le, bpow_pos); lra. }
  assert (Hhi : M * c <= bpow 10).
  { replace (bpow 10) with (bpow 16 * bpow (-6))
      by (rewrite <- bpow_add; reflexivity).
    pose proof (bpow_pos (-16)). pose proof (bpow_pos (-7)).
    apply Rmult_le_compat; lra. }
  assert (Hb : Rabs (M * c) < bpow 127).
  { pose proof (bpow_pos (-23)). rewrite Rabs_pos_eq by lra.
    revert Hhi. bpow_lits. lra. }
  split; [exact (rounds_proper _ _ Rr)|]. split; [exact (rounds_finite _ _ Rr Hb)|].
  pose proof (rounds_above _ _ (bpow (-23)) Rr Hb) as Ha.
  replace (bpow (-24)) with (bpow (-23) / 2).
  - apply Ha; [bpow_lits; lra|exact Hlo].
  - bpow_lits. lra.
Qed.

(** [update] in binary32, for a source of moderate mass built by the
    constructor and a ray that the capture test lets pass, no further than
    2^40 from the source and with an impact parameter between 0 and 2^40:
    both divisors are finite and above zero and the acceleration is
    finite. *)
Lemma divisions_safe_b32 (pos : Vector2f B32.t) (m : B32.t) (r : LightRay B32.t) :
  proper_vector pos = true -> proper m = true -> proper_ray r = true ->
  moderate_mass m = true ->
  captured (BlackHole_new pos m) r = false ->
  B32.leb (distance (BlackHole_new pos m) r) far = true ->
  within_reach (impactParameter r) = true ->
  divisions_safe (BlackHole_new pos m) r = true.
Proof.
  intros Hpp Hpm Hpr Hmass Hcap Hfar Hreach.
  set (bh := BlackHole_new pos m) in *.
  pose proof (constructed_hole_proper pos m Hpp Hpm) as Hph. fold bh in Hph.
  destruct (radius_value pos m Hpm Hmass) as (Hprad & Hfrad & Hrad). fold bh in Hprad, Hfrad, Hrad.
  destruct (moderate_mass_spec m Hpm Hmass) as [Hfm Hm].
  destruct (proper_ray_spec r Hpr) as (_ & _ & Hpb).
  destruct (within_reach_spec _ Hpb Hreach) as [Hfb Hb].
  destruct far_value as (Hpfar & Hffar & Hvfar).
  pose proof (toBlackHole_proper bh r Hph Hpr) as Hpt.
  pose proof (distance_proper bh r Hph Hpr) as Hpd.
  assert (Hfd : B32.is_finite (distance bh r) = true).
  { apply (nonneg_leb_finite _ far); [apply magnitude_nonneg|exact Hffar|exact Hfar]. }
  apply (leb_spec _ _ Hpd Hpfar Hfd Hffar) in Hfar. rewrite Hvfar in Hfar.
  unfold captured in Hcap. cbn [fltb binary32_ops] in Hcap.
  apply (ltb_false_spec _ _ Hpd Hprad Hfd Hfrad) in Hcap.
  assert (Hrange : in_range (distance bh r) = true).
  { apply in_range_intro; [exact Hpd|exact Hfd|]. revert Hrad Hcap Hfar. bpow_lits. lra. }
  destruct (magnitude_range_inv _ Hpt Hrange) as [Hft Hnorm].
  destruct (magnitude_value _ Hpt Hft Hnorm) as (_ & _ & Hmag).
  fold (distance bh r) in Hmag.
  (* the constants *)
  destruct one_value as (Hp1 & Hf1 & H1).
  pose proof ten_thousand_value as B10000. pose proof thousandth_value as B1000.
  (* distance * distance *)
  assert (Bd : bounded_by (distance bh r) (bpow 40)).
  { split; [exact Hpd|]. split; [exact Hfd|]. apply Rabs_le.
    pose proof (bpow_pos (-24)). lra. }
  pose proof (mul_rounds _ _ Hpd Hpd Hfd Hfd) as Rgd.
  assert (Hgdlo : bpow (-48) <= B2R (distance bh r) * B2R (distance bh r)).
  { replace (bpow (-48)) with (bpow (-24) * bpow (-24))
      by (rewrite <- bpow_add; reflexivity).
    pose proof (bpow_pos (-24)). apply Rmult_le_compat; lra. }
  assert (Bgd : bounded_by (B32.mul (distance bh r) (distance bh r)) (2 * (bpow 40 * bpow 40))).
  { apply mul_within; [exact Bd|exact Bd|]. bpow_lits. lra. }
  assert (Hgd : bpow (-49) <= B2R (B32.mul (distance bh r) (distance bh r))).
  { replace (bpow (-49)) with (bpow (-48) / 2) by (bpow_lits; lra).
    apply (rounds_above _ _ _ Rgd); [|bpow_lits; lra|exact Hgdlo].
    eapply Rle_lt_trans; [apply abs_mul_le; apply Bd|]. bpow_lits. lra. }
  (* distance * impactParameter + 1 *)
  assert (Bb : bounded_by (impactParameter r) (bpow 40)).
  { split; [exact Hpb|]. split; [exact Hfb|]. apply Rabs_le. lra. }
  pose proof (mul_rounds _ _ Hpd Hpb Hfd Hfb) as Rp.
  assert (Bp : bounded_by (B32.mul (distance bh r) (impactParameter r))
                 (2 * (bpow 40 * bpow 40))).
  { apply mul_within; [exact Bd|exact Bb|]. bpow_lits. lra. }
  assert (Hp0 : 0 <= B2R (distance bh r) * B2R (impactParameter r)).
  { pose proof (bpow_pos (-24)). apply Rmult_le_pos; lra. }
  assert (Hplo : - bpow (-149) <= B2R (B32.mul (distance bh r) (impactParameter r))).
  { assert (Hbp : Rabs (B2R (distance bh r) * B2R (impactParameter r)) < bpow 127).
    { eapply Rle_lt_trans; [apply abs_mul_le; [apply Bd|apply Bb]|]. bpow_lits. lra. }
    pose proof (rounds_error _ _ Rp Hbp) as Ep.
    rewrite Rabs_pos_eq in Ep by exact Hp0.
    revert Ep. bpow_lits. lra. }
  destruct Bp as (Hpp' & Hfp & Hp).
  pose proof (add_rounds _ _ Hpp' Hp1 Hfp Hf1) as Rdd. rewrite H1 in Rdd.
  assert (Hzdd : Rabs (B2R (B32.mul (distance bh r) (impactParameter r)) + 1)
                 <= 2 * (bpow 40 * bpow 40) + 1).
  { apply Rabs_le_inv in Hp. apply Rabs_le. revert Hp. bpow_lits. lra. }
  assert (Bdd : bounded_by (B32.add (B32.mul (distance bh r) (impactParameter r)) (B32.of_Z 1))
                  (2 * (2 * (bpow 40 * bpow 40) + 1))).
  { apply (rounds_within _ _ _ Rdd); [exact Hzdd|]. bpow_lits. lra. }
  assert (Hdd : / 4 <= B2R (B32.add (B32.mul (distance bh r) (impactParameter r)) (B32.of_Z 1))).
  { replace (/ 4) with ((/ 2) / 2) by lra.
    apply (rounds_above _ _ _ Rdd).
    - eapply Rle_lt_trans; [exact Hzdd|]. bpow_lits. lra.
    - bpow_lits. lra.
    - revert Hplo. bpow_lits. lra. }
  (* gravitationalConstant *)
  assert (Bm : bounded_by m (bpow 16)).
  { split; [exact Hpm|]. split; [exact Hfm|]. apply Rabs_le.
    pose proof (bpow_pos (-16)). lra. }
  assert (BG : bounded_by (B32.mul m (B32.of_Z 10000)) (2 * (bpow 16 * bpow 14))).
  { apply mul_within; [exact Bm|exact B10000|]. bpow_lits. lra. }
  (* gravitationalConstant / (distance * distance) *)
  destruct Bgd as (Hpgd & Hfgd & Hgdhi).
  assert (Bg : bounded_by (B32.div (B32.mul m (B32.of_Z 10000))
                             (B32.mul (distance bh r) (distance bh r)))
                 (2 * (2 * (bpow 16 * bpow 14) / bpow (-49)))).
  { apply div_within; [exact BG|exact Hpgd|exact Hfgd| |].
    - split; [apply bpow_pos|exact Hgd].
    - bpow_lits. lra. }
  (* the deflection factor *)
  assert (BG' : bounded_by (B32.mul (B32.mul m (B32.of_Z 10000)) (flit 1 1000))
                  (2 * (2 * (bpow 16 * bpow 14) * bpow (-9)))).
  { apply mul_within; [exact BG|exact B1000|]. bpow_lits. lra. }
  destruct Bdd as (Hpdd & Hfdd & Hddhi).
  assert (Bq : bounded_by
                 (B32.div (B32.mul (B32.mul m (B32.of_Z 10000)) (flit 1 1000))
                    (B32.add (B32.mul (distance bh r) (impactParameter r)) (B32.of_Z 1)))
                 (2 * (2 * (2 * (bpow 16 * bpow 14) * bpow (-9)) / / 4))).
  { apply div_within; [exact BG'|exact Hpdd|exact Hfdd| |].
    - split; [lra|exact Hdd].
    - bpow_lits. lra. }
  assert (B1 : bounded_by (B32.of_Z 1) 1).
  { split; [exact Hp1|]. split; [exact Hf1|]. rewrite H1. apply Rabs_le. lra. }
  assert (Bf : bounded_by
                 (B32.add (B32.of_Z 1)
                    (B32.div (B32.mul (B32.mul m (B32.of_Z 10000)) (flit 1 1000))
                       (B32.add (B32.mul (distance bh r) (impactParameter r))
                          (B32.of_Z 1))))
                 (bpow 28)).
  { eapply bounded_weaken; [apply add_within; [exact B1|exact Bq|]|];
      bpow_lits; lra. }
  (* the direction *)
  assert (HM0 : 0 < norm (toBlackHole bh r)) by (pose proof (bpow_pos (-61)); lra).
  assert (Hd0 : 0 < B2R (distance bh r)) by (pose proof (bpow_pos (-24)); lra).
  assert (Hguard : B32.ltb (B32.of_Z 0) (distance bh r) = true)
    by (apply positive_float; exact Hd0).
  pose proof Hpt as Hpt'. pose proof Hft as Hft'.
  apply andb_prop in Hpt' as [Hptx Hpty]. apply andb_prop in Hft' as [Hftx Hfty].
  destruct (unit_component (vx (toBlackHole bh r)) (distance bh r) _ _
              Hptx Hftx Hpd Hfd eq_refl (component_le_norm_x _) (proj1 Hnorm) Hmag)
    as (Hpnx & Hfnx & Enx).
  destruct (unit_component (vy (toBlackHole bh r)) (distance bh r) _ _
              Hpty Hfty Hpd Hfd eq_refl (component_le_norm_y _) (proj1 Hnorm) Hmag)
    as (Hpny & Hfny & Eny).
  assert (Hcx : Rabs (B2R (vx (toBlackHole bh r)) / norm (toBlackHole bh r)) <= 1).
  { replace 1 with (norm (toBlackHole bh r) / norm (toBlackHole bh r)) by (field; lra).
    apply abs_div_le; [apply component_le_norm_x|lra]. }
  assert (Hcy : Rabs (B2R (vy (toBlackHole bh r)) / norm (toBlackHole bh r)) <= 1).
  { replace 1 with (norm (toBlackHole bh r) / norm (toBlackHole bh r)) by (field; lra).
    apply abs_div_le; [apply component_le_norm_y|lra]. }
  assert (Bnx : bounded_by (B32.div (vx (toBlackHole bh r)) (distance bh r)) 2).
  { split; [exact Hpnx|]. split; [exact Hfnx|].
    apply Rabs_le_inv in Hcx. apply Rabs_le. revert Enx. bpow_lits. lra. }
  assert (Bny : bounded_by (B32.div (vy (toBlackHole bh r)) (distance bh r)) 2).
  { split; [exact Hpny|]. split; [exact Hfny|].
    apply Rabs_le_inv in Hcy. apply Rabs_le. revert Eny. bpow_lits. lra. }
  (* the acceleration *)
  assert (Hacc : forall n, bounded_by n 2 ->
            B32.is_finite
              (B32.mul
                 (B32.mul n (B32.div (B32.mul m (B32.of_Z 10000))
                                     (B32.mul (distance bh r) (distance bh r))))
                 (B32.add (B32.of_Z 1)
                    (B32.div (B32.mul (B32.mul m (B32.of_Z 10000)) (flit 1 1000))
                       (B32.add (B32.mul (distance bh r) (impactParameter r))
                          (B32.of_Z 1))))) = true).
  { intros n Bn.
    assert (Ba1 : bounded_by
                    (B32.mul n (B32.div (B32.mul m (B32.of_Z 10000))
                                        (B32.mul (distance bh r) (distance bh r))))
                    (2 * (2 * (2 * (2 * (bpow 16 * bpow 14) / bpow (-49)))))).
    { apply mul_within; [exact Bn|exact Bg|]. bpow_lits. lra. }
    assert (Ba : bounded_by
                   (B32.mul
                      (B32.mul n (B32.div (B32.mul m (B32.of_Z 10000))
                                          (B32.mul (distance bh r) (distance bh r))))
                      (B32.add (B32.of_Z 1)
                         (B32.div (B32.mul (B32.mul m (B32.of_Z 10000)) (flit 1 1000))
                            (B32.add (B32.mul (distance bh r) (impactParameter r))
                               (B32.of_Z 1)))))
                   (2 * (2 * (2 * (2 * (2 * (bpow 16 * bpow 14) / bpow (-49))))
                         * bpow 28))).
    { apply mul_within; [exact Ba1|exact Bf|]. bpow_lits. lra. }
    apply Ba. }
  unfold divisions_safe.
  unfold acceleration, deflectionFactor, deflectionDenominator, gravityDenominator,
    gravitationalConstant, getMass, normalized.
  fold (distance bh r).
  cbn [fltb fadd fmul fdiv of_int binary32_ops]. rewrite Hguard.
  unfold finite_vector, vscale. cbn [vx vy fmul binary32_ops].
  replace (mass bh) with m by reflexivity.
  rewrite Hfgd, Hfdd, (Hacc _ Bnx), (Hacc _ Bny).
  rewrite (positive_float _ (Rlt_le_trans _ _ _ (bpow_pos (-49)) Hgd)).
  assert (Hddpos : 0 < B2R (B32.add (B32.mul (distance bh r) (impactParameter r))
                              (B32.of_Z 1))) by lra.
  rewrite (positive_float _ Hddpos). reflexivity.
Qed.
End SafeDivisions.

Section UnitVector.
Local Open Scope R_scope.

Lemma unit_tolerance_value :
  proper unit_tolerance = true /\ B32.is_finite unit_tolerance = true
  /\ B2R unit_tolerance = bpow (-18).
Proof.
  split; [reflexivity|]. split; [reflexivity|].
  unfold unit_tolerance. cbn [B2R]. bpow_lits. lra.
Qed.

(** [normalized()] of a vector whose magnitude comes out between 2^-60 and
    2^60 has finite coordinates and a magnitude within 2^-18 of 1, in
    binary32. *)
Lemma normalized_unit_b32 (v : Vector2f B32.t) :
  proper_vector v = true -> in_range (magnitude v) = true ->
  finite_vector (normalized v) = true
  /\ B32.leb (B32.abs (B32.sub (magnitude (normalized v)) (B32.of_Z 1)))
       unit_tolerance = true.
Proof.
  intros Hp Hrange.
  destruct (magnitude_range_inv v Hp Hrange) as [Hf HM].
  destruct (magnitude_value v Hp Hf HM) as (Hpm & Hfm & Hmag).
  pose proof Hp as Hp'. pose proof Hf as Hf'.
  apply andb_prop in Hp' as [Hpx Hpy]. apply andb_prop in Hf' as [Hfx Hfy].
  set (M := norm v) in *.
  assert (HM0 : 0 < M) by (pose proof (bpow_pos (-61)); lra).
  assert (Hguard : B32.ltb (B32.of_Z 0) (magnitude v) = true).
  { apply positive_float. revert Hmag. bpow_lits. lra. }
  unfold normalized. cbn [fltb of_int fdiv binary32_ops]. rewrite Hguard.
  destruct (unit_component (vx v) (magnitude v) (B2R (vx v)) M
              Hpx Hfx Hpm Hfm eq_refl (component_le_norm_x v) (proj1 HM) Hmag)
    as (Hpnx & Hfnx & Enx).
  destruct (unit_component (vy v) (magnitude v) (B2R (vy v)) M
              Hpy Hfy Hpm Hfm eq_refl (component_le_norm_y v) (proj1 HM) Hmag)
    as (Hpny & Hfny & Eny).
  set (nx := B32.div (vx v) (magnitude v)) in *.
  set (ny := B32.div (vy v) (magnitude v)) in *.
  set (cx := B2R (vx v) / M) in *. set (cy := B2R (vy v) / M) in *.
  assert (Hunit : cx * cx + cy * cy = 1 * 1).
  { unfold cx, cy. pose proof (norm_square v) as Hsq. fold M in Hsq.
    replace (B2R (vx v) / M * (B2R (vx v) / M) + B2R (vy v) / M * (B2R (vy v) / M))
      with ((B2R (vx v) * B2R (vx v) + B2R (vy v) * B2R (vy v)) / (M * M))
      by (field; lra).
    rewrite <- Hsq. field. lra. }
  set (w := mkVector2f nx ny).
  assert (Hnw : 1 - 2 * (6 * bpow (-23)) <= norm w <= 1 + 3 / 2 * (6 * bpow (-23))).
  { unfold norm, w. cbn [vx vy].
    replace (B2R nx) with (cx + (B2R nx - cx)) by ring.
    replace (B2R ny) with (cy + (B2R ny - cy)) by ring.
    apply norm_perturbed; [exact Hunit|lra|exact Enx|exact Eny|].
    bpow_lits. lra. }
  assert (Hpw : proper_vector w = true)
    by (unfold proper_vector, w; cbn [vx vy]; now rewrite Hpnx, Hpny).
  assert (Hfw : finite_vector w = true)
    by (unfold finite_vector, w; cbn [vx vy]; now rewrite Hfnx, Hfny).
  assert (Hrw : bpow (-61) <= norm w <= bpow 61) by (revert Hnw; bpow_lits; lra).
  destruct (magnitude_value w Hpw Hfw Hrw) as (Hpmw & Hfmw & Emw).
  split; [exact Hfw|].
  destruct one_value as (Hp1 & Hf1 & H1).
  destruct unit_tolerance_value as (Hpt & Hft & Ht).
  pose proof (sub_rounds (magnitude w) (B32.of_Z 1) Hpmw Hp1 Hfmw Hf1) as Rs.
  rewrite H1 in Rs.
  assert (Hz : Rabs (B2R (magnitude w) - 1) <= 40 * bpow (-23)).
  { apply Rabs_le. revert Hnw Emw. bpow_lits. lra. }
  assert (Hb : Rabs (B2R (magnitude w) - 1) < bpow 127)
    by (revert Hz; bpow_lits; lra).
  pose proof (rounds_error _ _ Rs Hb) as Es.
  pose proof (rounds_finite _ _ Rs Hb) as Hfs.
  pose proof (rounds_proper _ _ Rs) as Hps.
  assert (Hpa : proper (B32.abs (B32.sub (magnitude w) (B32.of_Z 1))) = true)
    by (rewrite proper_abs; exact Hps).
  apply (leb_spec _ _ Hpa Hpt).
  - now rewrite is_finite_abs.
  - exact Hft.
  - rewrite B2R_abs, Ht. apply Rabs_le. revert Hz Es. bpow_lits. lra.
Qed.
End UnitVector.

(** *** The direction of the acceleration *)

Section Direction.

Lemma div_nonneg x y :
  B32.nonneg x = true -> B32.nonneg y = true -> B32.nonneg (B32.div x y) = true.
Proof.
  destruct x as [[]|[]| |[] mx ex], y as [[]|[]| |[] my ey];
    cbn -[SFdiv_core_binary binary_round_aux]; intros Hx Hy;
    try discriminate; try reflexivity.
  destruct (SFdiv_core_binary _ _ _ _ _ _) as [[mz ez] lz]. apply round_aux_nonneg.
Qed.

(** A rounded result is below zero only with the sign bit set, and above
    zero only with the sign bit clear. *)
Lemma round_aux_side sx m e l :
  (below_zero (binary_round_aux B32.prec B32.emax sx m e l) = true -> sx = true)
  /\ (above_zero (binary_round_aux B32.prec B32.emax sx m e l) = true -> sx = false).
Proof.
  pose proof (binary_round_aux_sign B32.prec B32.emax sx m e l) as Hs.
  destruct (binary_round_aux B32.prec B32.emax sx m e l) as [s|s| |s mm ee];
    try subst s; destruct sx; cbn; split; intros H; try reflexivity; discriminate.
Qed.

(** A product with a factor of clear sign lies on the side of zero of the
    other factor, when it lies on a side at all. *)
Lemma mul_side x y :
  B32.nonneg y = true ->
  (below_zero (B32.mul x y) = true -> below_zero x = true)
  /\ (above_zero (B32.mul x y) = true -> above_zero x = true).
Proof.
  destruct x as [sx|sx| |sx mx ex], y as [[]|[]| |[] my ey];
    try discriminate; intros _;
    try (cbn; split; intros H; discriminate);
    try (destruct sx; cbn; split; intros H; try reflexivity; discriminate).
  cbn -[binary_round_aux]. rewrite xorb_false_r.
  destruct (round_aux_side sx (Z.pos (mx * my)) (ex + ey) loc_Exact) as [Hn Hp].
  split; intros H; [apply Hn in H|apply Hp in H]; subst sx; reflexivity.
Qed.

(** The same for a quotient by a divisor of clear sign. *)
Lemma div_side x y :
  B32.nonneg y = true ->
  (below_zero (B32.div x y) = true -> below_zero x = true)
  /\ (above_zero (B32.div x y) = true -> above_zero x = true).
Proof.
  destruct x as [sx|sx| |sx mx ex], y as [[]|[]| |[] my ey];
    try discriminate; intros _;
    try (cbn; split; intros H; discriminate);
    try (destruct sx; cbn; split; intros H; try reflexivity; discriminate).
  cbn -[SFdiv_core_binary binary_round_aux]. rewrite xorb_false_r.
  destruct (SFdiv_core_binary _ _ _ _ _ _) as [[mz ez] lz].
  destruct (round_aux_side sx mz ez lz) as [Hn Hp].
  split; intros H; [apply Hn in H|apply Hp in H]; subst sx; reflexivity.
Qed.

Lemma gravitationalConstant_nonneg (bh : BlackHole B32.t) :
  B32.nonneg (getMass bh) = true -> B32.nonneg (gravitationalConstant bh) = true.
Proof.
  intros Hm. unfold gravitationalConstant. cbn [fmul of_int binary32_ops].
  apply mul_nonneg; [exact Hm|reflexivity].
Qed.

Lemma inverse_square_nonneg (bh : BlackHole B32.t) (r : LightRay B32.t) :
  B32.nonneg (getMass bh) = true ->
  B32.nonneg (fdiv (gravitationalConstant bh) (gravityDenominator bh r)) = true.
Proof.
  intros Hm. cbn [fdiv binary32_ops].
  apply div_nonneg; [now apply gravitationalConstant_nonneg|].
  unfold gravityDenominator. cbn [fmul binary32_ops]. apply mul_self_nonneg.
Qed.

Lemma deflectionFactor_nonneg (bh : BlackHole B32.t) (r : LightRay B32.t) :
  B32.nonneg (getMass bh) = true -> B32.nonneg (impactParameter r) = true ->
  B32.nonneg (deflectionFactor bh r) = true.
Proof.
  intros Hm Hb. unfold deflectionFactor, deflectionDenominator.
  cbn [fadd fdiv fmul of_int binary32_ops].
  apply add_nonneg; [reflexivity|]. apply div_nonneg.
  - apply mul_nonneg; [now apply gravitationalConstant_nonneg|reflexivity].
  - apply add_nonneg; [|reflexivity].
    apply mul_nonneg; [apply magnitude_nonneg|exact Hb].
Qed.

(** A coordinate of [normalized()] lies on the side of zero of the
    coordinate it comes from, when it lies on a side at all. *)
Lemma normalized_side (v : Vector2f B32.t) :
  ((below_zero (vx (normalized v)) = true -> below_zero (vx v) = true)
   /\ (above_zero (vx (normalized v)) = true -> above_zero (vx v) = true))
  /\ ((below_zero (vy (normalized v)) = true -> below_zero (vy v) = true)
      /\ (above_zero (vy (normalized v)) = true -> above_zero (vy v) = true)).
Proof.
  unfold normalized. cbn [fltb fdiv of_int binary32_ops].
  destruct (B32.ltb (B32.of_Z 0) (magnitude v)); cbn [vx vy].
  - split; apply div_side, magnitude_nonneg.
  - repeat split; intros H; discriminate.
Qed.

(** Each coordinate of the acceleration lies on the side of zero of the
    matching coordinate of the vector to the source, when it lies on a
    side at all. *)
Lemma acceleration_side (bh : BlackHole B32.t) (r : LightRay B32.t) :
  B32.nonneg (getMass bh) = true -> B32.nonneg (impactParameter r) = true ->
  ((below_zero (vx (acceleration bh r)) = true
    -> below_zero (vx (toBlackHole bh r)) = true)
   /\ (above_zero (vx (acceleration bh r)) = true
       -> above_zero (vx (toBlackHole bh r)) = true))
  /\ ((below_zero (vy (acceleration bh r)) = true
       -> below_zero (vy (toBlackHole bh r)) = true)
      /\ (above_zero (vy (acceleration bh r)) = true
          -> above_zero (vy (toBlackHole bh r)) = true)).
Proof.
  intros Hm Hb.
  pose proof (inverse_square_nonneg bh r Hm) as Hg.
  pose proof (deflectionFactor_nonneg bh r Hm Hb) as Hf.
  destruct (normalized_side (toBlackHole bh r)) as [[Hxn Hxp] [Hyn Hyp]].
  unfold acceleration, vscale. cbn [vx vy fmul binary32_ops].
  set (n := normalized (toBlackHole bh r)) in *.
  set (g := fdiv (gravitationalConstant bh) (gravityDenominator bh r)) in *.
  set (f := deflectionFactor bh r) in *.
  destruct (mul_side (B32.mul (vx n) g) f Hf) as [Hxn2 Hxp2].
  destruct (mul_side (vx n) g Hg) as [Hxn1 Hxp1].
  destruct (mul_side (B32.mul (vy n) g) f Hf) as [Hyn2 Hyp2].
  destruct (mul_side (vy n) g Hg) as [Hyn1 Hyp1].
  repeat split; intros H; auto.
Qed.
End Direction.

(** *** Runs outside the ranges *)

Section Outside.

(** Outside the range of the renormalisation: a velocity of length about
    2^-74, whose squares round in the subnormal range, comes out of
    [update] with coordinates 150 and a magnitude of about 212; a frame of
    2^66 s gives an integrated velocity of infinite magnitude, and the
    velocity (0,0). *)
Lemma speed_lost_outside_the_range :
  (absorbed Extreme.slow = false
   /\ captured Infall.hole Extreme.slow = false
   /\ in_range (magnitude (integratedVelocity Infall.hole (of_int 0) Extreme.slow)) = false
   /\ above_zero (magnitude (integratedVelocity Infall.hole (of_int 0) Extreme.slow)) = true
   /\ currentVelocity (LightRay_update Infall.hole (of_int 0) Extreme.slow)
      = mkVector2f (of_int 150) (of_int 150)
   /\ B32.ltb (of_int 212)
        (magnitude (currentVelocity (LightRay_update Infall.hole (of_int 0) Extreme.slow)))
      = true)
  /\ (absorbed Infall.ray0 = false
      /\ captured Infall.hole Infall.ray0 = false
      /\ magnitude (integratedVelocity Infall.hole Extreme.deltaTime Infall.ray0)
         = S754_infinity false
      /\ currentVelocity (LightRay_update Infall.hole Extreme.deltaTime Infall.ray0)
         = mkVector2f (of_int 0) (of_int 0)).
Proof. vm_compute. repeat split. Qed.
End Outside.

Section SafeSpec.

Lemma divisions_safe_spec (bh : BlackHole B32.t) (r : LightRay B32.t) :
  divisions_safe bh r = true ->
  B32.is_finite (gravityDenominator bh r) = true
  /\ fltb (of_int 0) (gravityDenominator bh r) = true
  /\ B32.is_finite (deflectionDenominator bh r) = true
  /\ fltb (of_int 0) (deflectionDenominator bh r) = true
  /\ finite_vector (acceleration bh r) = true.
Proof.
  unfold divisions_safe. intros H.
  apply andb_prop in H as [H H5]. apply andb_prop in H as [H H4].
  apply andb_prop in H as [H H3]. apply andb_prop in H as [H1 H2].
  auto.
Qed.

Lemma stalled_velocity (bh : BlackHole B32.t) (deltaTime : B32.t) (r : LightRay B32.t) :
  absorbed r = false -> captured bh r = false ->
  fltb (of_int 0) (magnitude (integratedVelocity bh deltaTime r)) = false ->
  currentVelocity (LightRay_update bh deltaTime r) = mkVector2f (of_int 0) (of_int 0).
Proof.
  intros Ha Hc Hz. destruct (update_free bh deltaTime r Ha Hc) as (_ & Hvel & _).
  rewrite Hvel, (normalized_guard _ Hz). reflexivity.
Qed.
End SafeSpec.

(** * The claims *)

(** C1. Once [absorbed] is set, any run of [update] calls (any gravity
    source, any [deltaTime], any number of calls) returns the ray as it was:
    position, velocity, path and the flag itself. A ray that is not absorbed
    becomes absorbed in an [update] exactly when its distance to the gravity
    source is below the Schwarzschild radius, and that call changes nothing
    but the flag. *)
Theorem absorbed_ray_is_frozen :
  forall (F : Type) (ops : FloatOps F) (r : LightRay F),
    (absorbed r = true ->
       forall calls : list (BlackHole F * F), update_all calls r = r)
    /\ (absorbed r = false ->
        forall (bh : BlackHole F) (dt : F),
          (absorbed (LightRay_update bh dt r) = true <-> captured bh r = true)
          /\ (captured bh r = true ->
                LightRay_update bh dt r = mark_absorbed r
                /\ path (LightRay_update bh dt r) = path r
                /\ currentPosition (LightRay_update bh dt r) = currentPosition r
                /\ currentVelocity (LightRay_update bh dt r) = currentVelocity r)).
Proof.
  intros F ops r. split.
  - intros Ha calls. now apply update_all_absorbed.
  - intros Ha bh dt. split.
    + split.
      * intros Hafter. destruct (captured bh r) eqn:Hc; [reflexivity|].
        destruct (update_free bh dt r Ha Hc) as [Hfree _]. congruence.
      * intros Hc. now rewrite update_captured.
    + intros Hc. rewrite update_captured by assumption. now cbn.
Qed.

(** C1 at the end of the direct-infall run: the ray of frame 195 is in flight
    and inside the radius, the next [update] only sets the flag, and the
    absorbed ray of frame 196 is unchanged by two more calls with other
    arguments. *)
Lemma absorbed_ray_is_frozen_witness :
  absorbed (Infall.flight (Infall.frames - 1)) = false
  /\ captured Infall.hole (Infall.flight (Infall.frames - 1)) = true
  /\ LightRay_update Infall.hole Infall.deltaTime (Infall.flight (Infall.frames - 1))
     = mark_absorbed (Infall.flight (Infall.frames - 1))
  /\ absorbed (Infall.flight Infall.frames) = true
  /\ update_all [(Offset.hole, Stall.deltaTime); (Infall.hole, Infall.deltaTime)]
       (Infall.flight Infall.frames)
     = Infall.flight Infall.frames.
Proof.
  destruct infall_captured as (Hlast & Hcap & Hdone).
  split; [exact Hlast|]. split; [exact Hcap|]. split; [|split; [exact Hdone|]].
  - exact (proj1 (proj2 (proj2 (absorbed_ray_is_frozen B32.t binary32_ops
                                  (Infall.flight (Infall.frames - 1))) Hlast
                           Infall.hole Infall.deltaTime) Hcap)).
  - exact (proj1 (absorbed_ray_is_frozen B32.t binary32_ops
                  (Infall.flight Infall.frames)) Hdone _).
Defined.

(** C2, counterexample. A ray at (1100,400) with velocity (200,0), the
    simulation's gravity source and a frame of about 0.1996 s: the ray is in
    flight before and after [update], its speed is 200 before, and its
    velocity is the zero vector after. *)
Lemma speed_drops_to_zero :
  valid_binary B32.prec B32.emax Stall.deltaTime = true
  /\ absorbed Stall.ray = false
  /\ magnitude (currentVelocity Stall.ray) = lightSpeed
  /\ absorbed (LightRay_update Infall.hole Stall.deltaTime Stall.ray) = false
  /\ currentVelocity (LightRay_update Infall.hole Stall.deltaTime Stall.ray)
     = mkVector2f (of_int 0) (of_int 0)
  /\ magnitude (currentVelocity (LightRay_update Infall.hole Stall.deltaTime Stall.ray))
     = of_int 0
  /\ magnitude (currentVelocity (LightRay_update Infall.hole Stall.deltaTime Stall.ray))
     <> lightSpeed.
Proof. vm_compute. repeat split. discriminate. Qed.

(** C2, as amended. In binary32, for a ray in flight that the call does not
    absorb, the ray is in flight after [update], and: when the magnitude of
    the integrated velocity [currentVelocity + acceleration * deltaTime], as
    [update] computes it, lies between 2^-60 and 2^60, the speed after
    [update] is finite and within 2^-11 of 200; when that magnitude is not
    above zero (it is a zero or NaN), the velocity after [update] is the
    zero vector. Outside that range the speed can be lost
    ([speed_lost_outside_the_range]). [proper_hole], [proper] and
    [proper_ray] say that the floats are values of binary32, as every
    [float] is. For every ray the simulation spawns and frames of 1/60 s,
    the speed is within 2^-15 of 200 at each of the 450 frames after which
    the ray is absorbed or off screen. *)
Theorem speed_is_renormalised :
  (forall (bh : BlackHole B32.t) (deltaTime : B32.t) (r : LightRay B32.t),
      proper_hole bh = true -> proper deltaTime = true -> proper_ray r = true ->
      absorbed r = false -> captured bh r = false ->
      absorbed (LightRay_update bh deltaTime r) = false
      /\ (in_range (magnitude (integratedVelocity bh deltaTime r)) = true ->
          B32.is_finite (magnitude (currentVelocity (LightRay_update bh deltaTime r)))
          = true
          /\ B32.leb (Nominal.speed_error (LightRay_update bh deltaTime r))
               speed_tolerance = true)
      /\ (fltb (of_int 0) (magnitude (integratedVelocity bh deltaTime r)) = false ->
          currentVelocity (LightRay_update bh deltaTime r)
          = mkVector2f (of_int 0) (of_int 0)))
  /\ (forall (count : Z) (k : nat),
        (0 <= count)%Z -> (k <= Nominal.frames)%nat ->
        B32.leb (Nominal.speed_error (Nominal.run count k)) Nominal.tolerance
        = true)
  /\ (forall count : Z,
        (0 <= count)%Z ->
        Nominal.gone (Nominal.run count Nominal.frames) = true).
Proof.
  split; [|split].
  - intros bh deltaTime r Hh Hdt Hr Ha Hc.
    split; [exact (proj1 (update_free bh deltaTime r Ha Hc))|]. split.
    + intros Hrange.
      exact (proj2 (update_speed_b32 bh deltaTime r Hh Hdt Hr Ha Hc Hrange)).
    + now apply stalled_velocity.
  - intros count k Hc Hk.
    exact (proj1 (healthy_spec _ (nominal_run_healthy count k Hc Hk))).
  - apply nominal_run_gone.
Qed.

(** C2 for the ray spawned at (-50,400) and the first frame of 1/60 s, whose
    integrated velocity has a magnitude in the range, and for the ray at
    (1100,400) and the frame of about 0.1996 s, whose integrated velocity
    has magnitude zero. *)
Lemma speed_is_renormalised_witness :
  (proper_hole Infall.hole = true
   /\ proper Infall.deltaTime = true
   /\ proper_ray Infall.ray0 = true
   /\ absorbed Infall.ray0 = false
   /\ captured Infall.hole Infall.ray0 = false
   /\ in_range (magnitude (integratedVelocity Infall.hole Infall.deltaTime Infall.ray0))
      = true
   /\ B32.leb (Nominal.speed_error
                 (LightRay_update Infall.hole Infall.deltaTime Infall.ray0))
        speed_tolerance = true)
  /\ (proper Stall.deltaTime = true
      /\ proper_ray Stall.ray = true
      /\ absorbed Stall.ray = false
      /\ captured Infall.hole Stall.ray = false
      /\ fltb (of_int 0)
           (magnitude (integratedVelocity Infall.hole Stall.deltaTime Stall.ray))
         = false
      /\ currentVelocity (LightRay_update Infall.hole Stall.deltaTime Stall.ray)
         = mkVector2f (of_int 0) (of_int 0)).
Proof.
  assert (Hh : proper_hole Infall.hole = true) by (vm_compute; reflexivity).
  assert (Hdt : proper Infall.deltaTime = true) by (vm_compute; reflexivity).
  assert (Hr : proper_ray Infall.ray0 = true) by (vm_compute; reflexivity).
  assert (Ha : absorbed Infall.ray0 = false) by reflexivity.
  assert (Hc : captured Infall.hole Infall.ray0 = false) by (vm_compute; reflexivity).
  assert (Hrange : in_range (magnitude (integratedVelocity Infall.hole Infall.deltaTime
                                          Infall.ray0)) = true)
    by (vm_compute; reflexivity).
  assert (Hdt' : proper Stall.deltaTime = true) by (vm_compute; reflexivity).
  assert (Hr' : proper_ray Stall.ray = true) by (vm_compute; reflexivity).
  assert (Ha' : absorbed Stall.ray = false) by reflexivity.
  assert (Hc' : captured Infall.hole Stall.ray = false) by (vm_compute; reflexivity).
  assert (Hz : fltb (of_int 0)
                 (magnitude (integratedVelocity Infall.hole Stall.deltaTime Stall.ray))
               = false) by (vm_compute; reflexivity).
  split.
  - split; [exact Hh|]. split; [exact Hdt|]. split; [exact Hr|]. split; [exact Ha|].
    split; [exact Hc|]. split; [exact Hrange|].
    exact (proj2 (proj1 (proj2 (proj1 speed_is_renormalised Infall.hole Infall.deltaTime
                                  Infall.ray0 Hh Hdt Hr Ha Hc)) Hrange)).
  - split; [exact Hdt'|]. split; [exact Hr'|]. split; [exact Ha'|].
    split; [exact Hc'|]. split; [exact Hz|].
    exact (proj2 (proj2 (proj1 speed_is_renormalised Infall.hole Stall.deltaTime
                           Stall.ray Hh Hdt' Hr' Ha' Hc')) Hz).
Defined.

(** C3, counterexample. The ray spawned at height 400 has impact parameter
    0, also against a gravity source at height 300, from which its start is
    100 away. *)
Lemma impact_parameter_ignores_the_source :
  impactParameter Infall.ray0 = of_int 0
  /\ fabs (fsub (vy (currentPosition Infall.ray0)) (vy (getPosition Offset.hole)))
     = of_int 100
  /\ impactParameter Infall.ray0
     <> fabs (fsub (vy (currentPosition Infall.ray0)) (vy (getPosition Offset.hole))).
Proof.
  split; [vm_compute; reflexivity|]. split; [vm_compute; reflexivity|].
  vm_compute. discriminate.
Qed.

(** C3, as amended. The impact parameter fixed at construction is
    [|startPos.y - WINDOW_HEIGHT / 2.0f|] and no [update] changes it; it is
    [|startPos.y - position.y|] for the gravity source of the simulation,
    which sits at the height of the window's centre. *)
Theorem impact_parameter_is_height_from_window_centre :
  (forall (F : Type) (ops : FloatOps F) (startPos initialVel : Vector2f F)
          (c : Color) (calls : list (BlackHole F * F)),
      impactParameter (LightRay_new startPos initialVel c)
      = fabs (fsub (vy startPos) (fdiv (of_int WINDOW_HEIGHT) (of_int 2)))
      /\ impactParameter (update_all calls (LightRay_new startPos initialVel c))
         = impactParameter (LightRay_new startPos initialVel c))
  /\ (forall (startPos initialVel : Vector2f B32.t) (c : Color),
        impactParameter (LightRay_new startPos initialVel c)
        = fabs (fsub (vy startPos) (vy (getPosition (blackHole Simulation_new)))))
  /\ (forall (startPos initialVel : Vector2f R) (c : Color),
        impactParameter (LightRay_new startPos initialVel c)
        = fabs (fsub (vy startPos) (vy (getPosition (blackHole Simulation_new))))).
Proof.
  split; [|split].
  - intros F ops startPos initialVel c calls. split; [reflexivity|].
    apply update_all_impactParameter.
  - intros startPos initialVel c. rewrite <- window_centre_b32. reflexivity.
  - intros startPos initialVel c. rewrite <- window_centre_real. reflexivity.
Qed.

(** C4, counterexample. After sixteen spawns the first ray is red and the
    sixteenth is green. *)
Lemma sixteenth_colour_differs :
  exists first sixteenth : LightRay B32.t,
    nth_error sixteenSpawns 0 = Some first
    /\ nth_error sixteenSpawns 15 = Some sixteenth
    /\ color first = sfColor.Red
    /\ color sixteenth = sfColor.Green
    /\ color sixteenth <> color first.
Proof.
  rewrite sixteenSpawns_rays. do 2 eexists.
  split; [reflexivity|]. split; [reflexivity|].
  split; [reflexivity|]. split; [reflexivity|]. discriminate.
Qed.

(** C4, as amended. After sixteen spawns of a fresh simulation the sixteenth
    ray starts where the first did, at (-50,50), and has the colour of the
    second ray, green, the first being red. The start height repeats every
    15 spawns and the colour every 7. *)
Theorem sixteenth_spawn :
  forall (F : Type) (ops : FloatOps F),
    length (sixteenSpawns (F := F)) = 16%nat
    /\ (exists first second sixteenth : LightRay F,
          nth_error sixteenSpawns 0 = Some first
          /\ nth_error sixteenSpawns 1 = Some second
          /\ nth_error sixteenSpawns 15 = Some sixteenth
          /\ currentPosition sixteenth = currentPosition first
          /\ currentPosition first = mkVector2f (of_int (-50)) (of_int 50)
          /\ color first = sfColor.Red
          /\ color second = sfColor.Green
          /\ color sixteenth = color second)
    /\ (forall count : Z, (0 <= count)%Z ->
          spawnHeight (F := F) (count + 15) = spawnHeight count
          /\ spawnColor (count + 7) = spawnColor count).
Proof.
  intros F ops. rewrite sixteenSpawns_rays. split; [reflexivity|]. split.
  - do 3 eexists. repeat (split; [reflexivity|]). reflexivity.
  - intros count Hc. split.
    + now apply spawnHeight_period.
    + now apply spawnColor_period.
Qed.

(** C4 at the first spawn: counts 0 and 15 give one height, counts 0 and 7
    one colour. *)
Lemma sixteenth_spawn_witness :
  (0 <= 0)%Z
  /\ spawnHeight (F := B32.t) (0 + 15) = spawnHeight 0
  /\ spawnColor (0 + 7) = spawnColor 0.
Proof.
  assert (Hc : (0 <= 0)%Z) by lia.
  split; [exact Hc|].
  exact (proj2 (proj2 (sixteenth_spawn B32.t binary32_ops)) 0%Z Hc).
Defined.

(** C5, counterexample. A ray constructed at the height of the
    simulation's gravity source, 2^65 to the left of the window: it is in
    flight, its impact parameter is exactly 0, the distance is infinite and
    the capture test fails, the divisor [distance * impactParameter + 1.0f]
    is NaN and both coordinates of the acceleration are NaN. A source of
    mass 0 and a ray constructed at its place: the capture test fails,
    the divisor [distance * distance] is zero, the quotient is NaN and
    both coordinates of the acceleration are NaN. *)
Lemma unguarded_divisions :
  (proper_ray Remote.ray = true
   /\ absorbed Remote.ray = false
   /\ captured Infall.hole Remote.ray = false
   /\ impactParameter Remote.ray = of_int 0
   /\ distance Infall.hole Remote.ray = S754_infinity false
   /\ deflectionDenominator Infall.hole Remote.ray = S754_nan
   /\ acceleration Infall.hole Remote.ray = mkVector2f S754_nan S754_nan)
  /\ (proper_hole Massless.hole = true
      /\ proper_ray Massless.ray = true
      /\ absorbed Massless.ray = false
      /\ captured Massless.hole Massless.ray = false
      /\ gravityDenominator Massless.hole Massless.ray = of_int 0
      /\ fdiv (gravitationalConstant Massless.hole)
              (gravityDenominator Massless.hole Massless.ray) = S754_nan
      /\ acceleration Massless.hole Massless.ray = mkVector2f S754_nan S754_nan).
Proof. vm_compute. repeat split. Qed.

(** C5, as amended. In binary32, for a gravity source built by the
    constructor with a mass between 2^-16 and 2^16 and a ray in flight that
    the capture test lets pass, at most 2^40 from the source and with an
    impact parameter between 0 and 2^40: the divisors [distance * distance]
    and [distance * impactParameter + 1.0f] are finite and above zero, and
    the acceleration is finite. For every ray built by the constructor and
    updated any number of times, against every source, the second divisor
    is never a zero, and for every ray and source it is exactly 1 when the
    impact parameter is zero and the distance finite; [proper_vector],
    [proper] and [proper_ray] say that the floats are values of binary32,
    as every [float] is. [normalized] of a
    vector whose magnitude is not above zero is the zero vector, no
    division made, in every arithmetic. For every ray the simulation spawns
    and frames of 1/60 s, at each of the 450 frames after which the ray is
    absorbed or off screen, the ray is absorbed or both divisors are finite
    and not zero and the acceleration is finite. *)
Theorem divisions_are_guarded :
  (forall (pos : Vector2f B32.t) (m : B32.t) (r : LightRay B32.t),
      proper_vector pos = true -> proper m = true -> proper_ray r = true ->
      moderate_mass m = true ->
      absorbed r = false -> captured (BlackHole_new pos m) r = false ->
      B32.leb (distance (BlackHole_new pos m) r) far = true ->
      within_reach (impactParameter r) = true ->
      B32.is_finite (gravityDenominator (BlackHole_new pos m) r) = true
      /\ fltb (of_int 0) (gravityDenominator (BlackHole_new pos m) r) = true
      /\ B32.is_finite (deflectionDenominator (BlackHole_new pos m) r) = true
      /\ fltb (of_int 0) (deflectionDenominator (BlackHole_new pos m) r) = true
      /\ finite_vector (acceleration (BlackHole_new pos m) r) = true)
  /\ (forall (startPos initialVel : Vector2f B32.t) (c : Color)
             (calls : list (BlackHole B32.t * B32.t)) (bh : BlackHole B32.t),
        B32.is_zero (deflectionDenominator bh
                       (update_all calls (LightRay_new startPos initialVel c)))
        = false)
  /\ (forall (bh : BlackHole B32.t) (r : LightRay B32.t),
        B32.is_zero (impactParameter r) = true ->
        B32.is_finite (distance bh r) = true ->
        deflectionDenominator bh r = of_int 1)
  /\ (forall (F : Type) (ops : FloatOps F) (v : Vector2f F),
        fltb (of_int 0) (magnitude v) = false ->
        normalized v = mkVector2f (of_int 0) (of_int 0))
  /\ (forall v : Vector2f B32.t,
        B32.is_zero (magnitude v) = true ->
        normalized v = mkVector2f (of_int 0) (of_int 0))
  /\ (forall (count : Z) (k : nat),
        (0 <= count)%Z -> (k <= Nominal.frames)%nat ->
        absorbed (Nominal.run count k) = true
        \/ Infall.divisions_sound (Nominal.run count k) = true).
Proof.
  split; [|split; [|split; [|split; [|split]]]].
  - intros pos m r Hp Hm Hr Hmass _ Hc Hfar Hb.
    apply divisions_safe_spec. now apply divisions_safe_b32.
  - intros startPos initialVel c calls bh.
    apply deflectionDenominator_not_zero_b32, constructed_impact_nonneg_b32.
  - apply deflectionDenominator_one_b32.
  - intros F ops v. apply normalized_guard.
  - apply normalized_zero_b32.
  - intros count k Hc Hk.
    exact (proj2 (healthy_spec _ (nominal_run_healthy count k Hc Hk))).
Qed.

(** C5 for the simulation's gravity source, (600,400) of mass 50, and the
    ray spawned at its height, (-50,400) with impact parameter zero: the
    divisors are finite and above zero, the second is exactly 1, and the
    acceleration is finite. *)
Lemma divisions_are_guarded_witness :
  (proper_vector (mkVector2f (B32.of_Z 600) (B32.of_Z 400)) = true
   /\ proper (B32.of_Z 50) = true
   /\ proper_ray Infall.ray0 = true
   /\ moderate_mass (B32.of_Z 50) = true
   /\ absorbed Infall.ray0 = false
   /\ captured (BlackHole_new (mkVector2f (B32.of_Z 600) (B32.of_Z 400)) (B32.of_Z 50))
        Infall.ray0 = false
   /\ B32.leb (distance (BlackHole_new (mkVector2f (B32.of_Z 600) (B32.of_Z 400))
                           (B32.of_Z 50)) Infall.ray0) far = true
   /\ within_reach (impactParameter Infall.ray0) = true)
  /\ (B32.is_finite (gravityDenominator
                       (BlackHole_new (mkVector2f (B32.of_Z 600) (B32.of_Z 400))
                          (B32.of_Z 50)) Infall.ray0) = true
      /\ fltb (of_int 0)
           (gravityDenominator
              (BlackHole_new (mkVector2f (B32.of_Z 600) (B32.of_Z 400)) (B32.of_Z 50))
              Infall.ray0) = true
      /\ B32.is_finite (deflectionDenominator
                          (BlackHole_new (mkVector2f (B32.of_Z 600) (B32.of_Z 400))
                             (B32.of_Z 50)) Infall.ray0) = true
      /\ fltb (of_int 0)
           (deflectionDenominator
              (BlackHole_new (mkVector2f (B32.of_Z 600) (B32.of_Z 400)) (B32.of_Z 50))
              Infall.ray0) = true
      /\ finite_vector (acceleration
                          (BlackHole_new (mkVector2f (B32.of_Z 600) (B32.of_Z 400))
                             (B32.of_Z 50)) Infall.ray0) = true)
  /\ (B32.is_zero (impactParameter Infall.ray0) = true
      /\ B32.is_finite (distance
                          (BlackHole_new (mkVector2f (B32.of_Z 600) (B32.of_Z 400))
                             (B32.of_Z 50)) Infall.ray0) = true
      /\ deflectionDenominator
           (BlackHole_new (mkVector2f (B32.of_Z 600) (B32.of_Z 400)) (B32.of_Z 50))
           Infall.ray0 = of_int 1).
Proof.
  assert (Hp : proper_vector (mkVector2f (B32.of_Z 600) (B32.of_Z 400)) = true)
    by (vm_compute; reflexivity).
  assert (Hm : proper (B32.of_Z 50) = true) by (vm_compute; reflexivity).
  assert (Hr : proper_ray Infall.ray0 = true) by (vm_compute; reflexivity).
  assert (Hmass : moderate_mass (B32.of_Z 50) = true) by (vm_compute; reflexivity).
  assert (Ha : absorbed Infall.ray0 = false) by reflexivity.
  assert (Hc : captured (BlackHole_new (mkVector2f (B32.of_Z 600) (B32.of_Z 400))
                           (B32.of_Z 50)) Infall.ray0 = false)
    by (vm_compute; reflexivity).
  assert (Hfar : B32.leb (distance (BlackHole_new (mkVector2f (B32.of_Z 600) (B32.of_Z 400))
                                      (B32.of_Z 50)) Infall.ray0) far = true)
    by (vm_compute; reflexivity).
  assert (Hb : within_reach (impactParameter Infall.ray0) = true)
    by (vm_compute; reflexivity).
  assert (Hz : B32.is_zero (impactParameter Infall.ray0) = true)
    by (vm_compute; reflexivity).
  assert (Hd : B32.is_finite (distance
                                (BlackHole_new (mkVector2f (B32.of_Z 600) (B32.of_Z 400))
                                   (B32.of_Z 50)) Infall.ray0) = true)
    by (vm_compute; reflexivity).
  split; [|split].
  - repeat (split; [assumption|]). assumption.
  - exact (proj1 divisions_are_guarded
             (mkVector2f (B32.of_Z 600) (B32.of_Z 400)) (B32.of_Z 50) Infall.ray0
             Hp Hm Hr Hmass Ha Hc Hfar Hb).
  - split; [exact Hz|]. split; [exact Hd|].
    exact (proj1 (proj2 (proj2 divisions_are_guarded))
             (BlackHole_new (mkVector2f (B32.of_Z 600) (B32.of_Z 400)) (B32.of_Z 50))
             Infall.ray0 Hz Hd).
Defined.

(** C6. [isOffScreen] is true exactly when the ray is not absorbed and one
    of the four tests [x > 1300], [x < -100], [y > 900], [y < -100]
    succeeds, which says that the position is not in the frame
    [-100, 1300] x [-100, 900], in exact arithmetic and, for a position
    without NaN, in binary32. It is false for every absorbed ray, so
    the removal step keeps every absorbed ray and an absorbed ray of the
    collection is still in it after a tick; and it is false for every ray
    the simulation spawns. *)
Theorem offscreen_test :
  (forall (F : Type) (ops : FloatOps F) (r : LightRay F),
     (isOffScreen r = true <->
        absorbed r = false
        /\ (fltb (of_int 1300) (vx (currentPosition r)) = true
            \/ fltb (vx (currentPosition r)) (of_int (-100)) = true
            \/ fltb (of_int 900) (vy (currentPosition r)) = true
            \/ fltb (vy (currentPosition r)) (of_int (-100)) = true))
     /\ (absorbed r = true -> isOffScreen r = false)
     /\ (absorbed r = true ->
         forall l : list (LightRay F), In r l -> In r (removeOffScreen l))
     /\ (absorbed r = true ->
         forall (dt : F) (s : Simulation F),
           In r (lightRays s) -> In r (lightRays (update dt s))))
  /\ (forall r : LightRay R,
        isOffScreen r = true <->
        absorbed r = false
        /\ ~ (-100 <= vx (currentPosition r) <= 1300
              /\ -100 <= vy (currentPosition r) <= 900)%R)
  /\ (forall r : LightRay B32.t,
        B32.is_nan (vx (currentPosition r)) = false ->
        B32.is_nan (vy (currentPosition r)) = false ->
        isOffScreen r = negb (absorbed r) && negb (inside_frame (currentPosition r)))
  /\ (forall count : Z, (0 <= count)%Z ->
        isOffScreen (spawnedRay (F := B32.t) count) = false
        /\ isOffScreen (spawnedRay (F := R) count) = false).
Proof.
  split; [|split; [|split]].
  - intros F ops r. split; [apply isOffScreen_tests|]. split; [|split].
    + apply isOffScreen_absorbed.
    + intros Ha l Hin. now apply removeOffScreen_keeps_absorbed.
    + intros Ha dt s Hin. now apply update_keeps_absorbed.
  - apply isOffScreen_real.
  - apply isOffScreen_b32.
  - intros count Hc. split.
    + now apply spawned_ray_on_screen_b32.
    + now apply spawned_ray_on_screen_real.
Qed.

(** C6 for the eighth spawn, the ray at the gravity source's height. *)
Lemma offscreen_test_witness :
  (0 <= 7)%Z
  /\ isOffScreen (spawnedRay (F := B32.t) 7) = false
  /\ isOffScreen (spawnedRay (F := R) 7) = false.
Proof.
  assert (Hc : (0 <= 7)%Z) by lia.
  split; [exact Hc|].
  exact (proj2 (proj2 (proj2 offscreen_test)) 7%Z Hc).
Defined.

(** C7. The gravity source at (600,400) of mass 50, which is the
    simulation's, has Schwarzschild radius 0.5; the ray spawned at (-50,400)
    with velocity (200,0), which is the simulation's eighth, has impact
    parameter 0. With frames of 1/60 the ray is in flight for 195 updates,
    each of which brings it strictly closer to (600,400); the 196th update
    finds it inside the radius and absorbs it, changing nothing else; it is
    absorbed and unchanged after every later update. *)
Theorem direct_infall :
  (Infall.hole = blackHole Simulation_new /\ Infall.ray0 = spawnedRay 7)
  /\ getSchwarzschildRadius Infall.hole = flit 1 2
  /\ impactParameter Infall.ray0 = of_int 0
  /\ (forall k, (k < Infall.frames)%nat -> absorbed (Infall.flight k) = false)
  /\ (forall k, (S k < Infall.frames)%nat ->
        fltb (distance Infall.hole (Infall.flight (S k)))
             (distance Infall.hole (Infall.flight k)) = true)
  /\ captured Infall.hole (Infall.flight (Infall.frames - 1)) = true
  /\ Infall.flight Infall.frames = mark_absorbed (Infall.flight (Infall.frames - 1))
  /\ (forall k, (Infall.frames <= k)%nat ->
        absorbed (Infall.flight k) = true
        /\ Infall.flight k = Infall.flight Infall.frames).
Proof.
  destruct infall_captured as (Hlast & Hcap & Hdone).
  split; [exact infall_is_the_simulation's|].
  split; [vm_compute; reflexivity|]. split; [vm_compute; reflexivity|].
  split; [|split; [|split; [|split]]].
  - intros k Hk.
    destruct (Nat.eq_dec (S k) Infall.frames) as [Heq|Hne].
    + replace k with (Infall.frames - 1)%nat by lia. exact Hlast.
    + pose proof (infall_approaching_at k ltac:(lia)) as Happroach.
      unfold Infall.approaching in Happroach.
      apply andb_true_iff in Happroach as [Hflags _].
      apply andb_true_iff in Hflags as [Hnow _].
      now apply negb_true_iff in Hnow.
  - intros k Hk.
    pose proof (infall_approaching_at k Hk) as Happroach.
    unfold Infall.approaching in Happroach.
    apply andb_true_iff in Happroach as [_ Hcloser].
    rewrite infall_flight_S. exact Hcloser.
  - exact Hcap.
  - exact (flight_captured (Infall.frames - 1) Hlast Hcap).
  - intros k Hk.
    replace k with (Infall.frames + (k - Infall.frames))%nat by lia.
    rewrite (flight_absorbed_stays Infall.frames (k - Infall.frames) Hdone).
    split; [exact Hdone|reflexivity].
Qed.

(** C7 at the first frame: the spawned ray is in flight and its first
    [update] brings it closer to the gravity source. *)
Lemma direct_infall_witness :
  (1 < Infall.frames)%nat
  /\ absorbed (Infall.flight 0) = false
  /\ fltb (distance Infall.hole (Infall.flight 1))
          (distance Infall.hole (Infall.flight 0)) = true.
Proof.
  assert (H1 : (1 < Infall.frames)%nat) by (unfold Infall.frames; lia).
  assert (H0 : (0 < Infall.frames)%nat) by (unfold Infall.frames; lia).
  split; [exact H1|]. split.
  - exact (proj1 (proj2 (proj2 (proj2 direct_infall))) 0%nat H0).
  - exact (proj1 (proj2 (proj2 (proj2 (proj2 direct_infall)))) 0%nat H1).
Defined.

(** C8. The R key empties the ray collection and zeroes the spawn counter;
    the gravity source and the spawn timer stay as they were; the next spawn
    adds the ray a fresh simulation spawns first, at (-50,50) and red. *)
Theorem reset_restarts_spawning :
  forall (F : Type) (ops : FloatOps F) (s : Simulation F),
    handleEvents [KeyPressed KeyR] s = reset s
    /\ lightRays (reset s) = []
    /\ rayCount (reset s) = 0%Z
    /\ blackHole (reset s) = blackHole s
    /\ raySpawnTimer (reset s) = raySpawnTimer s
    /\ lightRays (spawnLightRay (reset s)) = [spawnedRay 0]
    /\ lightRays (spawnLightRay (reset s)) = lightRays (spawnLightRay Simulation_new)
    /\ currentPosition (spawnedRay (F := F) 0) = mkVector2f (of_int (-50)) (of_int 50)
    /\ color (spawnedRay (F := F) 0) = sfColor.Red.
Proof.
  intros F ops s. repeat split.
Qed.

(** C9. One tick spawns at most once. When the accumulated timer exceeds
    0.3 the spawn step appends exactly one ray, the counter advances by one
    and the timer is set to zero, however large [deltaTime] is; otherwise
    the collection and the counter are untouched by the spawn step and the
    timer keeps the accumulated value. The counter is taken below [INT_MAX],
    where [rayCount++] does not overflow. *)
Theorem one_spawn_per_tick :
  forall (F : Type) (ops : FloatOps F) (dt : F) (s : Simulation F),
    (0 <= rayCount s < INT_MAX)%Z ->
    let timer := fadd (raySpawnTimer s) dt in
    (rayCount s <= rayCount (update dt s) <= rayCount s + 1)%Z
    /\ (fltb (flit 3 10) timer = true ->
          lightRays (spawnStep dt s) = lightRays s ++ [spawnedRay (rayCount s)]
          /\ rayCount (update dt s) = (rayCount s + 1)%Z
          /\ raySpawnTimer (update dt s) = of_int 0)
    /\ (fltb (flit 3 10) timer = false ->
          lightRays (spawnStep dt s) = lightRays s
          /\ rayCount (update dt s) = rayCount s
          /\ raySpawnTimer (update dt s) = timer).
Proof.
  intros F ops dt s Hrange timer.
  assert (Hwrap : int_wrap (rayCount s + 1) = (rayCount s + 1)%Z).
  { apply int_wrap_small. unfold INT_MAX in *. lia. }
  unfold update, spawnStep. fold timer.
  destruct (fltb (flit 3 10) timer) eqn:Hfire; cbn; rewrite ?Hwrap;
    repeat split; try discriminate; try lia.
Qed.

(** C9 for a fresh simulation and a tick of 100 s: one spawn, the timer back
    at zero. *)
Lemma one_spawn_per_tick_witness :
  (0 <= rayCount (Simulation_new (F := B32.t)) < INT_MAX)%Z
  /\ fltb (flit 3 10) (fadd (raySpawnTimer (Simulation_new (F := B32.t))) (of_int 100))
     = true
  /\ rayCount (update (of_int 100) (Simulation_new (F := B32.t))) = 1%Z
  /\ raySpawnTimer (update (of_int 100) (Simulation_new (F := B32.t))) = of_int 0.
Proof.
  assert (Hrange : (0 <= rayCount (Simulation_new (F := B32.t)) < INT_MAX)%Z).
  { cbn. unfold INT_MAX. lia. }
  assert (Hfire : fltb (flit 3 10)
                    (fadd (raySpawnTimer (Simulation_new (F := B32.t))) (of_int 100))
                  = true) by (vm_compute; reflexivity).
  split; [exact Hrange|]. split; [exact Hfire|].
  destruct (one_spawn_per_tick B32.t binary32_ops (of_int 100) Simulation_new Hrange)
    as (_ & Hspawn & _).
  destruct (Hspawn Hfire) as (_ & Hcount & Htimer).
  split; [exact Hcount|exact Htimer].
Defined.

(** C10. From construction on and after any run of [update] calls the
    recorded path starts with the spawn point, every [update] only appends to
    it (nothing or the new position), and every two consecutive recorded
    points are more than 2.0 apart as [update] measures it. *)
Theorem recorded_path_invariant :
  forall (F : Type) (ops : FloatOps F) (startPos initialVel : Vector2f F)
         (c : Color) (calls : list (BlackHole F * F)),
    let r := update_all calls (LightRay_new startPos initialVel c) in
    path (LightRay_new startPos initialVel c) = [startPos]
    /\ (exists added, path r = startPos :: added)
    /\ (forall (bh : BlackHole F) (dt : F),
          path (LightRay_update bh dt r) = path r
          \/ path (LightRay_update bh dt r)
             = path r ++ [currentPosition (LightRay_update bh dt r)])
    /\ (forall i a b,
          nth_error (path r) i = Some a -> nth_error (path r) (S i) = Some b ->
          fltb (of_int 2) (magnitude (vsub b a)) = true).
Proof.
  intros F ops startPos initialVel c calls r. split; [reflexivity|]. split.
  - destruct (update_all_path calls (LightRay_new startPos initialVel c))
      as [added Hadd].
    exists added. exact Hadd.
  - split.
    + intros bh dt. apply update_path.
    + intros i a b Ha Hb. apply (spaced_nth (path r) i); try assumption.
      apply update_all_spaced. reflexivity.
Qed.

(** C10 for the spawned ray after two frames: the first two recorded points
    are more than 2.0 apart. *)
Lemma recorded_path_invariant_witness :
  exists a b : Vector2f B32.t,
    nth_error (path (update_all [(Infall.hole, Infall.deltaTime);
                                 (Infall.hole, Infall.deltaTime)] Infall.ray0)) 0
    = Some a
    /\ nth_error (path (update_all [(Infall.hole, Infall.deltaTime);
                                    (Infall.hole, Infall.deltaTime)] Infall.ray0)) 1
       = Some b
    /\ fltb (of_int 2) (magnitude (vsub b a)) = true.
Proof.
  assert (H0 : { a | nth_error (path (update_all [(Infall.hole, Infall.deltaTime);
                                 (Infall.hole, Infall.deltaTime)] Infall.ray0)) 0
                     = Some a }).
  { eexists. vm_compute. reflexivity. }
  assert (H1 : { b | nth_error (path (update_all [(Infall.hole, Infall.deltaTime);
                                 (Infall.hole, Infall.deltaTime)] Infall.ray0)) 1
                     = Some b }).
  { eexists. vm_compute. reflexivity. }
  destruct H0 as [a Ha]. destruct H1 as [b Hb].
  exists a, b. split; [exact Ha|]. split; [exact Hb|].
  exact (proj2 (proj2 (proj2 (recorded_path_invariant B32.t binary32_ops
           (mkVector2f (of_int (-50)) (of_int 400))
           (mkVector2f (of_int 200) (of_int 0)) sfColor.Red
           [(Infall.hole, Infall.deltaTime); (Infall.hole, Infall.deltaTime)])))
           0%nat a b Ha Hb).
Defined.


(** * Further properties of the code *)

(** X1. [Vector2f::operator+] is commutative in binary32, for all operands,
    infinities and NaN included. *)
Theorem vector_sum_commutes (a b : Vector2f B32.t) : vadd a b = vadd b a.
Proof.
  unfold vadd. cbn [fadd binary32_ops].
  rewrite (B32_add_comm (vx a) (vx b)).
  rewrite (B32_add_comm (vy a) (vy b)).
  reflexivity.
Qed.

(** X2. In binary32 the length of a difference does not depend on the order
    of the operands: [(a - b).magnitude()] and [(b - a).magnitude()] are the
    same float, so the distance of [update] and its path-recording test are
    symmetric. *)
Theorem separation_is_symmetric (a b : Vector2f B32.t) :
  magnitude (vsub a b) = magnitude (vsub b a) /\ apart a b = apart b a.
Proof.
  split; [apply B32_separation|].
  unfold apart. now rewrite (B32_separation b a).
Qed.

(** X3. In binary32, a gravity source whose mass is not above zero (zero,
    negative or NaN) never absorbs: [magnitude()] is never below zero, the
    radius [mass * 0.01f] is never above it, and a ray that is not absorbed
    stays so through any run of updates against that source. *)
Theorem degenerate_source_never_absorbs
  (pos : Vector2f B32.t) (m : B32.t) (deltaTimes : list B32.t) (r : LightRay B32.t) :
  B32.ltb (B32.of_Z 0) m = false ->
  absorbed r = false ->
  captured (BlackHole_new pos m) r = false
  /\ absorbed (update_all (map (pair (BlackHole_new pos m)) deltaTimes) r) = false.
Proof.
  intros Hm Ha. split.
  - now apply degenerate_never_captures.
  - now apply degenerate_update_all.
Qed.

(** X3 for a source of mass -50 at the window's centre and the ray spawned
    at its height, over two frames. *)
Lemma degenerate_source_never_absorbs_witness :
  B32.ltb (B32.of_Z 0) (B32.of_Z (-50)) = false
  /\ absorbed Infall.ray0 = false
  /\ absorbed (update_all
                 (map (pair (BlackHole_new (mkVector2f (B32.of_Z 600) (B32.of_Z 400))
                                           (B32.of_Z (-50))))
                      [Infall.deltaTime; Infall.deltaTime])
                 Infall.ray0) = false.
Proof.
  assert (Hm : B32.ltb (B32.of_Z 0) (B32.of_Z (-50)) = false) by reflexivity.
  assert (Ha : absorbed Infall.ray0 = false) by reflexivity.
  split; [exact Hm|]. split; [exact Ha|].
  exact (proj2 (degenerate_source_never_absorbs
                  (mkVector2f (B32.of_Z 600) (B32.of_Z 400)) (B32.of_Z (-50))
                  [Infall.deltaTime; Infall.deltaTime] Infall.ray0 Hm Ha)).
Defined.

(** X4. In binary32, [normalized()] of a vector whose magnitude comes out
    between 2^-60 and 2^60 has finite coordinates and a magnitude within
    2^-18 of 1. *)
Theorem normalized_is_a_unit_vector (v : Vector2f B32.t) :
  proper_vector v = true -> in_range (magnitude v) = true ->
  finite_vector (normalized v) = true
  /\ B32.leb (fabs (fsub (magnitude (normalized v)) (of_int 1))) unit_tolerance = true.
Proof. apply normalized_unit_b32. Qed.

(** X4 for the velocity of a spawned ray, (200, 0). *)
Lemma normalized_is_a_unit_vector_witness :
  proper_vector (mkVector2f (B32.of_Z 200) (B32.of_Z 0)) = true
  /\ in_range (magnitude (mkVector2f (B32.of_Z 200) (B32.of_Z 0))) = true
  /\ B32.leb (fabs (fsub (magnitude (normalized (mkVector2f (B32.of_Z 200) (B32.of_Z 0))))
                         (of_int 1))) unit_tolerance = true.
Proof.
  assert (Hp : proper_vector (mkVector2f (B32.of_Z 200) (B32.of_Z 0)) = true)
    by (vm_compute; reflexivity).
  assert (Hr : in_range (magnitude (mkVector2f (B32.of_Z 200) (B32.of_Z 0))) = true)
    by (vm_compute; reflexivity).
  split; [exact Hp|]. split; [exact Hr|].
  exact (proj2 (normalized_is_a_unit_vector
                  (mkVector2f (B32.of_Z 200) (B32.of_Z 0)) Hp Hr)).
Defined.

(** X5. In binary32, for a source whose mass has its sign bit clear and a
    ray whose impact parameter has, as every constructed ray's has: a
    coordinate of the acceleration that [update] computes is below zero only
    if the same coordinate of the vector from the ray to the source is, and
    above zero only if that one is. Gravity never pushes a ray away from
    the source, whatever is rounded, overflows or is NaN. *)
Theorem gravity_pulls_towards_the_source (bh : BlackHole B32.t) (r : LightRay B32.t) :
  B32.nonneg (getMass bh) = true -> B32.nonneg (impactParameter r) = true ->
  (below_zero (vx (acceleration bh r)) = true
   -> below_zero (vx (toBlackHole bh r)) = true)
  /\ (above_zero (vx (acceleration bh r)) = true
      -> above_zero (vx (toBlackHole bh r)) = true)
  /\ (below_zero (vy (acceleration bh r)) = true
      -> below_zero (vy (toBlackHole bh r)) = true)
  /\ (above_zero (vy (acceleration bh r)) = true
      -> above_zero (vy (toBlackHole bh r)) = true).
Proof.
  intros Hm Hb. destruct (acceleration_side bh r Hm Hb) as [[Hxn Hxp] [Hyn Hyp]].
  auto.
Qed.

(** X5 for the simulation's source and the ray spawned at (-50, 400), which
    is pulled to the right. *)
Lemma gravity_pulls_towards_the_source_witness :
  B32.nonneg (getMass Infall.hole) = true
  /\ B32.nonneg (impactParameter Infall.ray0) = true
  /\ above_zero (vx (acceleration Infall.hole Infall.ray0)) = true
  /\ above_zero (vx (toBlackHole Infall.hole Infall.ray0)) = true.
Proof.
  assert (Hm : B32.nonneg (getMass Infall.hole) = true) by (vm_compute; reflexivity).
  assert (Hb : B32.nonneg (impactParameter Infall.ray0) = true)
    by (vm_compute; reflexivity).
  assert (Ha : above_zero (vx (acceleration Infall.hole Infall.ray0)) = true)
    by (vm_compute; reflexivity).
  split; [exact Hm|]. split; [exact Hb|]. split; [exact Ha|].
  exact (proj1 (proj2 (gravity_pulls_towards_the_source Infall.hole Infall.ray0 Hm Hb))
           Ha).
Defined.

(** X8. For every arithmetic: after any run of updates of a constructed
    ray, the last recorded path point is the current position, or the
    current position is not more than 2.0 away from it by the code's own
    test. *)
Theorem path_tracks_position (F : Type) (ops : FloatOps F)
  (startPos initialVel : Vector2f F) (c : Color) (calls : list (BlackHole F * F)) :
  path_follows (update_all calls (LightRay_new startPos initialVel c)).
Proof. apply update_all_path_follows. now left. Qed.

(** X9. For every arithmetic, one [update] of the simulation: the window
    flag and the gravity source are untouched, at most one ray is added, no
    ray that is left is off screen, and each ray that is left is the update,
    against the simulation's source and with this deltaTime, of a ray that
    was there or of the ray spawned in this tick. *)
Theorem update_tick (F : Type) (ops : FloatOps F) (deltaTime : F) (s : Simulation F) :
  windowOpen (update deltaTime s) = windowOpen s
  /\ blackHole (update deltaTime s) = blackHole s
  /\ (length (lightRays (update deltaTime s)) <= length (lightRays s) + 1)%nat
  /\ forall r, In r (lightRays (update deltaTime s)) ->
       isOffScreen r = false
       /\ exists r0, r = LightRay_update (blackHole s) deltaTime r0
                     /\ (In r0 (lightRays s) \/ r0 = spawnedRay (rayCount s)).
Proof.
  split; [apply update_windowOpen|]. split; [apply update_blackHole|]. split.
  - pose proof (update_length deltaTime s) as Hlen.
    destruct (spawnStep_rays deltaTime s) as [Hr|Hr]; rewrite Hr in Hlen.
    + lia.
    + rewrite length_app in Hlen. cbn [length] in Hlen. lia.
  - intros r Hin. split; [now apply (update_on_screen deltaTime s)|].
    now apply update_origin.
Qed.

(** X10. For every arithmetic, [handleEvents] over the events of one round:
    the window is open afterwards iff it was and none of the events is
    Closed or the Escape key; the gravity source and the spawn timer are
    untouched; if one of the events is the R key the rays are gone and the
    counter is 0, otherwise both are as before. *)
Theorem handleEvents_batch (F : Type) (ops : FloatOps F)
  (events : list Event) (s : Simulation F) :
  windowOpen (handleEvents events s) = windowOpen s && negb (existsb closes events)
  /\ blackHole (handleEvents events s) = blackHole s
  /\ raySpawnTimer (handleEvents events s) = raySpawnTimer s
  /\ (existsb resets events = true ->
      lightRays (handleEvents events s) = [] /\ rayCount (handleEvents events s) = 0%Z)
  /\ (existsb resets events = false ->
      lightRays (handleEvents events s) = lightRays s
      /\ rayCount (handleEvents events s) = rayCount s).
Proof.
  split; [apply handleEvents_windowOpen|].
  destruct (handleEvents_fixed events s) as [Hh Ht].
  split; [exact Hh|]. split; [exact Ht|].
  destruct (handleEvents_rays events s) as [(He & Hr & Hc)|(He & Hr & Hc)];
    split; intros He'; try congruence; auto.
Qed.

(** X11. For every arithmetic: after the rounds that [run] makes on any
    inputs, at most INT_MAX of them, from the constructor's state, the
    gravity source is the constructor's, the spawn counter lies between 0
    and the number of rounds, there are no more rays than the counter says,
    and every ray is on screen, is a spawned ray of a smaller counter updated
    against the simulation's source only, has its path ending at or within
    2.0 of its position, has consecutive path points more than 2.0 apart, and
    if absorbed lies inside the Schwarzschild radius. *)
Theorem run_keeps_the_simulation_sound (F : Type) (ops : FloatOps F) (le : FloatLe F)
  (font : bool) (inputs : list (list Event * F)) :
  (Z.of_nat (length inputs) <= INT_MAX)%Z ->
  blackHole (sim (fst (run inputs (Window_new font)))) = blackHole Simulation_new
  /\ (0 <= rayCount (sim (fst (run inputs (Window_new font))))
      <= Z.of_nat (length inputs))%Z
  /\ (Z.of_nat (length (lightRays (sim (fst (run inputs (Window_new font))))))
      <= rayCount (sim (fst (run inputs (Window_new font)))))%Z
  /\ Forall (fun r =>
               isOffScreen r = false
               /\ descends (sim (fst (run inputs (Window_new font)))) r
               /\ path_follows r
               /\ spaced (path r) = true
               /\ swallowed (blackHole Simulation_new) r)
       (lightRays (sim (fst (run inputs (Window_new font))))).
Proof.
  intros Hlen.
  pose proof (run_sound inputs (Window_new font) 0%Z ltac:(lia) sound_new) as Hs.
  rewrite Z.add_0_l in Hs. destruct Hs as [Hh Hc Hsz Hscr Hd].
  split; [exact Hh|]. split; [exact Hc|]. split; [exact Hsz|].
  rewrite Forall_forall in *. intros r Hin.
  destruct (descends_ray _ _ (Hd r Hin)) as (Hf & Hsw & Hsp & _).
  rewrite Hh in Hsw. auto.
Qed.

(** X11 for two rounds in binary32 without events, of 1 s and of 1/60 s:
    the first round spawns a ray, which is there after the second. *)
Lemma run_keeps_the_simulation_sound_witness :
  (Z.of_nat (length FirstSpawn.inputs) <= INT_MAX)%Z
  /\ length (lightRays (sim (fst (run FirstSpawn.inputs (Window_new false))))) = 1%nat
  /\ rayCount (sim (fst (run FirstSpawn.inputs (Window_new false)))) = 1%Z
  /\ Forall (fun r =>
               isOffScreen r = false
               /\ descends (sim (fst (run FirstSpawn.inputs (Window_new false)))) r
               /\ path_follows r
               /\ spaced (path r) = true
               /\ swallowed (blackHole Simulation_new) r)
       (lightRays (sim (fst (run FirstSpawn.inputs (Window_new false))))).
Proof.
  assert (Hlen : (Z.of_nat (length FirstSpawn.inputs) <= INT_MAX)%Z)
    by (cbn; unfold INT_MAX; lia).
  split; [exact Hlen|].
  split; [vm_compute; reflexivity|]. split; [vm_compute; reflexivity|].
  exact (proj2 (proj2 (proj2 (run_keeps_the_simulation_sound B32.t binary32_ops
                                binary32_le false FirstSpawn.inputs Hlen)))).
Defined.

(** X12. For every arithmetic, [run] from an open window: while no round
    brings an event that closes the window, every round draws its frame and
    the window stays open; the round that brings one is still updated and
    drawn, from the state after its update, and is the last: the window is
    closed and the inputs after it are never read. *)
Theorem run_stops_when_closed (F : Type) (ops : FloatOps F) (le : FloatLe F)
  (w : Window F) (before after : list (list Event * F)) (input : list Event * F) :
  windowOpen (sim w) = true ->
  existsb closing before = false ->
  closing input = true ->
  (windowOpen (sim (fst (run before w))) = true
   /\ length (snd (run before w)) = length before)
  /\ run (before ++ input :: after) w
     = (fst (frame input (fst (run before w))),
        snd (run before w) ++ [render (fst (frame input (fst (run before w))))])
  /\ windowOpen (sim (fst (run (before ++ input :: after) w))) = false
  /\ sim (fst (run (before ++ input :: after) w))
     = update (snd input) (handleEvents (fst input) (sim (fst (run before w)))).
Proof.
  intros Hw Hq Hc.
  destruct (run_open before w Hw Hq) as [Ho Hl].
  split; [now split|].
  assert (Hrun : run (before ++ input :: after) w
                 = (fst (frame input (fst (run before w))),
                    snd (run before w)
                    ++ [render (fst (frame input (fst (run before w))))])).
  { rewrite (run_app before w (input :: after) Hw Hq).
    now rewrite (run_closing input after _ Ho Hc). }
  split; [exact Hrun|]. rewrite Hrun. cbn [fst]. split.
  - rewrite frame_windowOpen, Ho, Hc. reflexivity.
  - apply frame_state.
Qed.

(** X12 in binary32: one round without events, then the Closed event, then
    a round that is never made. *)
Lemma run_stops_when_closed_witness :
  windowOpen (sim (Window_new (F := B32.t) false)) = true
  /\ existsb closing [([] : list Event, Infall.deltaTime)] = false
  /\ closing ([Closed], Infall.deltaTime) = true
  /\ windowOpen
       (sim (fst (run ([([], Infall.deltaTime)]
                       ++ ([Closed], Infall.deltaTime) :: [([], Infall.deltaTime)])
                      (Window_new false)))) = false.
Proof.
  assert (Hw : windowOpen (sim (Window_new (F := B32.t) false)) = true) by reflexivity.
  assert (Hq : existsb closing [([] : list Event, Infall.deltaTime)] = false)
    by reflexivity.
  assert (Hc : closing ([Closed], Infall.deltaTime) = true) by reflexivity.
  split; [exact Hw|]. split; [exact Hq|]. split; [exact Hc|].
  exact (proj1 (proj2 (proj2 (run_stops_when_closed B32.t binary32_ops binary32_le
                                (Window_new false) [([], Infall.deltaTime)]
                                [([], Infall.deltaTime)] ([Closed], Infall.deltaTime)
                                Hw Hq Hc)))).
Defined.

(** X13. For every arithmetic, one round of [run]: the state drawn is the
    one after [handleEvents] and [update]; the frame is the clear to black,
    the grid, the event horizon and the disc of the gravity source, the rays
    of the updated state in the order of the collection, the info text if
    the font was loaded, and the display, in this order; the text drawn is
    the one that reports the ray number and the counter of that same state. *)
Theorem frame_draws_the_updated_state (F : Type) (ops : FloatOps F) (le : FloatLe F)
  (input : list Event * F) (w : Window F) :
  sim (fst (frame input w)) = update (snd input) (handleEvents (fst input) (sim w))
  /\ fontLoaded (fst (frame input w)) = fontLoaded w
  /\ snd (frame input w)
     = [Clear sfColor_Black]
       ++ drawGrid
       ++ [Circle (BlackHole_eventHorizon (blackHole (sim w)));
           Circle (BlackHole_shape (blackHole (sim w)))]
       ++ flat_map LightRay_draw (lightRays (sim (fst (frame input w))))
       ++ (if fontLoaded w then [Text (infoOf (sim (fst (frame input w))))] else [])
       ++ [Display].
Proof.
  split; [apply frame_state|]. split; [reflexivity|]. apply frame_drawn.
Qed.

(** X14. For every arithmetic, [LightRay::draw]: the lines drawn join the
    consecutive points of the path, in order and in the ray's colour, and
    the photon marker follows them only if the path has two points at least
    and the marker test holds; a ray whose path has fewer than two points
    draws nothing, marker included; an absorbed ray draws its path only; the
    draw calls are never more than the path points; and when consecutive
    path points are more than 2.0 apart, as for every ray of the simulation,
    every line drawn joins two such points. *)
Theorem ray_drawing (F : Type) (ops : FloatOps F) (le : FloatLe F) (r : LightRay F) :
  LightRay_draw r
  = segments (color r) (path r)
    ++ (if (2 <=? length (path r))%nat && marker_shown r
        then [Circle (photon r)] else [])
  /\ length (segments (color r) (path r)) = (length (path r) - 1)%nat
  /\ ((length (path r) < 2)%nat -> LightRay_draw r = [])
  /\ (absorbed r = true -> LightRay_draw r = segments (color r) (path r))
  /\ (length (LightRay_draw r) <= length (path r))%nat
  /\ (spaced (path r) = true ->
      Forall (long_line (color r)) (segments (color r) (path r))).
Proof.
  split; [apply LightRay_draw_segments|]. split; [apply segments_length|].
  split; [|split; [apply LightRay_draw_absorbed|split;
                   [apply LightRay_draw_length|apply segments_spaced]]].
  intros Hlt. unfold LightRay_draw.
  now replace (length (path r) <? 2)%nat with true
    by (symmetry; apply Nat.ltb_lt; exact Hlt).
Qed.

(** X15. For every arithmetic, [drawGrid]: 24 vertical lines and then 16
    horizontal lines, at the multiples of 50 from 0 up to, and without, the
    window's width and height: no line on the right or the bottom edge; and
    the loops are complete, more rounds draw nothing more. *)
Theorem grid_lines (F : Type) (ops : FloatOps F) :
  drawGrid (F := F)
  = map grid_vertical (fifties 24) ++ map grid_horizontal (fifties 16)
  /\ (forall x, In x (fifties 24) <-> (0 <= x < WINDOW_WIDTH)%Z /\ (x mod 50 = 0)%Z)
  /\ (forall y, In y (fifties 16) <-> (0 <= y < WINDOW_HEIGHT)%Z /\ (y mod 50 = 0)%Z)
  /\ forall more : nat,
       for_up (rounds 0 WINDOW_WIDTH 50 + more) 0 WINDOW_WIDTH 50 (grid_vertical (F := F))
       = map grid_vertical (fifties 24)
       /\ for_up (rounds 0 WINDOW_HEIGHT 50 + more) 0 WINDOW_HEIGHT 50
                 (grid_horizontal (F := F))
          = map grid_horizontal (fifties 16).
Proof.
  split; [apply drawGrid_lines|].
  split; [intros x; apply (fifties_spec 24)|].
  split; [intros y; apply (fifties_spec 16)|].
  intros more. split; rewrite for_up_spec by lia;
    unfold fifties; rewrite map_map; apply map_ext; intros k; f_equal; lia.
Qed.

(** X16. In binary32: after the rounds that [run] makes from the
    constructor's state on any inputs whose clock readings are not below
    zero (an infinite reading included), the spawn timer lies between 0 and
    [0.3f]; it is never NaN and never infinite. *)
Theorem spawn_timer_stays_in_range (font : bool) (inputs : list (list Event * B32.t)) :
  Forall (fun input => B32.leb (B32.of_Z 0) (snd input) = true) inputs ->
  timer_sound (raySpawnTimer (sim (fst (run inputs (Window_new font))))) = true.
Proof. intros Hin. now apply run_timer. Qed.

(** X16 for two rounds of 1/60 s. *)
Lemma spawn_timer_stays_in_range_witness :
  Forall (fun input : list Event * B32.t => B32.leb (B32.of_Z 0) (snd input) = true)
    [([], Infall.deltaTime); ([], Infall.deltaTime)]
  /\ timer_sound
       (raySpawnTimer
          (sim (fst (run [([], Infall.deltaTime); ([], Infall.deltaTime)]
                         (Window_new false))))) = true.
Proof.
  assert (Hin : Forall (fun input : list Event * B32.t =>
                          B32.leb (B32.of_Z 0) (snd input) = true)
                  [([], Infall.deltaTime); ([], Infall.deltaTime)]).
  { repeat constructor. }
  split; [exact Hin|].
  exact (spawn_timer_stays_in_range false _ Hin).
Defined.
